(** * A shallow embedding of [src/device.ts]

    The [Device] class of the ev3dev browser extension: one SSH session to a
    remote brick, its SFTP-backed file operations, the recursive
    [mkdir_p] / [rm_rf] helpers, progress-reporting transfers and the
    connect / disconnect life cycle.

    Promises are modelled as computations over an explicit world that
    either resolve, reject with an [Error] or never settle.  The world holds
    the mutable fields of the [Device] object, the remote side it talks to,
    and three journals: the calls made on the ssh2 objects, the events fired
    and the percentages handed to progress callbacks. *)

From Stdlib Require Import ZArith String Ascii List Bool Lia Sorted.
From Stdlib Require Import Floats.SpecFloat.
From stdpp Require Import base tactics option list strings gmap.

Open Scope string_scope.
Open Scope Z_scope.

(** ** JavaScript values used by the class *)

(** A JavaScript [Error]: its message and, for errors coming from the SFTP
    layer, the numeric status in its [code] property. Errors made with
    [new Error(msg)] have no [code]. *)
Record Error := mkError { message : string; code : option Z }.

Definition new_Error (msg : string) : Error := mkError msg None.

(** [ssh2.SFTP_STATUS_CODE] *)
Module SFTP_STATUS_CODE.
Definition OK : Z := 0.
Definition EOF : Z := 1.
Definition NO_SUCH_FILE : Z := 2.
Definition PERMISSION_DENIED : Z := 3.
Definition FAILURE : Z := 4.
End SFTP_STATUS_CODE.

Definition sftp_error (msg : string) (status : Z) : Error :=
  mkError msg (Some status).

(** JavaScript numbers are IEEE-754 binary64 values. *)
Definition number : Type := spec_float.
Definition prec : Z := 53.
Definition emax : Z := 1024.

(** Template-literal rendering of an optional string ([undefined] prints as
    the word). *)
Definition render (o : option string) : string :=
  match o with Some s => s | None => "undefined" end.

(** Decimal rendering of an integer-valued number, as a template literal
    prints it.  JavaScript prints a safe integer (one of magnitude below
    [2^53]) as its exact decimal digits, which is what this function gives;
    larger numbers are printed otherwise (shortest digits that identify the
    binary64 value, exponent notation from [1e21] on) and are not meant to be
    passed to it. *)
Definition digit_char (d : Z) : ascii :=
  ascii_of_nat (48 + Z.to_nat d).

Fixpoint decimal_digits (fuel : nat) (n : Z) (acc : string) : string :=
  match fuel with
  | O => acc
  | S fuel' =>
      let acc' := String (digit_char (n mod 10)) acc in
      if n / 10 =? 0 then acc' else decimal_digits fuel' (n / 10) acc'
  end.

Definition string_of_Z (n : Z) : string :=
  if n <? 0 then "-" +:+ decimal_digits (S (Z.to_nat (- n))) (- n) ""
  else decimal_digits (S (Z.to_nat n)) n "".

(** Reading a decimal numeral back: the number a non-empty run of decimal
    digits without superfluous leading zero stands for, and nothing for any
    other string. *)
Definition digit_of (c : ascii) : option Z :=
  let n := Z.of_nat (nat_of_ascii c) in
  if (48 <=? n) && (n <=? 57) then Some (n - 48) else None.

Fixpoint numeral_digits (s : string) (acc : Z) : option Z :=
  match s with
  | EmptyString => Some acc
  | String c r =>
      match digit_of c with
      | Some d => numeral_digits r (10 * acc + d)
      | None => None
      end
  end.

Definition numeral (s : string) : option Z :=
  match s with
  | EmptyString => None
  | String c r =>
      if Ascii.eqb c "0" && negb (bool_decide (r = "")) then None
      else numeral_digits s 0
  end.

(** ** Node's [path.posix] *)

Module posix.

(** [String.prototype.split('/')] *)
Fixpoint split (s : string) : list string :=
  match s with
  | EmptyString => [EmptyString]
  | String c r =>
      if Ascii.eqb c "/" then EmptyString :: split r
      else match split r with
           | h :: t => String c h :: t
           | [] => [String c EmptyString]
           end
  end.

(** [Array.prototype.join('/')] *)
Fixpoint unsplit (segs : list string) : string :=
  match segs with
  | [] => ""
  | [s] => s
  | s :: r => s +:+ "/" +:+ unsplit r
  end.

Definition isAbsolute (p : string) : bool :=
  match p with
  | String c _ => Ascii.eqb c "/"
  | EmptyString => false
  end.

Fixpoint ends_with_slash (p : string) : bool :=
  match p with
  | EmptyString => false
  | String c EmptyString => Ascii.eqb c "/"
  | String _ r => ends_with_slash r
  end.

(** [normalizeString]: the stack (most recent segment first) of the
    segments kept so far; empty and [.] segments are dropped, [..] pops a
    segment, or is kept when nothing can be popped and the path is
    relative. *)
Fixpoint normalizeString (allowAboveRoot : bool) (stack segs : list string)
  : list string :=
  match segs with
  | [] => rev stack
  | s :: r =>
      if bool_decide (s = "") || bool_decide (s = ".") then
        normalizeString allowAboveRoot stack r
      else if bool_decide (s = "..") then
        match stack with
        | t :: stack' =>
            if bool_decide (t = "..") then
              normalizeString allowAboveRoot
                (if allowAboveRoot then s :: stack else stack) r
            else normalizeString allowAboveRoot stack' r
        | [] =>
            normalizeString allowAboveRoot
              (if allowAboveRoot then [s] else []) r
        end
      else normalizeString allowAboveRoot (s :: stack) r
  end.

Definition normalize (p : string) : string :=
  if bool_decide (p = "") then "."
  else
    let abs := isAbsolute p in
    let trailing := ends_with_slash p in
    let body := unsplit (normalizeString (negb abs) [] (split p)) in
    if bool_decide (body = "") then
      if abs then "/" else if trailing then "./" else "."
    else
      let body' := if trailing then body +:+ "/" else body in
      if abs then "/" +:+ body' else body'.

(** [path.posix.join] of two arguments. *)
Definition join (a b : string) : string :=
  let joined :=
    if bool_decide (a = "") then b
    else if bool_decide (b = "") then a
    else a +:+ "/" +:+ b in
  if bool_decide (joined = "") then "." else normalize joined.

End posix.

(** ** Numbers handed to progress callbacks *)

Definition number_of_Z (z : Z) : number := binary_normalize prec emax z 0 false.

(** [Math.round]: the integer nearest to [x], ties towards +infinity;
    NaN and the infinities are returned as they are.  A finite
    [x = v * 2^e] with [e < 0] rounds to [floor ((2v + 2^-e) / 2^(1-e))]. *)
Definition Math_round (x : number) : number :=
  match x with
  | S754_finite s m e =>
      if 0 <=? e then x
      else
        let v := if s then Z.neg m else Z.pos m in
        let n := (2 * v + 2 ^ (- e)) / 2 ^ (1 - e) in
        binary_normalize prec emax n 0 s
  | _ => x
  end.

(** The value both [get] and [put] hand to [reportPercentage]:
    [Math.round(transferred / total * 100)]. *)
Definition percentage (transferred total : number) : number :=
  Math_round (SFmul prec emax (SFdiv prec emax transferred total)
                    (number_of_Z 100)).

(** ** ssh2 data *)

(** [ssh2Streams.Stats]: the attributes the class looks at. *)
Record Stats := mkStats { mode : Z; size : Z }.

Definition S_IFMT : Z := 61440.   (* 0o170000 *)
Definition S_IFDIR : Z := 16384.  (* 0o040000 *)
Definition S_IFREG : Z := 32768.  (* 0o100000 *)

Definition isDirectory (st : Stats) : bool :=
  Z.land (mode st) S_IFMT =? S_IFDIR.

Record FileEntry := mkFileEntry { filename : string; attrs : Stats }.

Inductive SFTPWrapper := sftp_session.
Inductive ClientChannel := channel (command : string).

(** ** The remote side

    The brick's file tree as the SFTP server shows it.  Directory entries
    keep their creation order, which is the order [readdir] lists them in. *)

#[warnings="-register-all"]
Inductive Node :=
| File (bytes : Z)
| Dir (entries : list (string * Node)).

Definition stats_of (n : Node) : Stats :=
  match n with
  | File b => mkStats (Z.lor S_IFREG 420) b
  | Dir _ => mkStats (Z.lor S_IFDIR 493) 4096
  end.

Fixpoint lookup_entry (name : string) (es : list (string * Node)) : option Node :=
  match es with
  | [] => None
  | (k, c) :: r => if bool_decide (k = name) then Some c else lookup_entry name r
  end.

(** Entries are found by name, so [alter_entry] and [remove_entry] act on
    every entry that carries the name. *)
Fixpoint alter_entry (g : Node -> Node) (name : string) (es : list (string * Node))
  : list (string * Node) :=
  match es with
  | [] => []
  | (k, c) :: r =>
      (k, if bool_decide (k = name) then g c else c) :: alter_entry g name r
  end.

Fixpoint remove_entry (name : string) (es : list (string * Node))
  : list (string * Node) :=
  match es with
  | [] => []
  | (k, c) :: r =>
      if bool_decide (k = name) then remove_entry name r
      else (k, c) :: remove_entry name r
  end.

(** The node a list of segments leads to, from [n]. *)
Fixpoint find_node (segs : list string) (n : Node) : option Node :=
  match segs with
  | [] => Some n
  | s :: r =>
      match n with
      | Dir es =>
          match lookup_entry s es with
          | Some c => find_node r c
          | None => None
          end
      | File _ => None
      end
  end.

(** Rewrites the entries of the directory that [segs] leads to. *)
Fixpoint update_dir (segs : list string)
    (f : list (string * Node) -> list (string * Node)) (n : Node) : Node :=
  match n with
  | File b => File b
  | Dir es =>
      match segs with
      | [] => Dir (f es)
      | s :: r => Dir (alter_entry (update_dir r f) s es)
      end
  end.

Fixpoint split_last (segs : list string) : option (list string * string) :=
  match segs with
  | [] => None
  | [s] => Some ([], s)
  | s :: r =>
      match split_last r with
      | Some (p, l) => Some (s :: p, l)
      | None => None
      end
  end.

(** How the server reads a path string: segment by segment, from the root
    for an absolute path and from its working directory otherwise. *)
Fixpoint resolve_from (stack segs : list string) : list string :=
  match segs with
  | [] => rev stack
  | s :: r =>
      if bool_decide (s = "") || bool_decide (s = ".") then resolve_from stack r
      else if bool_decide (s = "..") then resolve_from (tail stack) r
      else resolve_from (s :: stack) r
  end.

Inductive Reply (A : Type) :=
| Success (a : A)
| Failure (e : Error).
Arguments Success {A} a.
Arguments Failure {A} e.

(** What the remote side is and how it answers.  Besides the tree it says
    which entries refuse to be created or removed, which refuse to be
    inspected, whether the next handshake, SFTP request or [exec] request is
    turned down, and what a bulk transfer of a given remote path reports. *)
Record Remote := mkRemote {
  tree : Node;
  cwd : list string;
  locked : list (list string);
  unreadable : list (list string);
  handshake : option Error;
  subsystem : option Error;
  exec_refusal : option Error;
  transfer_steps : string -> list (number * number * number);
  transfer_error : string -> option Error
}.

Definition set_tree (t : Node) (r : Remote) : Remote :=
  mkRemote t (cwd r) (locked r) (unreadable r) (handshake r) (subsystem r)
           (exec_refusal r) (transfer_steps r) (transfer_error r).

Definition resolve (r : Remote) (p : string) : list string :=
  resolve_from (if posix.isAbsolute p then [] else rev (cwd r)) (posix.split p).

Definition no_such_file : Error :=
  sftp_error "No such file" SFTP_STATUS_CODE.NO_SUCH_FILE.
Definition permission_denied : Error :=
  sftp_error "Permission denied" SFTP_STATUS_CODE.PERMISSION_DENIED.
Definition failure : Error :=
  sftp_error "Failure" SFTP_STATUS_CODE.FAILURE.

Definition is_in (segs : list string) (l : list (list string)) : bool :=
  bool_decide (segs ∈ l).

Definition server_stat (p : string) (r : Remote) : Reply Stats * Remote :=
  let segs := resolve r p in
  if is_in segs (unreadable r) then (Failure permission_denied, r)
  else match find_node segs (tree r) with
       | Some n => (Success (stats_of n), r)
       | None => (Failure no_such_file, r)
       end.

Definition server_readdir (p : string) (r : Remote)
  : Reply (list FileEntry) * Remote :=
  let segs := resolve r p in
  if is_in segs (unreadable r) then (Failure permission_denied, r)
  else match find_node segs (tree r) with
       | Some (Dir es) =>
           (Success (map (fun e => mkFileEntry (fst e) (stats_of (snd e))) es), r)
       | Some (File _) => (Failure failure, r)
       | None => (Failure no_such_file, r)
       end.

Definition server_mkdir (p : string) (r : Remote) : Reply unit * Remote :=
  let segs := resolve r p in
  match find_node segs (tree r) with
  | Some _ => (Failure failure, r)
  | None =>
      match split_last segs with
      | None => (Failure failure, r)
      | Some (parent, name) =>
          match find_node parent (tree r) with
          | Some (Dir _) =>
              if is_in segs (locked r) then (Failure permission_denied, r)
              else (Success tt,
                    set_tree (update_dir parent (fun es => (es ++ [(name, Dir [])])%list)
                                         (tree r)) r)
          | Some (File _) => (Failure failure, r)
          | None => (Failure no_such_file, r)
          end
      end
  end.

Definition remove_at (segs : list string) (t : Node) : Node :=
  match split_last segs with
  | Some (parent, name) => update_dir parent (remove_entry name) t
  | None => t
  end.

Definition server_unlink (p : string) (r : Remote) : Reply unit * Remote :=
  let segs := resolve r p in
  match find_node segs (tree r) with
  | Some (File _) =>
      if is_in segs (locked r) then (Failure permission_denied, r)
      else (Success tt, set_tree (remove_at segs (tree r)) r)
  | Some (Dir _) => (Failure failure, r)
  | None => (Failure no_such_file, r)
  end.

Definition server_rmdir (p : string) (r : Remote) : Reply unit * Remote :=
  let segs := resolve r p in
  match find_node segs (tree r) with
  | Some (Dir []) =>
      if is_in segs (locked r) then (Failure permission_denied, r)
      else if bool_decide (segs = []) then (Failure failure, r)
      else (Success tt, set_tree (remove_at segs (tree r)) r)
  | Some (Dir (_ :: _)) => (Failure failure, r)
  | Some (File _) => (Failure failure, r)
  | None => (Failure no_such_file, r)
  end.

(** Permission bits are not part of the tree: [chmod] is acknowledged for
    an entry that exists. *)
Definition server_chmod (p : string) (r : Remote) : Reply unit * Remote :=
  let segs := resolve r p in
  match find_node segs (tree r) with
  | Some _ =>
      if is_in segs (locked r) then (Failure permission_denied, r)
      else (Success tt, r)
  | None => (Failure no_such_file, r)
  end.

(** ** The [Device] object and its world *)

Inductive IPv := IPv4 | IPv6.

Global Instance IPv_eq_dec : EqDecision IPv.
Proof. solve_decision. Defined.

(** [DnssdService], with the [ifaceName] property the class reads through
    an [any] cast. *)
Record DnssdService := mkService {
  name : string;
  iface : Z;
  ifaceName : option string;
  ipv : IPv;
  address : string;
  port : Z;
  txt : gmap string string
}.

(** [ssh2.Client], as far as the class depends on its state: whether it
    holds a connection to the remote side. *)
Record Client := mkClient { connected : bool }.

(** The fields of a [Device]; all but [service] are mutable, [client]
    through the state of the object it refers to. *)
Record Device := mkDevice {
  service : DnssdService;
  client : Client;
  sftp : option SFTPWrapper;
  _homeDirectoryAttr : option Stats;
  _isConnecting : bool;
  _isConnected : bool
}.

(** The argument of [client.connect]. *)
Record ConnectConfig := mkConnectConfig {
  host : string;
  cfg_username : option string;
  cfg_password : option string;
  tryKeyboard : bool;
  keepaliveCountMax : Z;
  keepaliveInterval : Z;
  readyTimeout : Z
}.

(** Calls made on the [ssh2.Client] and on the [SFTPWrapper]. *)
Inductive Call :=
| client_connect (c : ConnectConfig)
| client_sftp
| client_exec (command : string)
| client_end
| sftp_end
| sftp_chmod (path : string) (new_mode : Z)
| sftp_mkdir (path : string)
| sftp_fastGet (remote_path local_path : string)
| sftp_fastPut (local_path remote_path : string) (file_mode : option string)
| sftp_readdir (path : string)
| sftp_stat (path : string)
| sftp_unlink (path : string)
| sftp_rmdir (path : string).

Inductive Event := WillConnect | DidConnect | DidDisconnect.

Global Instance Event_eq_dec : EqDecision Event.
Proof. solve_decision. Defined.

Record World := mkWorld {
  dev : Device;
  remote : Remote;
  calls : list Call;            (* oldest first *)
  fired : list Event;           (* oldest first *)
  reported : list number;       (* oldest first *)
  platform : string;            (* process.platform *)
  password : option string;     (* ev3devBrowser.password *)
  connectTimeout : option Z     (* ev3devBrowser.connectTimeout *)
}.

Definition set_dev (d : Device) (w : World) : World :=
  mkWorld d (remote w) (calls w) (fired w) (reported w)
          (platform w) (password w) (connectTimeout w).

Definition set_remote (r : Remote) (w : World) : World :=
  mkWorld (dev w) r (calls w) (fired w) (reported w)
          (platform w) (password w) (connectTimeout w).

Definition log_call (c : Call) (w : World) : World :=
  mkWorld (dev w) (remote w) (calls w ++ [c])%list (fired w) (reported w)
          (platform w) (password w) (connectTimeout w).

Definition log_event (e : Event) (w : World) : World :=
  mkWorld (dev w) (remote w) (calls w) (fired w ++ [e])%list (reported w)
          (platform w) (password w) (connectTimeout w).

Definition log_report (x : number) (w : World) : World :=
  mkWorld (dev w) (remote w) (calls w) (fired w) (reported w ++ [x])%list
          (platform w) (password w) (connectTimeout w).

(** ** Promises *)

Inductive Outcome (A : Type) :=
| Resolve (a : A) (w : World)
| Reject (e : Error) (w : World)
| Pending.
Arguments Resolve {A} a w.
Arguments Reject {A} e w.
Arguments Pending {A}.

Definition M (A : Type) : Type := World -> Outcome A.

Global Instance M_ret : MRet M := fun A a w => Resolve a w.

Global Instance M_bind : MBind M := fun A B k m w =>
  match m w with
  | Resolve a w' => k a w'
  | Reject e w' => Reject e w'
  | Pending => Pending
  end.

Definition throw {A} (e : Error) : M A := fun w => Reject e w.

Definition try_catch {A} (body : M A) (handler : Error -> M A) : M A :=
  fun w =>
    match body w with
    | Reject e w' => handler e w'
    | o => o
    end.

Definition never {A} : M A := fun _ => Pending.

Fixpoint for_of {A} (l : list A) (body : A -> M unit) : M unit :=
  match l with
  | [] => mret tt
  | x :: r => body x ;; for_of r body
  end.

Definition get_dev : M Device := fun w => Resolve (dev w) w.
Definition get_remote : M Remote := fun w => Resolve (remote w) w.
Definition modify_dev (f : Device -> Device) : M unit :=
  fun w => Resolve tt (set_dev (f (dev w)) w).
Definition fire (e : Event) : M unit := fun w => Resolve tt (log_event e w).
Definition call (c : Call) : M unit := fun w => Resolve tt (log_call c w).
Definition report (x : number) : M unit := fun w => Resolve tt (log_report x w).

Definition set_client (c : Client) (d : Device) : Device :=
  mkDevice (service d) c (sftp d) (_homeDirectoryAttr d) (_isConnecting d)
           (_isConnected d).
Definition set_sftp (s : option SFTPWrapper) (d : Device) : Device :=
  mkDevice (service d) (client d) s (_homeDirectoryAttr d) (_isConnecting d)
           (_isConnected d).
Definition set_homeDirectoryAttr (a : option Stats) (d : Device) : Device :=
  mkDevice (service d) (client d) (sftp d) a (_isConnecting d) (_isConnected d).
Definition set_isConnecting (b : bool) (d : Device) : Device :=
  mkDevice (service d) (client d) (sftp d) (_homeDirectoryAttr d) b
           (_isConnected d).
Definition set_isConnected (b : bool) (d : Device) : Device :=
  mkDevice (service d) (client d) (sftp d) (_homeDirectoryAttr d)
           (_isConnecting d) b.

(** A request on the SFTP channel: journalled, then answered by the remote
    side. *)
Definition request {A} (c : Call) (srv : Remote -> Reply A * Remote) : M A :=
  fun w =>
    let w1 := log_call c w in
    let '(reply, r') := srv (remote w1) in
    match reply with
    | Success a => Resolve a (set_remote r' w1)
    | Failure e => Reject e (set_remote r' w1)
    end.

(** The guard every SFTP-backed method starts with. *)
Definition with_sftp {A} (k : SFTPWrapper -> M A) : M A :=
  d ← get_dev;
  match sftp d with
  | None => throw (new_Error "Not connected")
  | Some s => k s
  end.

(** ** The ssh2 client

    The methods of [ssh2.Client] the class calls.  [connect] leaves the
    client holding a connection when the handshake succeeds and none when it
    fails; [end] gives the connection up, and does nothing on a client that
    holds none.  [sftp] and [exec] throw [Not connected] on a client that
    holds no connection, before anything is sent: such a call is not a
    request, and the journal does not hold it. *)
Definition Client_connect (cfg : ConnectConfig) : M unit := fun w =>
  let w' := log_call (client_connect cfg) w in
  match handshake (remote w') with
  | Some e => Reject e (set_dev (set_client (mkClient false) (dev w')) w')
  | None => Resolve tt (set_dev (set_client (mkClient true) (dev w')) w')
  end.

Definition Client_sftp : M SFTPWrapper := fun w =>
  if connected (client (dev w)) then
    let w' := log_call client_sftp w in
    match subsystem (remote w') with
    | Some e => Reject e w'
    | None => Resolve sftp_session w'
    end
  else Reject (new_Error "Not connected") w.

Definition Client_exec (command : string) : M ClientChannel := fun w =>
  if connected (client (dev w)) then
    let w' := log_call (client_exec command) w in
    match exec_refusal (remote w') with
    | Some e => Reject e w'
    | None => Resolve (channel command) w'
    end
  else Reject (new_Error "Not connected") w.

Definition Client_end : M unit :=
  call client_end ;; modify_dev (set_client (mkClient false)).

(** ** Methods of [Device] *)

(** [new Device(service)]: the client is made by the constructor and holds
    no connection. *)
Definition new_Device (svc : DnssdService) : Device :=
  mkDevice svc (mkClient false) None None false false.

Definition username (d : Device) : option string :=
  txt (service d) !! "ev3dev.robot.user".

Definition homeDirectoryPath (d : Device) : string :=
  match txt (service d) !! "ev3dev.robot.home" with
  | Some h => if bool_decide (h = "") then "/home/" +:+ render (username d) else h
  | None => "/home/" +:+ render (username d)
  end.

Definition isConnecting (d : Device) : bool := _isConnecting d.
Definition isConnected (d : Device) : bool := _isConnected d.

Definition homeDirectoryAttr : M Stats :=
  d ← get_dev;
  match _homeDirectoryAttr d with
  | None => throw (new_Error "Not connected")
  | Some a => mret a
  end.

Definition disconnect : M unit :=
  modify_dev (set_isConnected false) ;;
  d ← get_dev;
  match sftp d with
  | Some _ => call sftp_end ;; modify_dev (set_sftp None)
  | None => mret tt
  end ;;
  Client_end ;;
  fire DidDisconnect.

(** The target host of [connectClient]: a link-local IPv6 address gets its
    interface appended. *)
Definition connect_address (plat : string) (svc : DnssdService) : string :=
  let address := address svc in
  if bool_decide (ipv svc = IPv6) && String.prefix "fe80::" address then
    if bool_decide (plat = "win32") then
      address +:+ "%" +:+ string_of_Z (iface svc)
    else
      address +:+ "%" +:+ render (ifaceName svc)
  else address.

Definition connectClient : M unit := fun w =>
  let d := dev w in
  let cfg := mkConnectConfig (connect_address (platform w) (service d))
               (username d) (password w) true 5 1000
               (default 30 (connectTimeout w) * 1000) in
  Client_connect cfg w.

(** [getSftp]; the keep-alive timer it resets while waiting is not part of
    the model. *)
Definition getSftp : M SFTPWrapper := Client_sftp.

Definition chmod (path : string) (new_mode : Z) : M unit :=
  with_sftp (fun _ => request (sftp_chmod path new_mode) (server_chmod path)).

(** [exec]; [env] and [pty] are handed to the client as they come. *)
Definition exec (command : string) : M ClientChannel := Client_exec command.

Definition mkdir (path : string) : M unit :=
  with_sftp (fun _ => request (sftp_mkdir path) (server_mkdir path)).

Definition ls (path : string) : M (list FileEntry) :=
  with_sftp (fun _ => request (sftp_readdir path) (server_readdir path)).

Definition stat (path : string) : M Stats :=
  with_sftp (fun _ => request (sftp_stat path) (server_stat path)).

Definition rm (path : string) : M unit :=
  with_sftp (fun _ => request (sftp_unlink path) (server_unlink path)).

Definition rmdir (path : string) : M unit :=
  with_sftp (fun _ => request (sftp_rmdir path) (server_rmdir path)).

Definition connect : M unit :=
  modify_dev (set_isConnecting true) ;;
  fire WillConnect ;;
  connectClient ;;
  try_catch
    (s ← getSftp;
     modify_dev (set_sftp (Some s)) ;;
     d ← get_dev;
     a ← stat (homeDirectoryPath d);
     modify_dev (set_homeDirectoryAttr (Some a)) ;;
     modify_dev (set_isConnecting false) ;;
     modify_dev (set_isConnected true) ;;
     fire DidConnect)
    (fun err =>
       modify_dev (set_isConnecting false) ;;
       disconnect ;;
       throw err).

(** The handler installed on the client's [close] event. *)
Definition on_close : M unit := disconnect.

(** The double-quote character of the message below. *)
Definition dquote : string := String (ascii_of_nat 34) EmptyString.

Definition not_a_directory (part : string) : Error :=
  new_Error ("Cannot create directory: " +:+ dquote +:+ part +:+ dquote +:+
             " exists but isn't a directory").

(** The [while (names.length)] loop of [mkdir_p]. *)
Fixpoint mkdir_p_loop (part : string) (names : list string) : M unit :=
  match names with
  | [] => mret tt
  | n :: names' =>
      let part := posix.join part n in
      try_catch
        (st ← stat part;
         if negb (isDirectory st) then throw (not_a_directory part)
         else mret tt)
        (fun err =>
           if bool_decide (code err ≠ Some SFTP_STATUS_CODE.NO_SUCH_FILE)
           then throw err
           else mkdir part) ;;
      mkdir_p_loop part names'
  end.

Definition mkdir_p (dirPath : string) : M unit :=
  if negb (posix.isAbsolute dirPath) then
    throw (new_Error "The supplied file path must be absolute.")
  else
    mkdir_p_loop "/" (tail (posix.split dirPath)).

(** The [step] option of [fastGet] / [fastPut]. *)
Definition step (reportPercentage : option (number -> M unit))
    (transferred chunk total : number) : M unit :=
  match reportPercentage with
  | Some f => f (percentage transferred total)
  | None => mret tt
  end.

(** A bulk transfer as ssh2 runs it: [step] once per chunk it reports, then
    the completion callback. *)
Definition transfer (c : Call) (remote_path : string)
    (reportPercentage : option (number -> M unit)) : M unit :=
  call c ;;
  r ← get_remote;
  for_of (transfer_steps r remote_path)
         (fun '(transferred, chunk, total) =>
            step reportPercentage transferred chunk total) ;;
  r' ← get_remote;
  match transfer_error r' remote_path with
  | Some e => throw e
  | None => mret tt
  end.

Definition get (remote_path local_path : string)
    (reportPercentage : option (number -> M unit)) : M unit :=
  with_sftp (fun _ =>
    transfer (sftp_fastGet remote_path local_path) remote_path reportPercentage).

Definition put (local_path remote_path : string) (file_mode : option string)
    (reportPercentage : option (number -> M unit)) : M unit :=
  with_sftp (fun _ =>
    transfer (sftp_fastPut local_path remote_path file_mode) remote_path
             reportPercentage).

(** [rm_rf] recurses on what the remote lists; [fuel] bounds the depth of
    the recursion, and a call that exhausts it never settles. *)
Fixpoint rm_rf (fuel : nat) (path : string) : M unit :=
  match fuel with
  | O => never
  | S fuel' =>
      st ← stat path;
      if isDirectory st then
        fs ← ls path;
        for_of fs (fun f => rm_rf fuel' (path +:+ "/" +:+ filename f)) ;;
        rmdir path
      else
        rm path
  end.

(** ** The session as a state machine *)

(** The public operations a caller (or, for [op_close] and [op_env], the
    transport and the remote side) can perform on a device. *)
Inductive Op :=
| op_connect
| op_disconnect
| op_close
| op_env (r : Remote)
| op_chmod (path : string) (new_mode : Z)
| op_exec (command : string)
| op_mkdir (path : string)
| op_mkdir_p (path : string)
| op_get (remote_path local_path : string) (observed : bool)
| op_put (local_path remote_path : string) (file_mode : option string)
    (observed : bool)
| op_ls (path : string)
| op_stat (path : string)
| op_rm (path : string)
| op_rm_rf (fuel : nat) (path : string)
| op_rmdir (path : string).

Definition observer (observed : bool) : option (number -> M unit) :=
  if observed then Some report else None.

Definition discard {A} (m : M A) : M unit := m ≫= fun _ => mret tt.

Definition run (o : Op) : M unit :=
  match o with
  | op_connect => connect
  | op_disconnect => disconnect
  | op_close => on_close
  | op_env r => fun w => Resolve tt (set_remote r w)
  | op_chmod p m => chmod p m
  | op_exec c => discard (exec c)
  | op_mkdir p => mkdir p
  | op_mkdir_p p => mkdir_p p
  | op_get r l b => get r l (observer b)
  | op_put l r m b => put l r m (observer b)
  | op_ls p => discard (ls p)
  | op_stat p => discard (stat p)
  | op_rm p => rm p
  | op_rm_rf n p => rm_rf n p
  | op_rmdir p => rmdir p
  end.

(** The world a settled promise leaves behind. *)
Definition world_of {A} (o : Outcome A) : option World :=
  match o with
  | Resolve _ w => Some w
  | Reject _ w => Some w
  | Pending => None
  end.

(** The worlds a device can be brought to, one operation after the other.
    Every operation runs to its end before the next one starts: the
    [close] event of the client is delivered between two operations, never
    while one is in flight.  A [close] event that arrives while [connect] is
    waiting, as that of an earlier [disconnect] can, is outside these
    worlds. *)
Inductive reachable : World -> Prop :=
| reach_new svc r plat pw ct :
    reachable (mkWorld (new_Device svc) r [] [] [] plat pw ct)
| reach_step w o w' :
    reachable w -> world_of (run o w) = Some w' -> reachable w'.

Definition idle (d : Device) : Prop :=
  isConnecting d = false /\ isConnected d = false.

Definition not_connected : Error := new_Error "Not connected".

(** [P] holds of the world a computation leaves, if it settles. *)
Definition after {A} (P : World -> Prop) (o : Outcome A) : Prop :=
  match o with
  | Resolve _ w => P w
  | Reject _ w => P w
  | Pending => True
  end.

(** A number that is one of the integers 0, 1, ..., 100. *)
Definition is_percent (x : number) : Prop :=
  exists k : Z, 0 <= k <= 100 /\ x = number_of_Z k.

(** The calls of a journal that change the remote tree. *)
Definition is_mutation (c : Call) : bool :=
  match c with
  | sftp_mkdir _ | sftp_unlink _ | sftp_rmdir _ => true
  | _ => false
  end.

(** ** Sample worlds *)

Definition ev3 : DnssdService :=
  mkService "ev3dev" 3 (Some "eth0") IPv6 "fe80::1" 22
    (<["ev3dev.robot.user" := "robot"]> ∅).

Definition quiet (t : Node) : Remote :=
  mkRemote t ["home"; "robot"] [] [] None None None
           (fun _ => []) (fun _ => None).

Definition fresh (plat : string) (r : Remote) : World :=
  mkWorld (new_Device ev3) r [] [] [] plat None None.

Definition empty_tree : Node := Dir [].
Definition home_tree : Node := Dir [("home", Dir [("robot", Dir [])])].

(** A device whose SFTP channel is open, on the given remote. *)
Definition online (r : Remote) : World :=
  mkWorld (mkDevice ev3 (mkClient true) (Some sftp_session)
                    (Some (stats_of (Dir []))) false true)
          r [] [] [] "linux" None None.

Definition link_local (svc : DnssdService) : Prop :=
  ipv svc = IPv6 /\ String.prefix "fe80::" (address svc) = true.

(** A remote whose handshake is turned down. *)
Definition refusing (e : Error) (t : Node) : Remote :=
  mkRemote t ["home"; "robot"] [] [] (Some e) None None
           (fun _ => []) (fun _ => None).

Definition timed_out : Error := new_Error "Timed out while waiting for handshake".

Definition must_be_absolute : Error :=
  new_Error "The supplied file path must be absolute.".

(** A remote whose transport turns [exec] requests down. *)
Definition unable_to_exec : Error := new_Error "Unable to exec".

Definition deaf : Remote :=
  mkRemote home_tree ["home"; "robot"] [] [] None None (Some unable_to_exec)
           (fun _ => []) (fun _ => None).

(** Neither NaN nor an infinity. *)
Definition regular (x : number) : bool :=
  match x with
  | S754_zero _ | S754_finite _ _ _ => true
  | S754_infinity _ | S754_nan => false
  end.

(** ** The walk of [mkdir_p], in the words of its description

    The prefixes [mkdir_p] visits: the path accumulated one name at a
    time, from the root. *)
Fixpoint accumulate (part : string) (names : list string) : list string :=
  match names with
  | [] => []
  | n :: names' =>
      let part' := posix.join part n in
      part' :: accumulate part' names'
  end.

Definition prefixes (dirPath : string) : list string :=
  accumulate "/" (tail (posix.split dirPath)).

(** The textual prefixes of [/n1/n2/.../nk]: [/n1], [/n1/n2], ... *)
Definition textual_prefixes (names : list string) : list string :=
  map (fun i => "/" +:+ posix.unsplit (take i names)) (seq 1 (length names)).

(** For each prefix in turn: stat it; a directory is passed over, anything
    else that exists ends the walk with an error naming it, a missing entry
    is created, and any other failure of the stat ends the walk with that
    failure. *)
Inductive walk : list string -> World -> Outcome unit -> Prop :=
| walk_done w :
    walk [] w (Resolve tt w)
| walk_directory p ps w st w1 o :
    stat p w = Resolve st w1 -> isDirectory st = true ->
    walk ps w1 o ->
    walk (p :: ps) w o
| walk_not_directory p ps w st w1 :
    stat p w = Resolve st w1 -> isDirectory st = false ->
    walk (p :: ps) w (Reject (not_a_directory p) w1)
| walk_create p ps w e w1 w2 o :
    stat p w = Reject e w1 ->
    code e = Some SFTP_STATUS_CODE.NO_SUCH_FILE ->
    mkdir p w1 = Resolve tt w2 ->
    walk ps w2 o ->
    walk (p :: ps) w o
| walk_create_fails p ps w e w1 e' w2 :
    stat p w = Reject e w1 ->
    code e = Some SFTP_STATUS_CODE.NO_SUCH_FILE ->
    mkdir p w1 = Reject e' w2 ->
    walk (p :: ps) w (Reject e' w2)
| walk_stat_fails p ps w e w1 :
    stat p w = Reject e w1 ->
    code e <> Some SFTP_STATUS_CODE.NO_SUCH_FILE ->
    walk (p :: ps) w (Reject e w1).

(** The calls of a journal from position [n] on. *)
Definition calls_since (w w' : World) : list Call :=
  drop (length (calls w)) (calls w').

(** A remote tree in which [/a] is a regular file. *)
Definition file_a_tree : Node := Dir [("a", File 12)].

Definition is_dir (n : Node) : bool :=
  match n with Dir _ => true | File _ => false end.

(** The remote side shows a directory at [p]. *)
Definition dir_at (r : Remote) (p : string) : Prop :=
  is_in (resolve r p) (unreadable r) = false /\
  exists n, find_node (resolve r p) (tree r) = Some n /\ is_dir n = true.

(** ** Well-formed trees and what [rm_rf] should do to them *)

(** A name an entry can carry: one non-empty segment other than [.] and
    [..]. *)
Definition plain_name (f : string) : bool :=
  bool_decide (posix.split f = [f]) &&
  negb (bool_decide (f = "")) && negb (bool_decide (f = ".")) &&
  negb (bool_decide (f = "..")).

Definition names_ok (names : list string) : bool :=
  forallb plain_name names && bool_decide (NoDup names).

Fixpoint wf_node (t : Node) : bool :=
  match t with
  | File _ => true
  | Dir es =>
      names_ok (map fst es) &&
      (fix all (es : list (string * Node)) : bool :=
         match es with
         | [] => true
         | (_, c) :: r => wf_node c && all r
         end) es
  end.

Fixpoint height (t : Node) : nat :=
  match t with
  | File _ => O
  | Dir es =>
      S ((fix tallest (es : list (string * Node)) : nat :=
            match es with
            | [] => O
            | (_, c) :: r => Nat.max (height c) (tallest r)
            end) es)
  end.

(** The calls a complete removal of the entry [t] at [p] makes: depth
    first, children in listing order, the directory itself last. *)
Fixpoint removal (p : string) (t : Node) : list Call :=
  match t with
  | File _ => [sftp_stat p; sftp_unlink p]
  | Dir es =>
      ([sftp_stat p; sftp_readdir p] ++
       (fix each (es : list (string * Node)) : list Call :=
          match es with
          | [] => []
          | (k, c) :: r => removal (p +:+ "/" +:+ k) c ++ each r
          end) es ++
       [sftp_rmdir p])%list
  end.

Definition removal_of_entries (p : string) (es : list (string * Node))
  : list Call :=
  flat_map (fun e => removal (p +:+ "/" +:+ fst e) (snd e)) es.

(** A remote with nothing locked and nothing unreadable. *)
Definition cooperative (r : Remote) : Prop :=
  locked r = [] /\ unreadable r = [].

(** The directory [/p] of the example: files [f1] and [f2] and a
    subdirectory [d] holding [f3]. *)
Definition example_tree : Node :=
  Dir [("p", Dir [("f1", File 1); ("f2", File 2); ("d", Dir [("f3", File 3)])])].

(** The same remote with [/p/f2] locked. *)
Definition f2_locked : Remote :=
  mkRemote example_tree ["home"; "robot"] [["p"; "f2"]] [] None None None
           (fun _ => []) (fun _ => None).

(** An error that comes straight from one of the requests [rm_rf] makes. *)
Inductive originates (e : Error) (w' : World) : Prop :=
| from_stat p w0 : stat p w0 = Reject e w' -> originates e w'
| from_ls p w0 : ls p w0 = Reject e w' -> originates e w'
| from_rm p w0 : rm p w0 = Reject e w' -> originates e w'
| from_rmdir p w0 : rmdir p w0 = Reject e w' -> originates e w'.

(** Every entry of the tree of [w'] was an entry of the tree of [w]. *)
Definition nothing_restored (w w' : World) : Prop :=
  forall segs,
    is_Some (find_node segs (tree (remote w'))) ->
    is_Some (find_node segs (tree (remote w))).

(** The paths a journal asks to delete, oldest first. *)
Definition deletions (l : list Call) : list string :=
  omap (fun c => match c with
                 | sftp_unlink p | sftp_rmdir p => Some p
                 | _ => None
                 end) l.

(** The tree [t] once the entries at the given paths, as the remote [r]
    reads them, are taken out one after the other. *)
Definition without (r : Remote) (paths : list string) (t : Node) : Node :=
  fold_left (fun t q => remove_at (resolve r q) t) paths t.

(** The request of [rm_rf] a call in the journal stands for. *)
Definition perform (c : Call) : M unit :=
  match c with
  | sftp_stat p => discard (stat p)
  | sftp_readdir p => discard (ls p)
  | sftp_unlink p => rm p
  | sftp_rmdir p => rmdir p
  | _ => mret tt
  end.

(** From [w] the calls [done] have led to [w1]: the tree of [w1] is the
    tree of [w] without the entries [done] asked to delete, and none of
    these entries is found in it. *)
Definition removed_upto (w : World) (done : list Call) (w1 : World) : Prop :=
  dev w1 = dev w /\
  calls w1 = (calls w ++ done)%list /\
  fired w1 = fired w /\ reported w1 = reported w /\
  remote w1 =
    set_tree (without (remote w) (deletions done) (tree (remote w))) (remote w) /\
  Forall (fun q => find_node (resolve (remote w) q) (tree (remote w1)) = None)
         (deletions done).

(** What a settled removal leaves: the calls made have taken effect, up to
    the one that failed if the removal is rejected; that one has changed
    nothing and its error is the error of the removal. *)
Definition removal_trace {A} (w : World) (o : Outcome A) : Prop :=
  match o with
  | Resolve _ w' => exists done, removed_upto w done w'
  | Reject e w' =>
      exists done c w0,
        removed_upto w done w0 /\
        perform c w0 = Reject e w' /\ w' = log_call c w0
  | Pending => True
  end.

(** A device with an open SFTP channel, on a remote whose root is a
    directory. *)
Definition ready (w : World) : Prop :=
  sftp (dev w) <> None /\ is_dir (tree (remote w)) = true.

(** The entry [t] sits at [p] on a cooperative, connected remote, somewhere
    below the root. *)
Definition removable (p : string) (t : Node) (w : World) : Prop :=
  wf_node t = true /\
  (exists s, sftp (dev w) = Some s) /\
  cooperative (remote w) /\
  p <> "" /\
  resolve (remote w) p <> [] /\
  find_node (resolve (remote w) p) (tree (remote w)) = Some t.

(** [rm_rf] resolves, the entry at [p] is gone from the tree and the
    journal has grown by the calls of [removal]. *)
Definition removes (fuel : nat) (p : string) (t : Node) (w : World) : Prop :=
  exists w',
    rm_rf fuel p w = Resolve tt w' /\
    dev w' = dev w /\
    remote w' =
      set_tree (remove_at (resolve (remote w) p) (tree (remote w))) (remote w) /\
    calls w' = (calls w ++ removal p t)%list.

Definition remove_entries (names : list string) (es : list (string * Node))
  : list (string * Node) :=
  fold_left (fun es k => remove_entry k es) names es.

Definition entry_of (e : string * Node) : FileEntry :=
  mkFileEntry (fst e) (stats_of (snd e)).

(** ** Relations between the world before and the world after *)

(** A computation respects [R] when the world it leaves, if it settles, is
    related by [R] to the world it started in. *)
Definition respects (R : World -> World -> Prop) {A} (m : M A) : Prop :=
  forall w, after (R w) (m w).

(** The file operations never touch the fields of the device. *)
Definition same_dev (w w' : World) : Prop := dev w' = dev w.

(** They only ever add to the journal of calls. *)
Definition journal_grows (w w' : World) : Prop :=
  exists more, calls w' = (calls w ++ more)%list.

(** The SFTP channel is only ever open on a connected device. *)
Definition sftp_implies_connected (d : Device) : Prop :=
  sftp d <> None -> isConnected d = true.

(** The client only holds a connection while the SFTP channel is open. *)
Definition connection_has_channel (d : Device) : Prop :=
  connected (client d) = true -> sftp d <> None.

(** Every directory the remote side showed is still shown, and the device
    is as it was. *)
Definition keeps_dirs (w w' : World) : Prop :=
  dev w' = dev w /\ forall q, dir_at (remote w) q -> dir_at (remote w') q.

(** ** Rounding to nearest even, on integers *)

(** Round to nearest, ties to even, of the quotient [a / b]. *)
Definition rne (a b : Z) : Z :=
  let q := a / b in
  let r := a mod b in
  if 2 * r <? b then q
  else if b <? 2 * r then q + 1
  else if Z.even q then q else q + 1.

(** The record holds the integer part of [a / b] and says where the rest
    lies with respect to one half. *)
Definition represents (mrs : shr_record) (a b : Z) : Prop :=
  shr_m mrs = a / b /\
  shr_r mrs = (b <=? 2 * (a mod b)) /\
  shr_s mrs = negb (a mod b =? 0) && negb (2 * (a mod b) =? b).

(** A mantissa that reached [2^53] is halved and its exponent bumped. *)
Definition renorm (me : Z * Z) : Z * Z :=
  if fst me =? 2 ^ 53 then (2 ^ 52, snd me + 1) else me.

(** A positive float in normal form: a 53-bit mantissa. *)
Definition normal (me : Z * Z) : Prop := 2 ^ 52 <= fst me < 2 ^ 53.

(** The order of normal floats: by exponent, then by mantissa. *)
Definition fle (x y : Z * Z) : Prop :=
  snd x < snd y \/ (snd x = snd y /\ fst x <= fst y).

Definition float_of (me : Z * Z) : number :=
  S754_finite false (Z.to_pos (fst me)) (snd me).

(** The normal form of the binary64 value of an integer [1 <= t]: [t]
    itself when it has at most 53 bits, and [t] rounded to 53 bits
    otherwise. *)
Definition normal_form (t : Z) : Z * Z :=
  let d := Zdigits2 t in
  if d <=? 53 then (t * 2 ^ (53 - d), d - 53)
  else renorm (rne t (2 ^ (d - 53)), d - 53).

(** The quotient of two normal floats. *)
Definition div_spec (x y : Z * Z) : Z * Z :=
  let p := if fst y <=? fst x then 1 else 0 in
  renorm (rne (fst x * 2 ^ 53) (fst y * 2 ^ p), snd x - snd y - 53 + p).

(** The mantissa of 100: [100 = m100 * 2^-46]. *)
Definition m100 : Z := 100 * 2 ^ 46.

(** The product of a normal float and 100. *)
Definition mul100_spec (x : Z * Z) : Z * Z :=
  let M := fst x * m100 in
  let p := if M <? 2 ^ 105 then 52 else 53 in
  renorm (rne M (2 ^ p), snd x - 46 + p).

(** [Math.round] of a positive float below [2^52]. *)
Definition round_spec (x : Z * Z) : Z :=
  (2 * fst x + 2 ^ (- snd x)) / 2 ^ (1 - snd x).

(** The percentage reported for [t] bytes out of [N], as an integer. *)
Definition percent_of (t N : Z) : Z :=
  if t =? 0 then 0
  else round_spec (mul100_spec (div_spec (normal_form t) (normal_form N))).

(** The steps a remote reports for the pairs (bytes transferred so far, bytes
    of the chunk) of [progress], out of [N] bytes. *)
Definition steps_of (N : Z) (progress : list (Z * Z))
  : list (number * number * number) :=
  map (fun tc => (number_of_Z (fst tc), number_of_Z (snd tc), number_of_Z N))
      progress.

(** A remote that reports the given byte counts, out of [N], for every
    transfer. *)
Definition reporting (N : Z) (progress : list (Z * Z)) : Remote :=
  mkRemote home_tree ["home"; "robot"] [] [] None None None
           (fun _ => steps_of N progress) (fun _ => None).

(** The operations that go to the remote side over an established session:
    everything but connecting, disconnecting and what the environment does. *)
Definition file_operation (o : Op) : bool :=
  match o with
  | op_connect | op_disconnect | op_close | op_env _ => false
  | _ => true
  end.

(** The device and the events fired are as they were; the journal of calls
    has only grown. *)
Definition session_untouched (w w' : World) : Prop :=
  dev w' = dev w /\ fired w' = fired w /\ journal_grows w w'.

(** A device that reports to be connected has its channel and the
    attributes of its home directory. *)
Definition connected_has_channel (d : Device) : Prop :=
  isConnected d = true -> sftp d <> None /\ is_Some (_homeDirectoryAttr d).

(** The paths [mkdir_p] goes through for the segments [names] of its
    argument: the root followed by the first [k] segments, with empty and
    [.] segments dropped and every [..] cancelling the segment before it. *)
Definition walked (names : list string) : list string :=
  map (fun k => "/" +:+ posix.unsplit
                          (posix.normalizeString false [] (take k names)))
      (seq 1 (length names)).

(** A path written as the root followed by plain names separated by single
    slashes. *)
Definition clean_path (q : string) : Prop :=
  exists names,
    Forall (fun f => plain_name f = true) names /\
    q = "/" +:+ posix.unsplit names.

(** The requests [mkdir_p] is made of, and those [rm_rf] is made of. *)
Definition creation_call (c : Call) : bool :=
  match c with
  | sftp_stat _ | sftp_mkdir _ => true
  | _ => false
  end.

Definition removal_call (c : Call) : bool :=
  match c with
  | sftp_stat _ | sftp_readdir _ | sftp_unlink _ | sftp_rmdir _ => true
  | _ => false
  end.

(** The journal has grown by calls of the kind [P] only, and nothing was
    fired or reported. *)
Definition journal_of (P : Call -> bool) (w w' : World) : Prop :=
  fired w' = fired w /\ reported w' = reported w /\
  exists more, calls w' = (calls w ++ more)%list /\ forallb P more = true.

(** The journal has grown by at most [n] calls. *)
Definition grows_by (n : nat) (w w' : World) : Prop :=
  exists more, calls w' = (calls w ++ more)%list /\ (length more <= n)%nat.

(** A remote on which the entries at [l] can be neither created nor
    removed. *)
Definition guarded (l : list (list string)) (t : Node) : Remote :=
  mkRemote t ["home"; "robot"] l [] None None None
           (fun _ => []) (fun _ => None).

(** The percentages a transfer of [remote_path] hands to its callback, if
    it is given one. *)
Definition percentages_of (r : Remote) (remote_path : string) (observed : bool)
  : list number :=
  if observed then
    map (fun '(transferred, _, total) => percentage transferred total)
        (transfer_steps r remote_path)
  else [].

(** A remote whose transfers report the given byte counts, out of [N], and
    then fail with [e]. *)
Definition interrupted (N : Z) (progress : list (Z * Z)) (e : Error) : Remote :=
  mkRemote home_tree ["home"; "robot"] [] [] None None None
           (fun _ => steps_of N progress) (fun _ => Some e).

(** ** The order of the calls

    Reading the journal of calls: the state says whether an SFTP channel has
    been asked for, with [client.sftp], and not been ended since.  A request
    on the channel, or its end, is only in order in that state. *)
Definition sftp_request (c : Call) : bool :=
  match c with
  | sftp_chmod _ _ | sftp_mkdir _ | sftp_fastGet _ _ | sftp_fastPut _ _ _
  | sftp_readdir _ | sftp_stat _ | sftp_unlink _ | sftp_rmdir _ => true
  | _ => false
  end.

Definition channel_step (asked : bool) (c : Call) : option bool :=
  match c with
  | client_sftp => Some true
  | sftp_end => if asked then Some false else None
  | client_connect _ | client_exec _ | client_end => Some asked
  | _ => if asked then Some true else None
  end.

Fixpoint channel_run (asked : bool) (l : list Call) : option bool :=
  match l with
  | [] => Some asked
  | c :: l' =>
      match channel_step asked c with
      | Some asked' => channel_run asked' l'
      | None => None
      end
  end.

Definition has_channel (d : Device) : bool :=
  match sftp d with Some _ => true | None => false end.

(** A call a file operation may make: [client.exec], or a request on the
    channel if there is one. *)
Definition channel_call (open : bool) (c : Call) : Prop :=
  (exists cmd, c = client_exec cmd) \/ (open = true /\ sftp_request c = true).

Definition on_channel (w w' : World) : Prop :=
  dev w' = dev w /\
  exists more,
    calls w' = (calls w ++ more)%list /\
    Forall (channel_call (has_channel (dev w))) more.

(** The journal is in order, and its state agrees with the device. *)
Definition calls_in_order (w : World) : Prop :=
  exists asked,
    channel_run false (calls w) = Some asked /\
    (has_channel (dev w) = true -> asked = true).

(** ** The percentage an exact computation would report *)

(** [100 * t / N] rounded to the nearest integer, halves upwards. *)
Definition rounded_percent (t N : Z) : Z := (200 * t + N) / (2 * N).

(** The exact percentage lies halfway between two integers. *)
Definition halfway (t N : Z) : Prop := (200 * t + N) mod (2 * N) = 0.

(** Values are compared after scaling by [2^scale], which makes them
    integers: [scaled (m, e)] is [m * 2^e * 2^scale]. *)
Definition scale : Z := 200.

Definition scaled (me : Z * Z) : Z := fst me * 2 ^ (scale + snd me).

(** ** Regular expressions

    The fragment the class uses: [\d], a literal character, bounded
    repetition [r{lo,hi}] and concatenation.  [matches r s k] is the
    backtracking matcher: [r] is matched against a prefix of [s], longest
    repetitions first, and [k] decides on what is left. *)
Inductive RegExp :=
| digit
| char (c : ascii)
| times (lo hi : nat) (r : RegExp)
| cat (r1 r2 : RegExp).

Definition is_digit (c : ascii) : bool :=
  (48 <=? nat_of_ascii c)%nat && (nat_of_ascii c <=? 57)%nat.

(** [r{lo,hi}], given the matcher [m] of [r]: up to [budget] more
    repetitions after the [count] already matched, as many as possible
    first. *)
Fixpoint times_loop (m : string -> (string -> bool) -> bool) (lo : nat)
    (k : string -> bool) (budget count : nat) (s : string) : bool :=
  match budget with
  | O => false
  | S budget' => m s (fun s' => times_loop m lo k budget' (S count) s')
  end || ((lo <=? count)%nat && k s).

Fixpoint matches (r : RegExp) (s : string) (k : string -> bool) : bool :=
  match r with
  | digit =>
      match s with
      | String c s' => is_digit c && k s'
      | EmptyString => false
      end
  | char a =>
      match s with
      | String c s' => Ascii.eqb c a && k s'
      | EmptyString => false
      end
  | cat r1 r2 => matches r1 s (fun s' => matches r2 s' k)
  | times lo hi r1 => times_loop (matches r1) lo k hi O s
  end.

(** [/^r$/.test(v)] *)
Definition test_anchored (r : RegExp) (v : string) : bool :=
  matches r v (fun rest => bool_decide (rest = "")).

(** The strings a regular expression stands for. *)
Fixpoint power (L : string -> Prop) (n : nat) (s : string) : Prop :=
  match n with
  | O => s = ""
  | S n' => exists s1 s2, s = s1 +:+ s2 /\ L s1 /\ power L n' s2
  end.

Fixpoint lang (r : RegExp) (s : string) : Prop :=
  match r with
  | digit => exists c, s = String c "" /\ is_digit c = true
  | char a => s = String a ""
  | cat r1 r2 => exists s1 s2, s = s1 +:+ s2 /\ lang r1 s1 /\ lang r2 s2
  | times lo hi r1 => exists n, (lo <= n <= hi)%nat /\ power (lang r1) n s
  end.

(** One to three decimal digits. *)
Definition digits_1_3 (s : string) : bool :=
  (1 <=? String.length s)%nat && (String.length s <=? 3)%nat &&
  forallb is_digit (list_ascii_of_string s).

(** ** Picking a device by address *)

(** [\d{1,3}\.\d{1,3}\.\d{1,3}\.\d{1,3}] *)
Definition ip_pattern : RegExp :=
  cat (times 1 3 digit) (cat (char ".")
  (cat (times 1 3 digit) (cat (char ".")
  (cat (times 1 3 digit) (cat (char ".")
  (times 1 3 digit)))))).

(** The [validateInput] option of the input box of [pickDevice]: the
    message to show, or nothing when the input is accepted. *)
Definition validateInput (v : string) : option string :=
  if negb (test_anchored ip_pattern v) then Some "Not a valid IP address"
  else None.

(** ** Devices given by hand *)

(** JavaScript's [a || b] on a string that may be undefined: [b] when [a]
    is undefined or empty. *)
Definition or_else (a : option string) (b : string) : string :=
  match a with
  | Some s => if bool_decide (s = "") then b else s
  | None => b
  end.

(** [AdditionalDevice]: an entry of the [additionalDevices] setting.  The
    user name and the home directory may be left out; [pickDevice] leaves
    them out. *)
Module AdditionalDevice.
Record t := mk {
  name : string;
  ipAddress : string;
  username : option string;
  homeDirectory : option string
}.
End AdditionalDevice.

(** The object literal carries no [iface] and no [ifaceName]; [iface] is
    given the value 0 here, and [with_interface] below overrides both. *)
Definition additionalDeviceToDnssdService (device : AdditionalDevice.t)
  : DnssdService :=
  let txt : gmap string string := ∅ in
  let txt :=
    <["ev3dev.robot.user" :=
        or_else (AdditionalDevice.username device) "robot"]> txt in
  let txt :=
    <["ev3dev.robot.home" :=
        or_else (AdditionalDevice.homeDirectory device)
                ("/home/" +:+ render (txt !! "ev3dev.robot.user"))]> txt in
  mkService (AdditionalDevice.name device) 0 None IPv4
            (AdditionalDevice.ipAddress device) 22 txt.

Definition getLocalDnssdService : DnssdService :=
  let txt : gmap string string := ∅ in
  let txt := <["ev3dev.robot.user" := "robot"]> txt in
  let txt := <["ev3dev.robot.home" := "/home/robot"]> txt in
  mkService "ev3dev device (USB)" 0 None IPv6 "ev3dev.local" 22 txt.

(** The same service, read by someone who finds the given interface index
    and name on it. *)
Definition with_interface (i : Z) (n : option string) (svc : DnssdService)
  : DnssdService :=
  mkService (name svc) i n (ipv svc) (address svc) (port svc) (txt svc).

(** [ServiceItem]: a quick-pick entry. *)
Module ServiceItem.
Record t := mk {
  label : string;
  description : option string;
  service : DnssdService
}.
End ServiceItem.

(** [new ServiceItem(service)] *)
Definition new_ServiceItem (service : DnssdService) : ServiceItem.t :=
  ServiceItem.mk (name service) (ifaceName service) service.

(** [getServicesFromConfig], given the value of the [additionalDevices]
    setting.  The items are object literals: they get no description. *)
Definition getServicesFromConfig
    (additionalDevices : option (list AdditionalDevice.t))
  : list ServiceItem.t :=
  let devices := default [] additionalDevices in
  fold_left
    (fun services device =>
       (services ++
        [ServiceItem.mk (AdditionalDevice.name device) None
                        (additionalDeviceToDnssdService device)])%list)
    devices [].

(** ** Input boxes

    What [vscode.window.showInputBox] is given.  The user is a script of
    the submissions to come, one per box shown ([None] for a box that is
    dismissed); a box shown after the script has run out is dismissed. *)
Module InputBoxOptions.
Record t := mk {
  ignoreFocusOut : bool;
  password : option bool;
  prompt : string;
  placeHolder : option string;
  validateInput : option (string -> option string)
}.
End InputBoxOptions.

Record Window := mkWindow {
  pending : list (option string);
  shown : list InputBoxOptions.t
}.

Definition UI (A : Type) : Type := Window -> A * Window.

Definition showInputBox (options : InputBoxOptions.t) : UI (option string) :=
  fun ui =>
    match pending ui with
    | choice :: rest => (choice, mkWindow rest (shown ui ++ [options])%list)
    | [] => (None, mkWindow [] (shown ui ++ [options])%list)
    end.

(** The box [pickDevice] shows. *)
Definition address_box : InputBoxOptions.t :=
  InputBoxOptions.mk true None "Enter the IP address of the device"
    (Some ("Example: " +:+ dquote +:+ "192.168.137.3" +:+ dquote))
    (Some validateInput).

Definition pickDevice : UI (option Device) := fun ui =>
  let '(ipAddress, ui') := showInputBox address_box ui in
  match ipAddress with
  | None => (None, ui')
  | Some ipAddress =>
      if bool_decide (ipAddress = "") then (None, ui')
      else
        let device :=
          AdditionalDevice.mk ("ev3dev device (" +:+ ipAddress +:+ ")")
                              ipAddress None None in
        (Some (new_Device (additionalDeviceToDnssdService device)), ui')
  end.

(** ** Keyboard-interactive authentication *)

(** [ssh2.Prompt] *)
Module Prompt.
Record t := mk { prompt : string; echo : bool }.
End Prompt.

(** The box shown for one prompt. *)
Definition prompt_box (p : Prompt.t) : InputBoxOptions.t :=
  InputBoxOptions.mk true (Some (negb (Prompt.echo p))) (Prompt.prompt p)
                     None None.

(** The [for] loop of the handler of the client's [keyboard-interactive]
    event, from the answers collected so far. *)
Fixpoint collect_answers (prompts : list Prompt.t) (answers : list string)
  : UI (list string) :=
  fun ui =>
    match prompts with
    | [] => (answers, ui)
    | p :: prompts' =>
        let '(choice, ui') := showInputBox (prompt_box p) ui in
        collect_answers prompts' (answers ++ [or_else choice ""])%list ui'
    end.

(** The handler; its result is what it calls [finish] with. *)
Definition on_keyboard_interactive (prompts : list Prompt.t)
  : UI (list string) :=
  collect_answers prompts [].

(** The submission the user makes in the [k]-th box to come. *)
Definition submission (ui : Window) (k : nat) : option string :=
  default None (pending ui !! k).

(** * Properties *)

Ltac unfold_m :=
  unfold Client_connect, Client_sftp, Client_exec, Client_end in *;
  unfold mbind, M_bind, mret, M_ret, throw, try_catch, modify_dev, get_dev,
    get_remote, fire, call, report, never, discard in *.

Example split_abc : posix.split "/a/b/c" = [""; "a"; "b"; "c"].
Proof. reflexivity. Qed.

Example join_root : posix.join "/" "a" = "/a".
Proof. reflexivity. Qed.

Example join_dotdot : posix.join "/a/b" ".." = "/a".
Proof. reflexivity. Qed.

Example join_empty : posix.join "/a" "" = "/a".
Proof. reflexivity. Qed.

Example string_of_Z_12 : string_of_Z 12 = "12".
Proof. reflexivity. Qed.

Example percentage_29_of_200 :
  percentage (number_of_Z 29) (number_of_Z 200) = number_of_Z 14.
Proof. reflexivity. Qed.

(** ** The guard of the SFTP-backed methods *)

Lemma with_sftp_none {A} (k : SFTPWrapper -> M A) w :
  sftp (dev w) = None -> with_sftp k w = Reject not_connected w.
Proof. intros H. unfold with_sftp. unfold_m. by rewrite H. Qed.

Lemma with_sftp_some {A} (k : SFTPWrapper -> M A) w s :
  sftp (dev w) = Some s -> with_sftp k w = k s w.
Proof. intros H. unfold with_sftp. unfold_m. by rewrite H. Qed.

(** ** Connecting *)

Lemma connect_address_link_local plat svc :
  link_local svc ->
  connect_address plat svc =
    address svc +:+ "%" +:+
      (if bool_decide (plat = "win32") then string_of_Z (iface svc)
       else render (ifaceName svc)).
Proof.
  intros [Hv Hp]. unfold connect_address.
  rewrite Hp. case_bool_decide; [simpl|done].
  by destruct (bool_decide (plat = "win32")).
Qed.

Lemma connect_address_other plat svc :
  ~ link_local svc -> connect_address plat svc = address svc.
Proof.
  intros Hn. unfold connect_address.
  destruct (bool_decide (ipv svc = IPv6)) eqn:Hv; [|done].
  destruct (String.prefix "fe80::" (address svc)) eqn:Hp; [|done].
  exfalso. apply Hn. split; [|done].
  by apply bool_decide_eq_true in Hv.
Qed.

(** What [connect] journals first is the [client.connect] call, whatever
    happens next. *)
Lemma connect_first_call w :
  exists w' rest,
    world_of (connect w) = Some w' /\
    calls w' =
      (calls w ++
       client_connect
         (mkConnectConfig (connect_address (platform w) (service (dev w)))
            (username (dev w)) (password w) true 5 1000
            (default 30 (connectTimeout w) * 1000)) :: rest)%list.
Proof.
  unfold connect, connectClient, getSftp, disconnect, stat, with_sftp, request.
  unfold_m. simpl.
  destruct (handshake (remote w)) as [e|]; simpl.
  { eexists _, []. split; [reflexivity|]. reflexivity. }
  destruct (subsystem (remote w)) as [e|]; simpl.
  { destruct (sftp (dev w)); simpl; eexists _, _; (split; [reflexivity|]);
      simpl; rewrite <- ?app_assoc; reflexivity. }
  destruct (server_stat _ _) as [[a|e] r']; simpl;
    eexists _, _; (split; [reflexivity|]);
    simpl; rewrite <- ?app_assoc; reflexivity.
Qed.

(** The digits [decimal_digits] puts in front of [acc] read back as [n]. *)
Lemma digit_of_digit_char d :
  0 <= d <= 9 -> digit_of (digit_char d) = Some d.
Proof.
  intros Hd. unfold digit_of, digit_char.
  rewrite nat_ascii_embedding by lia.
  replace (Z.of_nat (48 + Z.to_nat d)) with (48 + d) by lia.
  rewrite !(proj2 (Z.leb_le _ _)) by lia. simpl. f_equal. lia.
Qed.

Lemma numeral_decimal_digits fuel : forall n acc,
  0 <= n < Z.of_nat fuel ->
  numeral_digits (decimal_digits fuel n acc) 0 = numeral_digits acc n.
Proof.
  induction fuel as [|fuel IH]; intros n acc Hn; [lia|].
  pose proof (Z.div_mod n 10 ltac:(lia)) as Hdm.
  pose proof (Z.mod_pos_bound n 10 ltac:(lia)) as Hm.
  cbn [decimal_digits]. destruct (Z.eqb_spec (n / 10) 0) as [H0|H0].
  - cbn [numeral_digits]. rewrite digit_of_digit_char by lia.
    f_equal. lia.
  - assert (0 < n / 10) by (pose proof (Z.div_pos n 10); lia).
    rewrite IH by lia. cbn [numeral_digits].
    rewrite digit_of_digit_char by lia. f_equal. lia.
Qed.

Lemma decimal_digits_head fuel : forall n acc,
  0 < n < Z.of_nat fuel ->
  exists c r, decimal_digits fuel n acc = String c r /\ Ascii.eqb c "0" = false.
Proof.
  induction fuel as [|fuel IH]; intros n acc Hn; [lia|].
  pose proof (Z.div_mod n 10 ltac:(lia)) as Hdm.
  pose proof (Z.mod_pos_bound n 10 ltac:(lia)) as Hm.
  cbn [decimal_digits]. destruct (Z.eqb_spec (n / 10) 0) as [H0|H0].
  - eexists _, _. split; [reflexivity|].
    assert (Hd : n mod 10 = n) by lia. rewrite Hd.
    assert (n = 1 \/ n = 2 \/ n = 3 \/ n = 4 \/ n = 5 \/ n = 6 \/ n = 7 \/
            n = 8 \/ n = 9) as Hc by lia.
    repeat destruct Hc as [->|Hc]; try reflexivity. by subst.
  - assert (0 < n / 10) by (pose proof (Z.div_pos n 10); lia).
    apply IH. lia.
Qed.

(** The index printed by [string_of_Z] is the decimal numeral of the
    index. *)
Lemma numeral_string_of_Z n : 0 <= n -> numeral (string_of_Z n) = Some n.
Proof.
  intros Hn. unfold string_of_Z. rewrite (proj2 (Z.ltb_ge _ _)) by done.
  destruct (Z.eq_dec n 0) as [->|Hne]; [reflexivity|].
  destruct (decimal_digits_head (S (Z.to_nat n)) n "") as (c & r & Hs & Hc);
    [lia|].
  unfold numeral. rewrite Hs, Hc. cbn [andb]. rewrite <- Hs.
  rewrite numeral_decimal_digits by lia. reflexivity.
Qed.

(** C9. Every connection attempt hands [client.connect] a host that is the
    service address followed, for an IPv6 address starting with [fe80::], by
    a percent sign and a scope: on win32 the decimal numeral of the
    interface index (a safe non-negative integer), elsewhere the interface
    name, or the word [undefined] when the service carries none.  For any
    other endpoint the host is the address itself. *)
Theorem connect_target_scope (w : World) :
  exists cfg w' rest,
    world_of (connect w) = Some w' /\
    calls w' = (calls w ++ client_connect cfg :: rest)%list /\
    (link_local (service (dev w)) -> platform w = "win32" ->
     0 <= iface (service (dev w)) < 2 ^ 53 ->
     exists index,
       host cfg = address (service (dev w)) +:+ "%" +:+ index /\
       numeral index = Some (iface (service (dev w)))) /\
    (link_local (service (dev w)) -> platform w <> "win32" ->
       host cfg = address (service (dev w)) +:+ "%" +:+
                  match ifaceName (service (dev w)) with
                  | Some n => n
                  | None => "undefined"
                  end) /\
    (~ link_local (service (dev w)) ->
       host cfg = address (service (dev w))).
Proof.
  destruct (connect_first_call w) as (w' & rest & Hw & Hc).
  eexists _, w', rest. split; [exact Hw|]. split; [exact Hc|]. simpl.
  split; [|split].
  - intros Hl Hp Hi. rewrite connect_address_link_local by done.
    rewrite bool_decide_eq_true_2 by done.
    eexists. split; [reflexivity|]. apply numeral_string_of_Z. lia.
  - intros Hl Hp. rewrite connect_address_link_local by done.
    rewrite bool_decide_eq_false_2 by done.
    by destruct (ifaceName (service (dev w))).
  - intros Hl. by apply connect_address_other.
Qed.

Example connect_fe80_linux :
  exists w', world_of (connect (fresh "linux" (quiet home_tree))) = Some w' /\
    exists cfg, head (calls w') = Some (client_connect cfg) /\
                host cfg = "fe80::1%eth0".
Proof.
  eexists. split; [vm_compute; reflexivity|].
  eexists. split; reflexivity.
Qed.

Example connect_fe80_win32 :
  exists w', world_of (connect (fresh "win32" (quiet home_tree))) = Some w' /\
    exists cfg, head (calls w') = Some (client_connect cfg) /\
                host cfg = "fe80::1%3".
Proof.
  eexists. split; [vm_compute; reflexivity|].
  eexists. split; reflexivity.
Qed.

Example numeral_examples :
  numeral "3" = Some 3 /\ numeral "0" = Some 0 /\ numeral "120" = Some 120 /\
  numeral "" = None /\ numeral "03" = None /\ numeral "3a" = None /\
  numeral "-3" = None.
Proof. repeat split; reflexivity. Qed.


(** A failed handshake is met before the [try] block is entered. *)
Lemma connect_handshake_rejected (w : World) (e : Error) :
  handshake (remote w) = Some e ->
  exists w' cfg,
    connect w = Reject e w' /\
    dev w' = set_client (mkClient false) (set_isConnecting true (dev w)) /\
    fired w' = (fired w ++ [WillConnect])%list /\
    calls w' = (calls w ++ [client_connect cfg])%list.
Proof.
  intros He. unfold connect, connectClient. unfold_m. simpl. rewrite He.
  eexists _, _. repeat split; reflexivity.
Qed.

(** C1. When the handshake itself fails, [connect] rejects with that error
    but performs no cleanup: the device still reports that it is connecting,
    no [client.end] is issued and no disconnected event is fired. *)
Theorem connect_handshake_failure (w : World) (e : Error) :
  handshake (remote w) = Some e ->
  exists w' cfg,
    connect w = Reject e w' /\
    isConnecting (dev w') = true /\
    isConnected (dev w') = isConnected (dev w) /\
    sftp (dev w') = sftp (dev w) /\
    fired w' = (fired w ++ [WillConnect])%list /\
    calls w' = (calls w ++ [client_connect cfg])%list.
Proof.
  intros He.
  destruct (connect_handshake_rejected w e He) as (w' & cfg & Hc & Hd & Hf & Hj).
  exists w', cfg. rewrite Hd. repeat split; done.
Qed.

Lemma connect_handshake_failure_witness :
  handshake (remote (fresh "linux" (refusing timed_out home_tree)))
    = Some timed_out /\
  exists w' cfg,
    connect (fresh "linux" (refusing timed_out home_tree))
      = Reject timed_out w' /\
    isConnecting (dev w') = true /\
    isConnected (dev w') = false /\
    sftp (dev w') = None /\
    fired w' = [WillConnect] /\
    calls w' = [client_connect cfg].
Proof.
  split; [reflexivity|].
  apply (connect_handshake_failure
           (fresh "linux" (refusing timed_out home_tree)) timed_out).
  reflexivity.
Defined.

(** Should the client close its socket after the failed handshake, the
    close handler runs [disconnect], which does not touch the connecting
    flag: the device still reports that it is connecting. *)
Lemma handshake_failure_then_close :
  exists w1 w2,
    connect (fresh "linux" (refusing timed_out home_tree))
      = Reject timed_out w1 /\
    on_close w1 = Resolve tt w2 /\
    isConnecting (dev w2) = true /\
    fired w2 = [WillConnect; DidDisconnect].
Proof. eexists _, _. repeat split; vm_compute; reflexivity. Qed.

(** The two later steps are inside the [try] block: a failure there runs
    [disconnect] and leaves the device idle, with one disconnected event. *)
Lemma connect_sftp_failure (w : World) (e : Error) :
  handshake (remote w) = None ->
  subsystem (remote w) = Some e ->
  exists w',
    connect w = Reject e w' /\
    idle (dev w') /\ sftp (dev w') = None /\
    fired w' = (fired w ++ [WillConnect; DidDisconnect])%list.
Proof.
  intros Hh Hs. unfold connect, connectClient, getSftp, disconnect.
  unfold_m. simpl. rewrite Hh. simpl. rewrite Hs. simpl.
  destruct (sftp (dev w)) eqn:Hsf; simpl;
    (eexists; split; [reflexivity|]); simpl;
    rewrite <- ?app_assoc, ?Hsf; repeat split; reflexivity.
Qed.

Lemma connect_stat_failure (w : World) (e : Error) (r' : Remote) :
  handshake (remote w) = None ->
  subsystem (remote w) = None ->
  server_stat (homeDirectoryPath (dev w)) (remote w) = (Failure e, r') ->
  exists w',
    connect w = Reject e w' /\
    idle (dev w') /\ sftp (dev w') = None /\
    fired w' = (fired w ++ [WillConnect; DidDisconnect])%list.
Proof.
  intros Hh Hs Hst.
  unfold connect, connectClient, getSftp, disconnect, stat, with_sftp, request.
  unfold_m. simpl. rewrite Hh. simpl. rewrite Hs. simpl.
  unfold homeDirectoryPath, username in *. simpl. rewrite Hst. simpl.
  eexists. split; [reflexivity|]. simpl.
  rewrite <- ?app_assoc. repeat split; reflexivity.
Qed.

Lemma connect_success (w : World) (a : Stats) (r' : Remote) :
  handshake (remote w) = None ->
  subsystem (remote w) = None ->
  server_stat (homeDirectoryPath (dev w)) (remote w) = (Success a, r') ->
  exists w',
    connect w = Resolve tt w' /\
    isConnecting (dev w') = false /\ isConnected (dev w') = true /\
    sftp (dev w') = Some sftp_session /\
    _homeDirectoryAttr (dev w') = Some a /\
    fired w' = (fired w ++ [WillConnect; DidConnect])%list.
Proof.
  intros Hh Hs Hst.
  unfold connect, connectClient, getSftp, disconnect, stat, with_sftp, request.
  unfold_m. simpl. rewrite Hh. simpl. rewrite Hs. simpl.
  unfold homeDirectoryPath, username in *. simpl. rewrite Hst. simpl.
  eexists. split; [reflexivity|]. simpl.
  rewrite <- ?app_assoc. repeat split; reflexivity.
Qed.

(** ** Disconnecting *)

Lemma disconnect_resolves (w : World) :
  exists w',
    disconnect w = Resolve tt w' /\
    isConnected (dev w') = false /\
    isConnecting (dev w') = isConnecting (dev w) /\
    sftp (dev w') = None /\
    _homeDirectoryAttr (dev w') = _homeDirectoryAttr (dev w) /\
    service (dev w') = service (dev w) /\
    remote w' = remote w /\
    fired w' = (fired w ++ [DidDisconnect])%list.
Proof.
  unfold disconnect. unfold_m. simpl.
  destruct (sftp (dev w)) eqn:Hs; simpl;
    (eexists; split; [reflexivity|]); simpl; rewrite ?Hs; repeat split; done.
Qed.

(** C2. [disconnect] leaves the cached home-directory attributes in
    place: once a snapshot has been taken, the [homeDirectoryAttr] accessor
    of the disconnected device still returns it instead of failing. *)
Theorem disconnect_keeps_homeDirectoryAttr (w : World) (a : Stats) :
  _homeDirectoryAttr (dev w) = Some a ->
  exists w',
    disconnect w = Resolve tt w' /\
    isConnected (dev w') = false /\
    sftp (dev w') = None /\
    homeDirectoryAttr w' = Resolve a w'.
Proof.
  intros Ha.
  destruct (disconnect_resolves w) as (w' & Hd & Hc & _ & Hs & Hh & _).
  exists w'. repeat split; try done.
  unfold homeDirectoryAttr. unfold_m. by rewrite Hh, Ha.
Qed.

Lemma disconnect_keeps_homeDirectoryAttr_witness :
  _homeDirectoryAttr (dev (online (quiet home_tree)))
    = Some (stats_of (Dir [])) /\
  exists w',
    disconnect (online (quiet home_tree)) = Resolve tt w' /\
    isConnected (dev w') = false /\
    sftp (dev w') = None /\
    homeDirectoryAttr w' = Resolve (stats_of (Dir [])) w'.
Proof.
  split; [reflexivity|].
  apply (disconnect_keeps_homeDirectoryAttr (online (quiet home_tree))
           (stats_of (Dir []))).
  reflexivity.
Defined.

(** From a new device: connect, disconnect, then read the accessor. *)
Example stale_homeDirectoryAttr :
  exists w1 w2 a,
    connect (fresh "linux" (quiet home_tree)) = Resolve tt w1 /\
    disconnect w1 = Resolve tt w2 /\
    idle (dev w2) /\
    homeDirectoryAttr w2 = Resolve a w2.
Proof.
  eexists _, _, _. split; [vm_compute; reflexivity|].
  split; [vm_compute; reflexivity|]. split; [split; reflexivity|].
  vm_compute; reflexivity.
Qed.

(** ** What the file operations leave untouched

    A reflexive and transitive relation between the world before and the
    world after that the requests respect is respected by the recursive
    operations built from them; one that is respected by journalling a call,
    by a report and by any change of the remote side is respected by every
    file operation. *)

Section Respects.
Variable R : World -> World -> Prop.
Hypothesis R_refl : forall w, R w w.
Hypothesis R_trans : forall w1 w2 w3, R w1 w2 -> R w2 w3 -> R w1 w3.

Lemma respects_ret {A} (a : A) : respects R (mret a).
Proof. intros w. apply R_refl. Qed.

Lemma respects_throw {A} (e : Error) : respects R (@throw A e).
Proof. intros w. apply R_refl. Qed.

Lemma respects_bind {A B} (m : M A) (k : A -> M B) :
  respects R m -> (forall a, respects R (k a)) -> respects R (m ≫= k).
Proof.
  intros Hm Hk w. unfold_m. specialize (Hm w).
  destruct (m w) as [a w1|e w1|]; simpl in *; [|done|done].
  specialize (Hk a w1). destruct (k a w1); simpl in *; eauto.
Qed.

Lemma respects_try_catch {A} (m : M A) (h : Error -> M A) :
  respects R m -> (forall e, respects R (h e)) -> respects R (try_catch m h).
Proof.
  intros Hm Hh w. unfold_m. specialize (Hm w).
  destruct (m w) as [a w1|e w1|]; simpl in *; [done| |done].
  specialize (Hh e w1). destruct (h e w1); simpl in *; eauto.
Qed.

Lemma respects_get_dev : respects R get_dev.
Proof. intros w. apply R_refl. Qed.

Lemma respects_get_remote : respects R get_remote.
Proof. intros w. apply R_refl. Qed.

Lemma respects_with_sftp {A} (k : SFTPWrapper -> M A) :
  (forall s, respects R (k s)) -> respects R (with_sftp k).
Proof.
  intros Hk. unfold with_sftp. apply respects_bind; [apply respects_get_dev|].
  intros d. destruct (sftp d); [apply Hk|apply respects_throw].
Qed.

Lemma respects_for_of {A} (l : list A) (body : A -> M unit) :
  (forall x, respects R (body x)) -> respects R (for_of l body).
Proof.
  intros Hb. induction l as [|x l IH]; simpl; [apply respects_ret|].
  apply respects_bind; [apply Hb|by intros _].
Qed.

(** The recursive operations, from the requests they are made of. *)
Lemma mkdir_p_loop_respects names :
  (forall p, respects R (stat p)) -> (forall p, respects R (mkdir p)) ->
  forall part, respects R (mkdir_p_loop part names).
Proof.
  intros R_stat R_mkdir.
  induction names as [|n names IH]; intros part; simpl; [apply respects_ret|].
  apply respects_bind; [|intros _; apply IH].
  apply respects_try_catch.
  - apply respects_bind; [apply R_stat|]. intros st.
    destruct (negb (isDirectory st)); [apply respects_throw|apply respects_ret].
  - intros e. case_bool_decide; [apply respects_throw|apply R_mkdir].
Qed.

Lemma mkdir_p_respects p :
  (forall p, respects R (stat p)) -> (forall p, respects R (mkdir p)) ->
  respects R (mkdir_p p).
Proof.
  intros R_stat R_mkdir. unfold mkdir_p. destruct (negb (posix.isAbsolute p));
    [apply respects_throw|by apply mkdir_p_loop_respects].
Qed.

Lemma rm_rf_respects fuel :
  (forall p, respects R (stat p)) -> (forall p, respects R (ls p)) ->
  (forall p, respects R (rm p)) -> (forall p, respects R (rmdir p)) ->
  forall p, respects R (rm_rf fuel p).
Proof.
  intros R_stat R_ls R_rm R_rmdir.
  induction fuel as [|fuel IH]; intros p; simpl; [by intros w|].
  apply respects_bind; [apply R_stat|]. intros st.
  destruct (isDirectory st); [|apply R_rm].
  apply respects_bind; [apply R_ls|]. intros fs.
  apply respects_bind; [|intros _; apply R_rmdir].
  apply respects_for_of. intros f. apply IH.
Qed.

(** Relations that do not look at the remote side. *)
Section Journal.
Hypothesis R_call : forall c w, R w (log_call c w).
Hypothesis R_report : forall x w, R w (log_report x w).
Hypothesis R_remote : forall r w, R w (set_remote r w).

Lemma respects_call c : respects R (call c).
Proof. intros w. apply R_call. Qed.

Lemma respects_report x : respects R (report x).
Proof. intros w. apply R_report. Qed.

Lemma respects_request {A} c (srv : Remote -> Reply A * Remote) :
  respects R (request c srv).
Proof.
  intros w. unfold request. simpl.
  destruct (srv (remote w)) as [[a|e] r']; simpl;
    (eapply R_trans; [apply R_call|apply R_remote]).
Qed.

Lemma respects_stat p : respects R (stat p).
Proof. apply respects_with_sftp. intros _. apply respects_request. Qed.

Lemma respects_mkdir p : respects R (mkdir p).
Proof. apply respects_with_sftp. intros _. apply respects_request. Qed.

Lemma respects_ls p : respects R (ls p).
Proof. apply respects_with_sftp. intros _. apply respects_request. Qed.

Lemma respects_rm p : respects R (rm p).
Proof. apply respects_with_sftp. intros _. apply respects_request. Qed.

Lemma respects_rmdir p : respects R (rmdir p).
Proof. apply respects_with_sftp. intros _. apply respects_request. Qed.

Lemma respects_chmod p m : respects R (chmod p m).
Proof. apply respects_with_sftp. intros _. apply respects_request. Qed.

Lemma respects_exec c : respects R (exec c).
Proof.
  intros w. unfold exec, Client_exec.
  destruct (connected (client (dev w))); [|apply R_refl]. simpl.
  destruct (exec_refusal (remote w)); apply R_call.
Qed.

Lemma respects_mkdir_p p : respects R (mkdir_p p).
Proof. apply mkdir_p_respects; [apply respects_stat|apply respects_mkdir]. Qed.

Lemma respects_rm_rf fuel p : respects R (rm_rf fuel p).
Proof.
  apply rm_rf_respects;
    [apply respects_stat|apply respects_ls|apply respects_rm|apply respects_rmdir].
Qed.

Lemma respects_transfer c p b : respects R (transfer c p (observer b)).
Proof.
  unfold transfer. apply respects_bind; [apply respects_call|]. intros _.
  apply respects_bind; [apply respects_get_remote|]. intros r.
  apply respects_bind.
  - apply respects_for_of. intros [[t ch] tot]. unfold step.
    destruct b; simpl; [apply respects_report|apply respects_ret].
  - intros _. apply respects_bind; [apply respects_get_remote|]. intros r'.
    destruct (transfer_error r' p); [apply respects_throw|apply respects_ret].
Qed.

Lemma respects_get r l b : respects R (get r l (observer b)).
Proof. apply respects_with_sftp. intros _. apply respects_transfer. Qed.

Lemma respects_put l r m b : respects R (put l r m (observer b)).
Proof. apply respects_with_sftp. intros _. apply respects_transfer. Qed.

End Journal.
End Respects.

Lemma journal_grows_trans w1 w2 w3 :
  journal_grows w1 w2 -> journal_grows w2 w3 -> journal_grows w1 w3.
Proof.
  intros [m1 H1] [m2 H2]. exists (m1 ++ m2)%list.
  by rewrite H2, H1, app_assoc.
Qed.

Ltac same_dev_side := unfold same_dev; simpl; intros; congruence.
Ltac journal_side :=
  first [ by intros; eexists [] ; rewrite app_nil_r
        | by intros; eexists; simpl; reflexivity
        | by apply journal_grows_trans ].

(** ** The SFTP channel is only ever open on a connected device *)

Lemma connect_after (P : World -> Prop) w :
  (forall w', world_of (connect w) = Some w' -> P w') -> after P (connect w).
Proof. intros H. destruct (connect w); simpl; auto. Qed.

Lemma connect_keeps_invariant w :
  sftp_implies_connected (dev w) ->
  after (fun w' => sftp_implies_connected (dev w')) (connect w).
Proof.
  intros Hi.
  destruct (handshake (remote w)) as [e|] eqn:Hh.
  { destruct (connect_handshake_rejected w e Hh) as (w' & cfg & -> & Hd & _).
    simpl. unfold sftp_implies_connected in *. by rewrite Hd. }
  destruct (subsystem (remote w)) as [e|] eqn:Hs.
  { destruct (connect_sftp_failure w e Hh Hs) as (w' & -> & _ & Hn & _).
    simpl. intros Hne. by rewrite Hn in Hne. }
  destruct (server_stat (homeDirectoryPath (dev w)) (remote w))
    as [[a|e] r'] eqn:Hst.
  - destruct (connect_success w a r' Hh Hs Hst) as (w' & -> & _ & Hc & _).
    simpl. by intros _.
  - destruct (connect_stat_failure w e r' Hh Hs Hst) as (w' & -> & _ & Hn & _).
    simpl. intros Hne. by rewrite Hn in Hne.
Qed.

Lemma run_keeps_invariant o w :
  sftp_implies_connected (dev w) ->
  after (fun w' => sftp_implies_connected (dev w')) (run o w).
Proof.
  intros Hi.
  assert (Hk : forall (m : M unit), respects same_dev m ->
             after (fun w' => sftp_implies_connected (dev w')) (m w)).
  { intros m Hm. specialize (Hm w).
    destruct (m w); simpl in *; unfold same_dev in *; rewrite ?Hm; done. }
  destruct o; cbn [run]; unfold on_close.
  - by apply connect_keeps_invariant.
  - destruct (disconnect_resolves w) as (w' & -> & _ & _ & Hn & _).
    simpl. intros Hne. by rewrite Hn in Hne.
  - destruct (disconnect_resolves w) as (w' & -> & _ & _ & Hn & _).
    simpl. intros Hne. by rewrite Hn in Hne.
  - done.
  - apply Hk, respects_chmod; same_dev_side.
  - apply Hk. apply respects_bind; try same_dev_side.
    apply respects_exec; same_dev_side.
  - apply Hk, respects_mkdir; same_dev_side.
  - apply Hk, respects_mkdir_p; same_dev_side.
  - apply Hk, respects_get; same_dev_side.
  - apply Hk, respects_put; same_dev_side.
  - apply Hk. apply respects_bind; try same_dev_side.
    apply respects_ls; same_dev_side.
  - apply Hk. apply respects_bind; try same_dev_side.
    apply respects_stat; same_dev_side.
  - apply Hk, respects_rm; same_dev_side.
  - apply Hk, respects_rm_rf; same_dev_side.
  - apply Hk, respects_rmdir; same_dev_side.
Qed.

Lemma reachable_invariant w :
  reachable w -> sftp_implies_connected (dev w).
Proof.
  induction 1 as [|w o w' _ IH Hw]; [by intros Hne|].
  pose proof (run_keeps_invariant o w IH) as Ha.
  destruct (run o w); simpl in *; by simplify_eq.
Qed.

Lemma idle_no_sftp w : reachable w -> idle (dev w) -> sftp (dev w) = None.
Proof.
  intros Hr [_ Hc]. pose proof (reachable_invariant w Hr) as Hi.
  destruct (sftp (dev w)) eqn:Hs; [|done].
  unfold sftp_implies_connected in Hi. rewrite Hs in Hi.
  rewrite Hi in Hc; done.
Qed.

(** ** Between operations the client holds a connection only while the
    SFTP channel is open *)

Lemma connect_keeps_connection w :
  after (fun w' => connection_has_channel (dev w')) (connect w).
Proof.
  unfold connection_has_channel.
  unfold connect, connectClient, getSftp, disconnect, stat, with_sftp, request.
  unfold_m. simpl.
  destruct (handshake (remote w)) as [e|]; simpl; [done|].
  destruct (subsystem (remote w)) as [e|]; simpl.
  { by destruct (sftp (dev w)). }
  by destruct (server_stat _ _) as [[a|e] r'].
Qed.

Lemma disconnect_no_connection w :
  after (fun w' => connected (client (dev w')) = false) (disconnect w).
Proof.
  unfold disconnect. unfold_m. simpl. by destruct (sftp (dev w)).
Qed.

Lemma run_keeps_connection o w :
  connection_has_channel (dev w) ->
  after (fun w' => connection_has_channel (dev w')) (run o w).
Proof.
  intros Hi.
  assert (Hk : forall (m : M unit), respects same_dev m ->
             after (fun w' => connection_has_channel (dev w')) (m w)).
  { intros m Hm. specialize (Hm w).
    destruct (m w); simpl in *; unfold same_dev in *; rewrite ?Hm; done. }
  assert (Hd : after (fun w' => connection_has_channel (dev w')) (disconnect w)).
  { pose proof (disconnect_no_connection w) as Hn.
    destruct (disconnect w); simpl in *; try done;
      unfold connection_has_channel; by rewrite Hn. }
  destruct o; cbn [run]; unfold on_close.
  - apply connect_keeps_connection.
  - exact Hd.
  - exact Hd.
  - done.
  - apply Hk, respects_chmod; same_dev_side.
  - apply Hk. apply respects_bind; try same_dev_side.
    apply respects_exec; same_dev_side.
  - apply Hk, respects_mkdir; same_dev_side.
  - apply Hk, respects_mkdir_p; same_dev_side.
  - apply Hk, respects_get; same_dev_side.
  - apply Hk, respects_put; same_dev_side.
  - apply Hk. apply respects_bind; try same_dev_side.
    apply respects_ls; same_dev_side.
  - apply Hk. apply respects_bind; try same_dev_side.
    apply respects_stat; same_dev_side.
  - apply Hk, respects_rm; same_dev_side.
  - apply Hk, respects_rm_rf; same_dev_side.
  - apply Hk, respects_rmdir; same_dev_side.
Qed.

Lemma reachable_connection w :
  reachable w -> connection_has_channel (dev w).
Proof.
  induction 1 as [|w o w' _ IH Hw]; [by intros Hne|].
  pose proof (run_keeps_connection o w IH) as Ha.
  destruct (run o w); simpl in *; by simplify_eq.
Qed.

Lemma idle_no_connection w :
  reachable w -> idle (dev w) -> connected (client (dev w)) = false.
Proof.
  intros Hr Hi. pose proof (idle_no_sftp w Hr Hi) as Hs.
  pose proof (reachable_connection w Hr) as Hc.
  unfold connection_has_channel in Hc.
  destruct (connected (client (dev w))); [|done]. by destruct Hc.
Qed.

(** ** Operations on a device without an SFTP channel *)

Lemma exec_not_connected c w :
  connected (client (dev w)) = false -> exec c w = Reject not_connected w.
Proof. intros Hc. unfold exec, Client_exec. by rewrite Hc. Qed.

Lemma split_nonempty s : posix.split s <> [].
Proof.
  destruct s as [|c r]; simpl; [done|].
  destruct (Ascii.eqb c "/"); [done|]. by destruct (posix.split r).
Qed.

Lemma absolute_has_names p :
  posix.isAbsolute p = true ->
  exists n names, tail (posix.split p) = n :: names.
Proof.
  destruct p as [|c r]; simpl; [done|]. intros ->. simpl.
  pose proof (split_nonempty r).
  destruct (posix.split r) as [|n names]; [done|]. by exists n, names.
Qed.

Lemma stat_not_connected p w :
  sftp (dev w) = None -> stat p w = Reject not_connected w.
Proof. apply with_sftp_none. Qed.

Lemma mkdir_p_not_connected p w :
  posix.isAbsolute p = true -> sftp (dev w) = None ->
  mkdir_p p w = Reject not_connected w.
Proof.
  intros Ha Hs. unfold mkdir_p. rewrite Ha. simpl.
  destruct (absolute_has_names p Ha) as (n & names & ->). simpl.
  unfold_m. by rewrite (stat_not_connected _ _ Hs).
Qed.

Lemma rm_rf_not_connected fuel p w :
  sftp (dev w) = None -> rm_rf (S fuel) p w = Reject not_connected w.
Proof.
  intros Hs. simpl. unfold_m. by rewrite (stat_not_connected _ _ Hs).
Qed.

(** C6. On an idle device -- and whenever there is no SFTP channel and
    the client holds no connection -- every SFTP-backed operation, given its
    guard, and [exec], which the client itself turns down, is rejected with
    the error [Not connected] and leaves the world, journal of calls
    included, as it was: nothing is asked of the remote side.  The one
    operation that can fail otherwise is [mkdir_p], whose check of the path
    comes first: a path that is not absolute is rejected with the error
    saying so, again in the world as it was. *)
Theorem idle_operations (w : World) :
  (reachable w /\ idle (dev w)) \/
  (sftp (dev w) = None /\ connected (client (dev w)) = false) ->
  (forall p m, chmod p m w = Reject not_connected w) /\
  (forall p, mkdir p w = Reject not_connected w) /\
  (forall p, ls p w = Reject not_connected w) /\
  (forall p, stat p w = Reject not_connected w) /\
  (forall p, rm p w = Reject not_connected w) /\
  (forall p, rmdir p w = Reject not_connected w) /\
  (forall r l cb, get r l cb w = Reject not_connected w) /\
  (forall l r m cb, put l r m cb w = Reject not_connected w) /\
  (forall p, posix.isAbsolute p = true ->
             mkdir_p p w = Reject not_connected w) /\
  (forall p, posix.isAbsolute p = false ->
             mkdir_p p w = Reject must_be_absolute w) /\
  (forall fuel p, rm_rf (S fuel) p w = Reject not_connected w) /\
  (forall c, exec c w = Reject not_connected w) /\
  message not_connected = "Not connected".
Proof.
  intros Hw.
  assert (sftp (dev w) = None /\ connected (client (dev w)) = false)
    as [Hs Hc].
  { destruct Hw as [[Hr Hi]|Hw]; [|done].
    split; [by apply idle_no_sftp|by apply idle_no_connection]. }
  clear Hw.
  repeat split; intros; try (by apply with_sftp_none).
  - by apply mkdir_p_not_connected.
  - unfold mkdir_p. by rewrite H.
  - by apply rm_rf_not_connected.
  - by apply exec_not_connected.
Qed.

Lemma idle_operations_witness :
  (reachable (fresh "linux" (quiet home_tree)) /\
   idle (dev (fresh "linux" (quiet home_tree)))) /\
  stat "/home/robot" (fresh "linux" (quiet home_tree))
    = Reject not_connected (fresh "linux" (quiet home_tree)) /\
  mkdir_p "/a/b" (fresh "linux" (quiet home_tree))
    = Reject not_connected (fresh "linux" (quiet home_tree)) /\
  rm_rf 3 "/home" (fresh "linux" (quiet home_tree))
    = Reject not_connected (fresh "linux" (quiet home_tree)) /\
  exec "ls" (fresh "linux" (quiet home_tree))
    = Reject not_connected (fresh "linux" (quiet home_tree)).
Proof.
  assert (Hr : reachable (fresh "linux" (quiet home_tree)))
    by apply reach_new.
  assert (Hi : idle (dev (fresh "linux" (quiet home_tree))))
    by (split; reflexivity).
  split; [by split|].
  pose proof (idle_operations (fresh "linux" (quiet home_tree))
                (or_introl (conj Hr Hi)))
    as (_ & _ & _ & Hstat & _ & _ & _ & _ & Hmk & _ & Hrm & Hex & _).
  split; [apply Hstat|]. split; [by apply Hmk|]. split; [apply Hrm|apply Hex].
Defined.

(** C6, as stated, fails for [mkdir_p] on a path that is not absolute: on a
    new, idle device it is rejected, but with the error of the path check,
    not with [Not connected]. *)
Lemma idle_relative_path_counterexample :
  reachable (fresh "linux" (quiet home_tree)) /\
  idle (dev (fresh "linux" (quiet home_tree))) /\
  mkdir_p "relative/path" (fresh "linux" (quiet home_tree))
    = Reject must_be_absolute (fresh "linux" (quiet home_tree)) /\
  message must_be_absolute = "The supplied file path must be absolute." /\
  must_be_absolute <> not_connected.
Proof.
  split; [apply reach_new|]. split; [by split|].
  split; [reflexivity|]. split; [reflexivity|discriminate].
Qed.

(** On a client that holds a connection [exec] hands the command over, and
    settles as the remote side answers. *)
Lemma exec_connected c w :
  connected (client (dev w)) = true ->
  exec c w =
    match exec_refusal (remote w) with
    | Some e => Reject e (log_call (client_exec c) w)
    | None => Resolve (channel c) (log_call (client_exec c) w)
    end.
Proof. intros Hc. unfold exec, Client_exec. by rewrite Hc. Qed.

Example exec_refused :
  exec "ls" (online deaf)
    = Reject unable_to_exec (log_call (client_exec "ls") (online deaf)).
Proof. reflexivity. Qed.

(** ** Path validation *)

Lemma bind_world_of {A B} (m : M A) (k : A -> M B) w w' :
  world_of ((m ≫= k) w) = Some w' ->
  (exists a w1, m w = Resolve a w1 /\ world_of (k a w1) = Some w') \/
  (exists e, m w = Reject e w').
Proof.
  unfold_m. destruct (m w) as [a w1|e w1|]; simpl; intros Hw.
  - left. by exists a, w1.
  - right. exists e. by simplify_eq.
  - done.
Qed.

Lemma stat_journal p w s :
  sftp (dev w) = Some s ->
  after (fun w' => calls w' = (calls w ++ [sftp_stat p])%list) (stat p w).
Proof.
  intros Hs. unfold stat. rewrite (with_sftp_some _ _ _ Hs).
  unfold request. simpl. by destruct (server_stat p (remote w)) as [[st|e] r'].
Qed.

Lemma rm_rf_stats_first fuel p w w' :
  sftp (dev w) <> None ->
  world_of (rm_rf (S fuel) p w) = Some w' ->
  exists more, calls w' = (calls w ++ sftp_stat p :: more)%list.
Proof.
  intros Hs Hw. destruct (sftp (dev w)) as [s|] eqn:Hsf; [|done].
  pose proof (stat_journal p w s Hsf) as Hj.
  simpl in Hw. apply bind_world_of in Hw as [(st & w1 & Hst & Hw)|[e Hst]];
    rewrite Hst in Hj; simpl in Hj; [|by exists []].
  assert (Hg : respects journal_grows
                 (if isDirectory st then
                    fs ← ls p;
                    for_of fs (fun f => rm_rf fuel (p +:+ "/" +:+ filename f)) ;;
                    rmdir p
                  else rm p)).
  { destruct (isDirectory st); [|apply respects_rm; journal_side].
    apply respects_bind; try journal_side.
    { apply respects_ls; journal_side. }
    intros fs. apply respects_bind; try journal_side.
    { apply respects_for_of; try journal_side.
      intros f. apply respects_rm_rf; journal_side. }
    intros _. apply respects_rmdir; journal_side. }
  specialize (Hg w1). simpl in Hw, Hg.
  destruct (isDirectory st);
    match type of Hw with world_of ?o = _ => destruct o end;
    simpl in *; simplify_eq; destruct Hg as [more Hg]; exists more;
    by rewrite Hg, Hj, <- app_assoc.
Qed.

(** C7. [mkdir_p] checks that its path is absolute before anything else:
    a relative path is rejected with the error saying so and the world is
    left as it was.  [rm_rf] makes no such check: on a device with an open
    SFTP channel its first act is to stat the path it was given. *)
Theorem path_validation :
  (forall w p, posix.isAbsolute p = false ->
     mkdir_p p w = Reject must_be_absolute w) /\
  (forall w fuel p w', sftp (dev w) <> None ->
     world_of (rm_rf (S fuel) p w) = Some w' ->
     exists more, calls w' = (calls w ++ sftp_stat p :: more)%list).
Proof.
  split.
  - intros w p Hp. unfold mkdir_p. by rewrite Hp.
  - intros w fuel p w'. apply rm_rf_stats_first.
Qed.

Example mkdir_p_relative :
  mkdir_p "relative/path" (online (quiet home_tree))
    = Reject must_be_absolute (online (quiet home_tree)).
Proof. reflexivity. Qed.

(** C7, as stated, fails for [rm_rf]: given a relative path it goes to the
    remote side with it. *)
Lemma rm_rf_relative_counterexample :
  exists w',
    rm_rf 1 "relative/path" (online (quiet home_tree)) = Reject no_such_file w' /\
    calls w' = [sftp_stat "relative/path"] /\
    no_such_file <> must_be_absolute.
Proof.
  eexists. split; [vm_compute; reflexivity|].
  split; [reflexivity|discriminate].
Qed.

(** ** Paths made of plain names *)

Lemma split_app a b :
  posix.split (a +:+ "/" +:+ b) = (posix.split a ++ posix.split b)%list.
Proof.
  induction a as [|c a IH]; simpl; [done|].
  destruct (Ascii.eqb c "/"); simpl; [by f_equal|].
  simpl in IH. rewrite IH.
  pose proof (split_nonempty a). by destruct (posix.split a).
Qed.

Lemma plain_name_split f : plain_name f = true -> posix.split f = [f].
Proof.
  unfold plain_name. intros H. repeat (apply andb_prop in H as [H _]).
  by apply bool_decide_eq_true in H.
Qed.

Lemma plain_name_neq f :
  plain_name f = true -> f <> "" /\ f <> "." /\ f <> "..".
Proof.
  unfold plain_name. intros H.
  repeat (apply andb_prop in H as [H ?]).
  repeat match goal with
  | H : negb (bool_decide _) = true |- _ =>
      apply negb_true_iff, bool_decide_eq_false in H
  end. done.
Qed.

Lemma split_head_no_slash c r :
  posix.split (String c r) = [String c r] -> Ascii.eqb c "/" = false /\ posix.split r = [r].
Proof.
  simpl. destruct (Ascii.eqb c "/"); [by intros [=]|].
  pose proof (split_nonempty r). destruct (posix.split r) as [|h t]; [done|].
  by intros [= -> ->].
Qed.

Lemma no_slash_ends f : posix.split f = [f] -> posix.ends_with_slash f = false.
Proof.
  induction f as [|c r IH]; [done|]. intros H.
  apply split_head_no_slash in H as [Hc Hr]. simpl.
  destruct r as [|c' r']; [done|]. by apply IH.
Qed.

Lemma ends_with_slash_app a n :
  n <> "" ->
  posix.ends_with_slash (a +:+ "/" +:+ n) = posix.ends_with_slash n.
Proof.
  intros Hn. induction a as [|c a IH].
  - destruct n; [done|]. done.
  - simpl in *. rewrite <- IH.
    destruct (a +:+ "/" +:+ n) eqn:E; [by destruct a|done].
Qed.

Lemma normalizeString_plain allow l : forall stack,
  Forall (fun f => plain_name f = true) l ->
  posix.normalizeString allow stack l = (rev stack ++ l)%list.
Proof.
  induction l as [|f l IH]; intros stack Hl; simpl.
  - by rewrite app_nil_r.
  - apply Forall_cons in Hl as [Hf Hl].
    destruct (plain_name_neq f Hf) as (H1 & H2 & H3).
    rewrite !bool_decide_eq_false_2 by done. simpl.
    rewrite IH by done. simpl. by rewrite <- app_assoc.
Qed.

Lemma normalizeString_skip allow stack l :
  posix.normalizeString allow stack ("" :: l)
  = posix.normalizeString allow stack l.
Proof. done. Qed.

Lemma split_unsplit l :
  l <> [] -> Forall (fun f => plain_name f = true) l ->
  posix.split (posix.unsplit l) = l.
Proof.
  induction l as [|f l IH]; [done|]. intros _ Hl.
  apply Forall_cons in Hl as [Hf Hl].
  destruct l as [|g l]; [by apply plain_name_split|].
  change (posix.unsplit (f :: g :: l)) with (f +:+ "/" +:+ posix.unsplit (g :: l)).
  rewrite split_app, IH by done. by rewrite plain_name_split.
Qed.

Lemma unsplit_nonempty l :
  l <> [] -> Forall (fun f => plain_name f = true) l -> posix.unsplit l <> "".
Proof.
  destruct l as [|f l]; [done|]. intros _ Hl.
  apply Forall_cons in Hl as [Hf _].
  destruct (plain_name_neq f Hf) as (H1 & _).
  destruct l; simpl; [done|]. by destruct f.
Qed.

(** Joining a clean prefix and a plain name appends the name. *)
Lemma join_clean pre n :
  Forall (fun f => plain_name f = true) pre -> plain_name n = true ->
  posix.join ("/" +:+ posix.unsplit pre) n = "/" +:+ posix.unsplit (pre ++ [n]).
Proof.
  intros Hpre Hn. destruct (plain_name_neq n Hn) as (Hn1 & _).
  set (part := "/" +:+ posix.unsplit pre).
  assert (Hpart : part <> "") by done.
  assert (Hj : part +:+ "/" +:+ n <> "") by done.
  unfold posix.join.
  rewrite (bool_decide_eq_false_2 _ Hpart), (bool_decide_eq_false_2 _ Hn1).
  rewrite (bool_decide_eq_false_2 _ Hj).
  unfold posix.normalize. rewrite (bool_decide_eq_false_2 _ Hj).
  change (posix.isAbsolute (part +:+ "/" +:+ n)) with true.
  cbn [negb].
  rewrite ends_with_slash_app, (no_slash_ends n (plain_name_split n Hn)) by done.
  rewrite split_app, (plain_name_split n Hn).
  assert (Hbody : posix.normalizeString false []
            (posix.split part ++ [n]) = (pre ++ [n])%list).
  { assert (Hall : Forall (fun f => plain_name f = true) (pre ++ [n])).
    { apply Forall_app. split; [done|]. by constructor. }
    subst part. destruct pre as [|f pre].
    - change (posix.split ("/" +:+ posix.unsplit [])) with [""; ""].
      change ([""; ""] ++ [n])%list with ("" :: "" :: [n]).
      rewrite !normalizeString_skip.
      by rewrite normalizeString_plain.
    - change ("/" +:+ posix.unsplit (f :: pre))
        with ("" +:+ "/" +:+ posix.unsplit (f :: pre)).
      rewrite split_app, split_unsplit by done.
      change ((posix.split "" ++ f :: pre) ++ [n])%list
        with ("" :: (f :: pre) ++ [n])%list.
      rewrite normalizeString_skip.
      by rewrite normalizeString_plain. }
  rewrite Hbody.
  rewrite bool_decide_eq_false_2; [done|].
  apply unsplit_nonempty; [by destruct pre|].
  apply Forall_app. split; [done|]. by constructor.
Qed.

Lemma accumulate_clean rest : forall pre,
  Forall (fun f => plain_name f = true) pre ->
  Forall (fun f => plain_name f = true) rest ->
  accumulate ("/" +:+ posix.unsplit pre) rest
  = map (fun i => "/" +:+ posix.unsplit (take i (pre ++ rest)))
        (seq (S (length pre)) (length rest)).
Proof.
  induction rest as [|n rest IH]; intros pre Hpre Hrest; [done|].
  apply Forall_cons in Hrest as [Hn Hrest].
  cbn [accumulate length seq map].
  rewrite join_clean by done.
  rewrite IH by (try apply Forall_app; auto).
  rewrite <- app_assoc, length_app, Nat.add_1_r. cbn [app].
  f_equal. f_equal.
  replace (S (length pre)) with (length (pre ++ [n]))
    by (rewrite length_app, Nat.add_1_r; done).
  change (pre ++ n :: rest)%list with (pre ++ [n] ++ rest)%list.
  by rewrite app_assoc, take_app_length.
Qed.

(** For a path written as plain names separated by single slashes, the
    prefixes visited are its textual prefixes. *)
Lemma prefixes_clean names :
  names <> [] -> Forall (fun f => plain_name f = true) names ->
  prefixes ("/" +:+ posix.unsplit names) = textual_prefixes names.
Proof.
  intros Hne Hall. unfold prefixes, textual_prefixes.
  change ("/" +:+ posix.unsplit names) with ("" +:+ "/" +:+ posix.unsplit names).
  rewrite split_app, split_unsplit by done.
  change (tail (posix.split "" ++ names)) with names.
  change "/" with ("/" +:+ posix.unsplit []) at 1.
  by rewrite accumulate_clean.
Qed.

Lemma textual_prefixes_abc :
  textual_prefixes ["a"; "b"; "c"] = ["/a"; "/a/b"; "/a/b/c"].
Proof. reflexivity. Qed.

(** ** Recursive directory creation *)

Lemma request_settles {A} c (srv : Remote -> Reply A * Remote) w :
  request c srv w <> Pending.
Proof. unfold request. by destruct (srv _) as [[a|e] r']. Qed.

Lemma with_sftp_request_settles {A} c (srv : Remote -> Reply A * Remote) w :
  with_sftp (fun _ => request c srv) w <> Pending.
Proof.
  unfold with_sftp. unfold_m. destruct (sftp (dev w)); [|done].
  apply request_settles.
Qed.

Lemma stat_settles p w : stat p w <> Pending.
Proof. apply with_sftp_request_settles. Qed.

Lemma mkdir_settles p w : mkdir p w <> Pending.
Proof. apply with_sftp_request_settles. Qed.

Lemma not_a_directory_code part :
  code (not_a_directory part) = None.
Proof. reflexivity. Qed.

Lemma mkdir_p_loop_walks names : forall part w,
  walk (accumulate part names) w (mkdir_p_loop part names w).
Proof.
  induction names as [|n names IH]; intros part w; simpl; [constructor|].
  unfold_m.
  destruct (stat (posix.join part n) w) as [st w1|e w1|] eqn:Hst.
  - destruct (isDirectory st) eqn:Hd; simpl.
    + eapply walk_directory; eauto.
    + eapply walk_not_directory; eauto.
  - case_bool_decide as Hc.
    + by eapply walk_stat_fails.
    + destruct (mkdir (posix.join part n) w1) as [[] w2|e' w2|] eqn:Hmk.
      * eapply walk_create; eauto.
      * eapply walk_create_fails; eauto.
      * by apply mkdir_settles in Hmk.
  - by apply stat_settles in Hst.
Qed.

Lemma walk_deterministic ps w o :
  walk ps w o -> forall o', walk ps w o' -> o = o'.
Proof.
  induction 1; intros o' Ho'; inversion Ho'; subst;
    repeat match goal with
    | H1 : ?m = _, H2 : ?m = _ |- _ => rewrite H1 in H2; simplify_eq
    end; try done; auto.
Qed.

(** The journal and the tree after creating [/a/b/c] on an empty remote. *)
Lemma mkdir_p_abc_on_empty_tree :
  exists w',
    mkdir_p "/a/b/c" (online (quiet empty_tree)) = Resolve tt w' /\
    calls w' = [sftp_stat "/a"; sftp_mkdir "/a";
                sftp_stat "/a/b"; sftp_mkdir "/a/b";
                sftp_stat "/a/b/c"; sftp_mkdir "/a/b/c"] /\
    tree (remote w') = Dir [("a", Dir [("b", Dir [("c", Dir [])])])].
Proof. eexists. split; [vm_compute; reflexivity|]. split; reflexivity. Qed.

Lemma mkdir_p_under_a_file :
  exists w',
    mkdir_p "/a/b/c" (online (quiet file_a_tree))
      = Reject (not_a_directory "/a") w' /\
    calls w' = [sftp_stat "/a"] /\
    tree (remote w') = file_a_tree.
Proof. eexists. split; [vm_compute; reflexivity|]. split; reflexivity. Qed.

(** C3. For an absolute path, [mkdir_p] is the walk over the prefixes
    accumulated from the root: each is statted; a directory is passed over,
    an entry that is not a directory stops the walk with the error naming
    that prefix and nothing more is done, a missing one is created with
    [mkdir], and any other stat failure is passed on as it is.  The error
    for a prefix that is not a directory is a plain [Error], without a
    status code, whose message quotes the prefix.  For a path written as
    plain names separated by single slashes the prefixes are the textual
    ones, shortest first.  On an empty tree [/a/b/c] creates [/a], [/a/b]
    and [/a/b/c], in that order. *)
Theorem mkdir_p_walks_prefixes :
  (forall p w o, posix.isAbsolute p = true ->
     (mkdir_p p w = o <-> walk (prefixes p) w o)) /\
  (forall part,
     not_a_directory part =
       mkError ("Cannot create directory: " +:+ String "034" part +:+
                String "034" " exists but isn't a directory") None) /\
  (forall names, names <> [] ->
     Forall (fun f => plain_name f = true) names ->
     prefixes ("/" +:+ posix.unsplit names) = textual_prefixes names) /\
  prefixes "/a/b/c" = ["/a"; "/a/b"; "/a/b/c"] /\
  (exists w',
     mkdir_p "/a/b/c" (online (quiet empty_tree)) = Resolve tt w' /\
     filter is_mutation (calls w') =
       [sftp_mkdir "/a"; sftp_mkdir "/a/b"; sftp_mkdir "/a/b/c"] /\
     tree (remote w') = Dir [("a", Dir [("b", Dir [("c", Dir [])])])]) /\
  (exists w',
     mkdir_p "/a/b/c" (online (quiet file_a_tree))
       = Reject (mkError ("Cannot create directory: " +:+ String "034" "/a" +:+
                          String "034" " exists but isn't a directory") None)
                w' /\
     calls w' = [sftp_stat "/a"] /\
     tree (remote w') = file_a_tree).
Proof.
  split; [|split; [reflexivity|
           split; [apply prefixes_clean|split; [reflexivity|split]]]].
  - intros p w o Ha.
    assert (Hw : walk (prefixes p) w (mkdir_p p w)).
    { unfold mkdir_p, prefixes. rewrite Ha. simpl. apply mkdir_p_loop_walks. }
    split; [by intros <-|].
    intros Ho. by apply (walk_deterministic _ _ _ Hw).
  - destruct mkdir_p_abc_on_empty_tree as (w' & Hr & Hc & Ht).
    exists w'. split; [done|]. split; [by rewrite Hc|done].
  - destruct mkdir_p_under_a_file as (w' & Hr & Hc & Ht).
    exists w'. split; [exact Hr|]. split; done.
Qed.

(** ** The remote tree *)

Lemma lookup_entry_app k es es' :
  lookup_entry k (es ++ es') =
    match lookup_entry k es with
    | Some c => Some c
    | None => lookup_entry k es'
    end.
Proof.
  induction es as [|[k' c] es IH]; simpl; [done|].
  by case_bool_decide.
Qed.

Lemma lookup_alter_entry g name k es :
  lookup_entry k (alter_entry g name es) =
    if bool_decide (k = name) then g <$> lookup_entry k es
    else lookup_entry k es.
Proof.
  induction es as [|[k' c] es IH]; simpl; [by case_bool_decide|].
  rewrite IH. repeat case_bool_decide; simplify_eq; done.
Qed.

Lemma lookup_remove_entry name k es :
  lookup_entry k (remove_entry name es) =
    if bool_decide (k = name) then None else lookup_entry k es.
Proof.
  induction es as [|[k' c] es IH]; simpl; [by case_bool_decide|].
  repeat (case_bool_decide; simpl); simplify_eq; try done.
  all: rewrite IH; by repeat case_bool_decide.
Qed.

Lemma find_node_app segs segs' t :
  find_node (segs ++ segs') t = find_node segs t ≫= find_node segs'.
Proof.
  revert t. induction segs as [|s segs IH]; intros t; simpl; [done|].
  destruct t as [b|es]; [done|]. destruct (lookup_entry s es); [apply IH|done].
Qed.

Lemma split_last_app segs parent name :
  split_last segs = Some (parent, name) -> segs = (parent ++ [name])%list.
Proof.
  revert parent. induction segs as [|s segs IH]; intros parent; simpl; [done|].
  destruct segs as [|s' segs]; [by intros [= <- <-]|].
  destruct (split_last (s' :: segs)) as [[p l]|]; [|done].
  intros [= <- <-]. simpl. f_equal. by apply IH.
Qed.

Lemma is_dir_update_dir segs f t : is_dir (update_dir segs f t) = is_dir t.
Proof. by destruct segs, t. Qed.

Lemma isDirectory_stats_of n : isDirectory (stats_of n) = is_dir n.
Proof. by destruct n. Qed.

(** Adding an entry somewhere keeps every entry there was, with its kind. *)
Lemma find_node_update_append x segs : forall parent t n,
  find_node segs t = Some n ->
  exists n',
    find_node segs (update_dir parent (fun es => (es ++ [x])%list) t) = Some n' /\
    is_dir n' = is_dir n.
Proof.
  induction segs as [|s segs IH]; intros parent t n; simpl.
  { intros [= <-]. eexists. split; [done|]. apply is_dir_update_dir. }
  destruct t as [b|es]; [done|].
  destruct (lookup_entry s es) as [c|] eqn:Hl; [|done]. intros Hf.
  destruct parent as [|s' parent]; simpl.
  - rewrite lookup_entry_app, Hl. by exists n.
  - rewrite lookup_alter_entry, Hl. case_bool_decide; simpl; [|by exists n].
    by apply IH.
Qed.

(** The entry added to a directory is found where it was put. *)
Lemma find_node_update_new name c parent : forall t es,
  find_node parent t = Some (Dir es) ->
  lookup_entry name es = None ->
  find_node (parent ++ [name])
            (update_dir parent (fun es => (es ++ [(name, c)])%list) t) = Some c.
Proof.
  induction parent as [|s parent IH]; intros t es; simpl.
  - intros [= ->] Hn. rewrite lookup_entry_app, Hn. simpl.
    by rewrite bool_decide_eq_true_2.
  - destruct t as [b|es0]; [done|].
    destruct (lookup_entry s es0) as [c0|] eqn:Hl; [|done]. intros Hf Hn.
    rewrite lookup_alter_entry, Hl, bool_decide_eq_true_2 by done. simpl.
    by eapply IH.
Qed.

(** ** What [stat] and [mkdir] do to the remote side *)

Lemma server_stat_remote p r : (server_stat p r).2 = r.
Proof.
  unfold server_stat. destruct (is_in _ _); [done|].
  by destruct (find_node _ _).
Qed.

Lemma server_stat_dir_at p r st :
  (server_stat p r).1 = Success st -> isDirectory st = true -> dir_at r p.
Proof.
  unfold server_stat, dir_at.
  destruct (is_in _ _); [done|].
  destruct (find_node _ _) as [n|]; [|done]. simpl.
  intros [= <-] Hd. rewrite isDirectory_stats_of in Hd. eauto.
Qed.

Lemma dir_at_server_stat p r :
  dir_at r p ->
  exists st, server_stat p r = (Success st, r) /\ isDirectory st = true.
Proof.
  intros (Hu & n & Hf & Hd). unfold server_stat. rewrite Hu, Hf.
  eexists. split; [done|]. by rewrite isDirectory_stats_of.
Qed.

Lemma server_stat_missing p r e :
  (server_stat p r).1 = Failure e ->
  code e = Some SFTP_STATUS_CODE.NO_SUCH_FILE ->
  is_in (resolve r p) (unreadable r) = false.
Proof.
  unfold server_stat. destruct (is_in _ _); [|done].
  by intros [= <-].
Qed.

Lemma resolve_set_tree t r p : resolve (set_tree t r) p = resolve r p.
Proof. done. Qed.

(** A successful [mkdir] leaves a directory at its path and keeps every
    directory there was; a failed one changes nothing. *)
Lemma server_mkdir_spec p r :
  match server_mkdir p r with
  | (Success _, r') =>
      (is_in (resolve r p) (unreadable r) = false -> dir_at r' p) /\
      (forall q, dir_at r q -> dir_at r' q)
  | (Failure _, r') => r' = r
  end.
Proof.
  unfold server_mkdir.
  destruct (find_node (resolve r p) (tree r)) as [n|] eqn:Hf; [done|].
  destruct (split_last (resolve r p)) as [[parent name]|] eqn:Hsp; [|done].
  apply split_last_app in Hsp.
  destruct (find_node parent (tree r)) as [[b|es]|] eqn:Hp; [done| |done].
  destruct (is_in _ _); [done|].
  unfold dir_at. setoid_rewrite resolve_set_tree. cbn [tree set_tree unreadable].
  split.
  - intros Hu. split; [done|]. exists (Dir []). split; [|done].
    rewrite Hsp. eapply find_node_update_new; [done|].
    rewrite Hsp, find_node_app, Hp in Hf. simpl in Hf.
    by destruct (lookup_entry name es).
  - intros q (Hu & n & Hq & Hd). split; [done|].
    destruct (find_node_update_append (name, Dir []) (resolve r q) parent
                (tree r) n Hq) as (n' & Hn' & Hk).
    exists n'. split; [done|]. by rewrite Hk.
Qed.

(** ** [stat] and [mkdir] on a device with an open SFTP channel *)

Lemma set_remote_same w : set_remote (remote w) w = w.
Proof. by destruct w. Qed.

Lemma stat_connected p w s :
  sftp (dev w) = Some s ->
  stat p w =
    match (server_stat p (remote w)).1 with
    | Success a => Resolve a (log_call (sftp_stat p) w)
    | Failure e => Reject e (log_call (sftp_stat p) w)
    end.
Proof.
  intros Hs. unfold stat. rewrite (with_sftp_some _ _ _ Hs). unfold request.
  pose proof (server_stat_remote p (remote w)) as Hr. simpl in *.
  destruct (server_stat p (remote w)) as [[a|e] r']; simpl in *; subst r';
    by rewrite <- (set_remote_same (log_call (sftp_stat p) w)) at 2.
Qed.

Lemma mkdir_connected p w s :
  sftp (dev w) = Some s ->
  mkdir p w =
    match server_mkdir p (remote w) with
    | (Success _, r') => Resolve tt (set_remote r' (log_call (sftp_mkdir p) w))
    | (Failure e, r') => Reject e (set_remote r' (log_call (sftp_mkdir p) w))
    end.
Proof.
  intros Hs. unfold mkdir. rewrite (with_sftp_some _ _ _ Hs). unfold request.
  simpl. by destruct (server_mkdir p (remote w)) as [[[]|e] r'].
Qed.

(** ** Running [mkdir_p] again *)

(** After a run that resolved, every prefix visited is a directory, and
    every directory there was still is one. *)
Lemma mkdir_p_loop_resolved names : forall part w w1 s,
  sftp (dev w) = Some s ->
  mkdir_p_loop part names w = Resolve tt w1 ->
  Forall (dir_at (remote w1)) (accumulate part names) /\
  (forall q, dir_at (remote w) q -> dir_at (remote w1) q) /\
  dev w1 = dev w.
Proof.
  induction names as [|n names IH]; intros part w w1 s Hs; simpl.
  { unfold_m. intros [= <-]. split; [constructor|by split]. }
  set (p := posix.join part n). unfold_m.
  rewrite (stat_connected p w s Hs).
  destruct (server_stat p (remote w)).1 as [st|e] eqn:Hst.
  - destruct (isDirectory st) eqn:Hd; simpl; [|done]. intros Hl.
    eapply IH in Hl as (Hall & Hmono & Hdev); [|exact Hs].
    pose proof (server_stat_dir_at p (remote w) st Hst Hd) as Hp.
    split; [constructor; [by apply Hmono|done]|]. split; [|done].
    intros q Hq. by apply Hmono.
  - case_bool_decide as Hc; [done|].
    erewrite mkdir_connected by exact Hs. simpl.
    pose proof (server_mkdir_spec p (remote w)) as Hmk.
    destruct (server_mkdir p (remote w)) as [[[]|e'] r']; [|done]. intros Hl.
    destruct Hmk as [Hnew Hkeep].
    eapply IH in Hl as (Hall & Hmono & Hdev); [|exact Hs].
    split; [constructor; [|done]|]; [|split; [|done]].
    + apply Hmono. simpl. apply Hnew. by eapply server_stat_missing.
    + intros q Hq. apply Hmono. simpl. by apply Hkeep.
Qed.

(** Over directories the loop only stats. *)
Lemma mkdir_p_loop_over_dirs names : forall part w s,
  sftp (dev w) = Some s ->
  Forall (dir_at (remote w)) (accumulate part names) ->
  exists w2,
    mkdir_p_loop part names w = Resolve tt w2 /\
    remote w2 = remote w /\ dev w2 = dev w /\
    calls w2 = (calls w ++ map sftp_stat (accumulate part names))%list.
Proof.
  induction names as [|n names IH]; intros part w s Hs; simpl.
  { intros _. exists w. unfold_m. by rewrite app_nil_r. }
  set (p := posix.join part n). intros Hall.
  apply Forall_cons in Hall as [Hp Hall]. unfold_m.
  rewrite (stat_connected p w s Hs).
  destruct (dir_at_server_stat p (remote w) Hp) as (st & Hst & Hd).
  rewrite Hst. simpl. rewrite Hd. simpl.
  destruct (IH p (log_call (sftp_stat p) w) s Hs Hall)
    as (w2 & Hl & Hr & Hdv & Hc).
  exists w2. split; [done|]. split; [done|]. split; [done|].
  rewrite Hc. simpl. by rewrite <- app_assoc.
Qed.

Lemma mkdir_p_resolved_connected p w w1 :
  mkdir_p p w = Resolve tt w1 -> exists s, sftp (dev w) = Some s.
Proof.
  intros Hm. destruct (sftp (dev w)) as [s|] eqn:Hs; [by exists s|].
  destruct (posix.isAbsolute p) eqn:Ha.
  - by rewrite (mkdir_p_not_connected p w Ha Hs) in Hm.
  - unfold mkdir_p in Hm. by rewrite Ha in Hm.
Qed.

Lemma filter_is_mutation_stats ps : filter is_mutation (map sftp_stat ps) = [].
Proof. induction ps as [|p ps IH]; [done|]. simpl. apply IH. Qed.

(** C4. When [mkdir_p] has resolved, calling it again with the same path
    resolves too, asks the remote side for nothing but stats, and leaves
    the remote tree and the device as the first call left them. *)
Theorem mkdir_p_idempotent (p : string) (w w1 : World) :
  mkdir_p p w = Resolve tt w1 ->
  exists w2,
    mkdir_p p w1 = Resolve tt w2 /\
    remote w2 = remote w1 /\
    dev w2 = dev w1 /\
    filter is_mutation (calls_since w1 w2) = [].
Proof.
  intros Hm. destruct (mkdir_p_resolved_connected p w w1 Hm) as [s Hs].
  unfold mkdir_p in *. destruct (negb (posix.isAbsolute p)); [done|].
  destruct (mkdir_p_loop_resolved _ _ _ _ s Hs Hm) as (Hall & _ & Hdev).
  assert (Hs1 : sftp (dev w1) = Some s) by by rewrite Hdev.
  destruct (mkdir_p_loop_over_dirs _ _ _ s Hs1 Hall)
    as (w2 & Hl & Hr & Hd & Hc).
  exists w2. repeat split; try done.
  unfold calls_since. rewrite Hc, drop_app_length.
  apply filter_is_mutation_stats.
Qed.

Lemma mkdir_p_idempotent_witness :
  exists w1,
    mkdir_p "/a/b/c" (online (quiet empty_tree)) = Resolve tt w1 /\
    exists w2,
      mkdir_p "/a/b/c" w1 = Resolve tt w2 /\
      remote w2 = remote w1 /\
      dev w2 = dev w1 /\
      filter is_mutation (calls_since w1 w2) = [].
Proof.
  destruct mkdir_p_abc_on_empty_tree as (w1 & Hm & _).
  exists w1. split; [exact Hm|].
  exact (mkdir_p_idempotent "/a/b/c" (online (quiet empty_tree)) w1 Hm).
Defined.

(** C4, as stated, fails where the first call fails: with a regular file at
    [/a] both calls are rejected. *)
Lemma mkdir_p_twice_counterexample :
  posix.isAbsolute "/a/b" = true /\
  exists w1 w2,
    mkdir_p "/a/b" (online (quiet file_a_tree))
      = Reject (not_a_directory "/a") w1 /\
    mkdir_p "/a/b" w1 = Reject (not_a_directory "/a") w2.
Proof.
  split; [reflexivity|]. eexists _, _.
  split; vm_compute; reflexivity.
Qed.

(** ** Running [mkdir_p] again after a failure *)

Lemma keeps_dirs_refl w : keeps_dirs w w.
Proof. by split. Qed.

Lemma keeps_dirs_trans w1 w2 w3 :
  keeps_dirs w1 w2 -> keeps_dirs w2 w3 -> keeps_dirs w1 w3.
Proof.
  intros [Hd1 Hq1] [Hd2 Hq2]. split; [congruence|]. intros q Hq.
  by apply Hq2, Hq1.
Qed.

Lemma stat_keeps_dirs p : respects keeps_dirs (stat p).
Proof.
  intros w. unfold stat, with_sftp. unfold_m.
  destruct (sftp (dev w)); [|apply keeps_dirs_refl].
  unfold request. simpl.
  pose proof (server_stat_remote p (remote w)) as Hr.
  destruct (server_stat p (remote w)) as [[a|e] r']; simpl in *; by subst r'.
Qed.

Lemma mkdir_keeps_dirs p : respects keeps_dirs (mkdir p).
Proof.
  intros w. unfold mkdir, with_sftp. unfold_m.
  destruct (sftp (dev w)); [|apply keeps_dirs_refl].
  unfold request. simpl.
  pose proof (server_mkdir_spec p (remote w)) as Hr.
  destruct (server_mkdir p (remote w)) as [[a|e] r']; simpl in *.
  - split; [done|]. apply Hr.
  - by subst r'.
Qed.

Lemma mkdir_p_loop_keeps_dirs part names :
  respects keeps_dirs (mkdir_p_loop part names).
Proof.
  apply mkdir_p_loop_respects;
    auto using keeps_dirs_refl, stat_keeps_dirs, mkdir_keeps_dirs.
  apply keeps_dirs_trans.
Qed.

(** One turn of the loop on a device with an open SFTP channel. *)
Lemma mkdir_p_loop_step part n names w s :
  sftp (dev w) = Some s ->
  mkdir_p_loop part (n :: names) w =
    let p := posix.join part n in
    let w' := log_call (sftp_stat p) w in
    match (server_stat p (remote w)).1 with
    | Success st =>
        if isDirectory st then mkdir_p_loop p names w'
        else Reject (not_a_directory p) w'
    | Failure e0 =>
        if bool_decide (code e0 ≠ Some SFTP_STATUS_CODE.NO_SUCH_FILE) then
          Reject e0 w'
        else
          match server_mkdir p (remote w) with
          | (Success _, r') =>
              mkdir_p_loop p names (set_remote r' (log_call (sftp_mkdir p) w'))
          | (Failure e', r') =>
              Reject e' (set_remote r' (log_call (sftp_mkdir p) w'))
          end
    end.
Proof.
  intros Hs. simpl. unfold_m. rewrite (stat_connected _ w s Hs).
  destruct (server_stat _ (remote w)).1 as [st|e0]; simpl.
  - by destruct (isDirectory st).
  - case_bool_decide; [done|]. erewrite mkdir_connected by exact Hs. simpl.
    by destruct (server_mkdir _ (remote w)) as [[[]|e'] r'].
Qed.

(** A run that was rejected is rejected again, with the same error, and
    the remote side stays as the first run left it. *)
Lemma mkdir_p_loop_rejected_again names : forall part w e w1 s,
  sftp (dev w) = Some s ->
  mkdir_p_loop part names w = Reject e w1 ->
  forall w1', remote w1' = remote w1 -> dev w1' = dev w1 ->
  exists w2,
    mkdir_p_loop part names w1' = Reject e w2 /\
    remote w2 = remote w1 /\ dev w2 = dev w1.
Proof.
  induction names as [|n names IH]; intros part w e w1 s Hs; [done|].
  rewrite (mkdir_p_loop_step part n names w s Hs). cbv zeta.
  set (p := posix.join part n). intros Hfirst w1' Hr Hd.
  assert (Hs1 : dev w1 = dev w).
  { pose proof (mkdir_p_loop_keeps_dirs part (n :: names) w) as Hk.
    rewrite (mkdir_p_loop_step part n names w s Hs) in Hk. cbv zeta in Hk.
    fold p in Hk. rewrite Hfirst in Hk. apply Hk. }
  assert (Hs' : sftp (dev w1') = Some s) by by rewrite Hd, Hs1.
  rewrite (mkdir_p_loop_step part n names w1' s Hs'). cbv zeta. fold p.
  rewrite Hr.
  (* a directory at [p] when the rest of the first run started is still one *)
  assert (Hpass : forall w0,
            sftp (dev w0) = Some s -> dev w0 = dev w ->
            dir_at (remote w0) p ->
            mkdir_p_loop p names w0 = Reject e w1 ->
            exists w2,
              match (server_stat p (remote w1)).1 with
              | Success st =>
                  if isDirectory st
                  then mkdir_p_loop p names (log_call (sftp_stat p) w1')
                  else Reject (not_a_directory p) (log_call (sftp_stat p) w1')
              | Failure e0 =>
                  if bool_decide (code e0 ≠ Some SFTP_STATUS_CODE.NO_SUCH_FILE)
                  then Reject e0 (log_call (sftp_stat p) w1')
                  else
                    match server_mkdir p (remote w1) with
                    | (Success _, r') =>
                        mkdir_p_loop p names
                          (set_remote r'
                             (log_call (sftp_mkdir p) (log_call (sftp_stat p) w1')))
                    | (Failure e', r') =>
                        Reject e'
                          (set_remote r'
                             (log_call (sftp_mkdir p) (log_call (sftp_stat p) w1')))
                    end
              end = Reject e w2 /\ remote w2 = remote w1 /\ dev w2 = dev w1).
  { intros w0 Hs0 Hd0 Hdir Hrest.
    pose proof (mkdir_p_loop_keeps_dirs p names w0) as Hk.
    rewrite Hrest in Hk. destruct Hk as [_ Hk].
    destruct (dir_at_server_stat p (remote w1) (Hk p Hdir))
      as (st & Hst1 & Hdir1).
    rewrite Hst1. simpl. rewrite Hdir1.
    eapply (IH p w0 e w1 s Hs0 Hrest); [done|by simpl]. }
  destruct (server_stat p (remote w)).1 as [st|e0] eqn:Hst.
  - destruct (isDirectory st) eqn:Hdir.
    + eapply (Hpass (log_call (sftp_stat p) w)); try done.
      by eapply server_stat_dir_at.
    + injection Hfirst as <- <-. simpl. rewrite Hst, Hdir.
      by eexists.
  - case_bool_decide as Hc.
    + injection Hfirst as <- <-. simpl. rewrite Hst.
      rewrite bool_decide_eq_true_2 by done. by eexists.
    + pose proof (server_mkdir_spec p (remote w)) as Hmk.
      destruct (server_mkdir p (remote w)) as [[[]|e'] r'] eqn:Hmkdir.
      * destruct Hmk as [Hnew _].
        assert (Hdir : dir_at r' p)
          by (apply Hnew; by eapply server_stat_missing).
        by eapply (Hpass (set_remote r'
                     (log_call (sftp_mkdir p) (log_call (sftp_stat p) w)))).
      * subst r'. injection Hfirst as <- <-. simpl. rewrite Hst.
        rewrite bool_decide_eq_false_2 by (by intros ?).
        rewrite Hmkdir. by eexists.
Qed.

(** The same for [mkdir_p] itself: a rejected call is rejected again with
    the same error and changes nothing on the remote side. *)
Lemma mkdir_p_rejected_again p w e w1 :
  mkdir_p p w = Reject e w1 ->
  exists w2,
    mkdir_p p w1 = Reject e w2 /\ remote w2 = remote w1 /\ dev w2 = dev w1.
Proof.
  unfold mkdir_p. destruct (posix.isAbsolute p) eqn:Ha; simpl.
  - destruct (sftp (dev w)) as [s|] eqn:Hs.
    + intros Hm. by eapply mkdir_p_loop_rejected_again.
    + pose proof (mkdir_p_not_connected p w Ha Hs) as Hn.
      unfold mkdir_p in Hn. rewrite Ha in Hn. simpl in Hn. rewrite Hn.
      intros [= <- <-]. rewrite Hn. by eexists.
  - intros [= <- <-]. by eexists.
Qed.

(** ** Paths of children *)

Lemma isAbsolute_app a b :
  a <> "" -> posix.isAbsolute (a +:+ "/" +:+ b) = posix.isAbsolute a.
Proof. by destruct a. Qed.

Lemma resolve_from_snoc f segs : forall stack,
  plain_name f = true ->
  resolve_from stack (segs ++ [f]) = (resolve_from stack segs ++ [f])%list.
Proof.
  intros stack Hf. unfold plain_name in Hf.
  repeat (apply andb_prop in Hf as [Hf ?]).
  repeat match goal with
  | H : negb (bool_decide _) = true |- _ =>
      apply negb_true_iff, bool_decide_eq_false in H
  end.
  revert stack. induction segs as [|s segs IH]; intros stack; simpl.
  - rewrite !bool_decide_eq_false_2 by done. done.
  - repeat case_bool_decide; simpl; apply IH.
Qed.

Lemma resolve_child r p f :
  p <> "" -> plain_name f = true ->
  resolve r (p +:+ "/" +:+ f) = (resolve r p ++ [f])%list.
Proof.
  intros Hp Hf. unfold resolve.
  rewrite isAbsolute_app, split_app by done.
  assert (Hs : posix.split f = [f]).
  { unfold plain_name in Hf. repeat (apply andb_prop in Hf as [Hf _]).
    by apply bool_decide_eq_true in Hf. }
  rewrite Hs. by apply resolve_from_snoc.
Qed.

Lemma child_path_nonempty p f : p +:+ "/" +:+ f <> "".
Proof. by destruct p. Qed.

(** ** Removing entries from the tree *)

Lemma split_last_snoc segs name : split_last (segs ++ [name]) = Some (segs, name).
Proof.
  induction segs as [|s segs IH]; [done|]. simpl.
  rewrite IH. by destruct (segs ++ [name])%list eqn:E; [destruct segs|].
Qed.

Lemma split_last_None segs : split_last segs = None -> segs = [].
Proof.
  destruct segs as [|x l _] using rev_ind; [done|]. by rewrite split_last_snoc.
Qed.

Lemma remove_at_snoc segs name t :
  remove_at (segs ++ [name]) t = update_dir segs (remove_entry name) t.
Proof. unfold remove_at. by rewrite split_last_snoc. Qed.

Lemma find_node_update_dir_same f segs : forall t es,
  find_node segs t = Some (Dir es) ->
  find_node segs (update_dir segs f t) = Some (Dir (f es)).
Proof.
  induction segs as [|s segs IH]; intros t es; simpl.
  - by intros [= ->].
  - destruct t as [b|es0]; [done|].
    destruct (lookup_entry s es0) as [c|] eqn:Hl; [|done]. intros Hf.
    rewrite lookup_alter_entry, Hl, bool_decide_eq_true_2 by done. simpl.
    by apply IH.
Qed.

Lemma alter_entry_ext g g' s es :
  (forall c, g c = g' c) -> alter_entry g s es = alter_entry g' s es.
Proof.
  intros Hg. induction es as [|[k c] es IH]; simpl; [done|].
  by rewrite IH, Hg.
Qed.

Lemma alter_entry_compose g g' s es :
  alter_entry g s (alter_entry g' s es) = alter_entry (fun c => g (g' c)) s es.
Proof.
  induction es as [|[k c] es IH]; simpl; [done|].
  rewrite IH. by case_bool_decide.
Qed.

Lemma remove_entry_alter g name es :
  remove_entry name (alter_entry g name es) = remove_entry name es.
Proof.
  induction es as [|[k c] es IH]; simpl; [done|].
  rewrite IH. by case_bool_decide.
Qed.

Lemma remove_entry_absent name es :
  name ∉ (map fst es) -> remove_entry name es = es.
Proof.
  induction es as [|[k c] es IH]; simpl; [done|]. intros Hn.
  apply not_elem_of_cons in Hn as [Hk Hn].
  rewrite bool_decide_eq_false_2 by done. by rewrite IH.
Qed.

Lemma update_dir_ext f f' segs : forall t,
  (forall es, f es = f' es) -> update_dir segs f t = update_dir segs f' t.
Proof.
  induction segs as [|s segs IH]; intros t Hf; destruct t as [b|es]; simpl;
    try done.
  - by rewrite Hf.
  - f_equal. apply alter_entry_ext. intros c. by apply IH.
Qed.

Lemma update_dir_compose f g segs : forall t,
  update_dir segs g (update_dir segs f t) = update_dir segs (fun es => g (f es)) t.
Proof.
  induction segs as [|s segs IH]; intros t; destruct t as [b|es]; simpl;
    try done.
  f_equal. rewrite alter_entry_compose. apply alter_entry_ext. intros c.
  apply IH.
Qed.

(** Removing an entry forgets whatever was changed inside it. *)
Lemma remove_at_update_dir f name parent : forall t,
  update_dir parent (remove_entry name) (update_dir (parent ++ [name]) f t)
  = update_dir parent (remove_entry name) t.
Proof.
  induction parent as [|s parent IH]; intros t; destruct t as [b|es]; simpl;
    try done.
  - by rewrite remove_entry_alter.
  - f_equal. rewrite alter_entry_compose. apply alter_entry_ext. intros c.
    apply IH.
Qed.

Lemma removal_Dir p es :
  removal p (Dir es) =
    ([sftp_stat p; sftp_readdir p] ++ removal_of_entries p es ++ [sftp_rmdir p])%list.
Proof.
  simpl. do 3 f_equal. unfold removal_of_entries.
  induction es as [|[k c] es IH]; simpl; [done|]. by rewrite IH.
Qed.

Lemma wf_node_Dir es :
  wf_node (Dir es) = true ->
  names_ok (map fst es) = true /\ Forall (fun e => wf_node (snd e) = true) es.
Proof.
  simpl. intros H. apply andb_prop in H as [Hn Hall]. split; [done|].
  clear Hn. induction es as [|[k c] es IH]; [constructor|].
  apply andb_prop in Hall as [Hc Hall]. constructor; [done|by apply IH].
Qed.

Lemma height_Dir es :
  Forall (fun e => (height (snd e) < height (Dir es))%nat) es.
Proof.
  simpl. induction es as [|[k c] es IH]; constructor; simpl; [lia|].
  eapply Forall_impl; [exact IH|]. simpl. intros e He. lia.
Qed.

Lemma names_ok_cons k ks :
  names_ok (k :: ks) = true ->
  plain_name k = true /\ (k ∉ ks) /\ names_ok ks = true.
Proof.
  unfold names_ok. simpl. intros H.
  apply andb_prop in H as [H Hnd]. apply andb_prop in H as [Hk Hks].
  apply bool_decide_eq_true in Hnd. apply NoDup_cons in Hnd as [Hn Hnd].
  repeat split; try done. rewrite Hks. by apply bool_decide_eq_true_2.
Qed.

(** ** Recursive removal on a cooperative remote *)

Lemma request_connected {A} c (srv : Remote -> Reply A * Remote) w s :
  sftp (dev w) = Some s ->
  with_sftp (fun _ => request c srv) w =
    match srv (remote w) with
    | (Success a, r') => Resolve a (set_remote r' (log_call c w))
    | (Failure e, r') => Reject e (set_remote r' (log_call c w))
    end.
Proof.
  intros Hs. rewrite (with_sftp_some _ _ _ Hs). unfold request. simpl.
  by destruct (srv (remote w)) as [[a|e] r'].
Qed.

Lemma cooperative_is_in r segs :
  cooperative r ->
  is_in segs (unreadable r) = false /\ is_in segs (locked r) = false.
Proof.
  intros [-> ->]. unfold is_in.
  split; apply bool_decide_eq_false_2, not_elem_of_nil.
Qed.

Lemma set_tree_twice t t' r : set_tree t (set_tree t' r) = set_tree t r.
Proof. done. Qed.

Lemma set_tree_same r : set_tree (tree r) r = r.
Proof. by destruct r. Qed.

Lemma update_dir_id f segs : forall t,
  (forall es, f es = es) -> update_dir segs f t = t.
Proof.
  induction segs as [|s segs IH]; intros t Hf; destruct t as [b|es]; simpl;
    try done.
  - by rewrite Hf.
  - f_equal. induction es as [|[k c] es IHes]; simpl; [done|].
    rewrite IHes. case_bool_decide; [|done]. by rewrite IH.
Qed.

Lemma elem_of_remove_entry e k es :
  e ∈ remove_entry k es -> e ∈ es /\ fst e <> k.
Proof.
  induction es as [|[k' c] es IH]; simpl; [by intros ?%elem_of_nil|].
  case_bool_decide as Hk.
  - intros [? ?]%IH. split; [apply elem_of_cons; by right|done].
  - intros [->|He]%elem_of_cons; [split; [apply elem_of_cons; by left|done]|].
    apply IH in He as [? ?]. split; [apply elem_of_cons; by right|done].
Qed.

Lemma elem_of_map_fst (e : string * Node) es : e ∈ es -> fst e ∈ map fst es.
Proof.
  induction es as [|e' es IH]; [by intros ?%elem_of_nil|].
  intros [->|He]%elem_of_cons; simpl; apply elem_of_cons; [by left|].
  right. by apply IH.
Qed.

Lemma remove_entries_all names : forall es,
  (forall e, e ∈ es -> fst e ∈ names) -> remove_entries names es = [].
Proof.
  induction names as [|k names IH]; intros es Hes; simpl.
  - destruct es as [|e es]; [done|].
    exfalso. eapply elem_of_nil, (Hes e). apply elem_of_cons. by left.
  - apply IH. intros e [He Hk]%elem_of_remove_entry.
    specialize (Hes e He). by apply elem_of_cons in Hes as [?|?].
Qed.

Lemma remove_entries_own es : remove_entries (map fst es) es = [].
Proof. apply remove_entries_all. intros e He. by apply elem_of_map_fst. Qed.

(** The loop over the listing, given that [rm_rf] with this fuel removes
    every child. *)
Lemma rm_rf_children fuel p :
  (forall t q w, (height t < fuel)%nat -> removable q t w -> removes fuel q t w) ->
  p <> "" ->
  forall es w s,
    names_ok (map fst es) = true ->
    Forall (fun e => wf_node (snd e) = true /\ (height (snd e) < fuel)%nat) es ->
    sftp (dev w) = Some s ->
    cooperative (remote w) ->
    find_node (resolve (remote w) p) (tree (remote w)) = Some (Dir es) ->
    exists w',
      for_of (map entry_of es)
             (fun f => rm_rf fuel (p +:+ "/" +:+ filename f)) w = Resolve tt w' /\
      dev w' = dev w /\
      remote w' =
        set_tree (update_dir (resolve (remote w) p)
                             (remove_entries (map fst es))
                             (tree (remote w))) (remote w) /\
      calls w' = (calls w ++ removal_of_entries p es)%list.
Proof.
  intros IHfuel Hp es.
  induction es as [|[k c] es IH]; intros w s Hnames Hall Hs Hco Hfind; simpl.
  - exists w. unfold_m. split; [done|]. split; [done|].
    split; [|by rewrite app_nil_r].
    by rewrite update_dir_id, set_tree_same.
  - apply names_ok_cons in Hnames as (Hk & Hfresh & Hnames).
    apply Forall_cons in Hall as [[Hwf Hh] Hall]. simpl in Hwf, Hh.
    assert (Hc : removable (p +:+ "/" +:+ k) c w).
    { split; [done|]. split; [by exists s|]. split; [done|].
      split; [apply child_path_nonempty|].
      rewrite resolve_child by done. split; [by destruct (resolve (remote w) p)|].
      rewrite find_node_app, Hfind. simpl. by rewrite bool_decide_eq_true_2. }
    destruct (IHfuel c _ w Hh Hc) as (w1 & Hrm & Hd1 & Hr1 & Hc1).
    rewrite resolve_child, remove_at_snoc in Hr1 by done.
    unfold_m. simpl. rewrite Hrm.
    assert (Hres : resolve (remote w1) p = resolve (remote w) p)
      by by rewrite Hr1.
    destruct (IH w1 s Hnames Hall) as (w2 & Hfor & Hd2 & Hr2 & Hc2).
    + by rewrite Hd1.
    + rewrite Hr1. by destruct Hco.
    + rewrite Hres, Hr1. simpl.
      erewrite find_node_update_dir_same by done. simpl.
      rewrite bool_decide_eq_true_2 by done.
      by rewrite remove_entry_absent.
    + exists w2. split; [done|]. split; [by rewrite Hd2|].
      split.
      * rewrite Hr2, Hres, Hr1. simpl. rewrite set_tree_twice.
        by rewrite update_dir_compose.
      * rewrite Hc2, Hc1. unfold removal_of_entries. simpl.
        by rewrite <- app_assoc.
Qed.

Lemma rm_rf_removes fuel : forall t p w,
  (height t < fuel)%nat -> removable p t w -> removes fuel p t w.
Proof.
  induction fuel as [|fuel IH]; intros t p w Hh; [lia|].
  intros (Hwf & [s Hs] & Hco & Hp & Hroot & Hfind).
  destruct (cooperative_is_in (remote w) (resolve (remote w) p) Hco)
    as [Hread Hlock].
  unfold removes. simpl rm_rf. unfold_m.
  rewrite (stat_connected p w s Hs). unfold server_stat.
  rewrite Hread, Hfind. simpl. rewrite isDirectory_stats_of.
  destruct t as [b|es]; cbn [is_dir]; cbv beta.
  - unfold rm. erewrite request_connected by exact Hs.
    unfold server_unlink. simpl. rewrite Hfind, Hlock.
    eexists. split; [reflexivity|]. simpl.
    split; [done|]. split; [done|]. by rewrite <- app_assoc.
  - unfold ls. erewrite request_connected by exact Hs.
    unfold server_readdir. simpl remote. rewrite Hread, Hfind.
    apply wf_node_Dir in Hwf as [Hnames Hwfs].
    pose proof (height_Dir es) as Hhs.
    set (w1 := set_remote (remote w) _).
    destruct (rm_rf_children fuel p IH Hp es w1 s Hnames) as
      (w2 & Hfor & Hd2 & Hr2 & Hc2); try done.
    { apply Forall_forall. intros e He.
      rewrite Forall_forall in Hwfs, Hhs. split; [by apply Hwfs|].
      specialize (Hhs e He). lia. }
    change (map (fun e => mkFileEntry (fst e) (stats_of (snd e))) es)
      with (map entry_of es).
    rewrite Hfor. simpl in Hr2, Hd2, Hc2.
    unfold rmdir. erewrite request_connected by (rewrite Hd2; exact Hs).
    unfold server_rmdir. rewrite Hr2, !resolve_set_tree.
    cbn [tree set_tree locked].
    erewrite find_node_update_dir_same by done.
    rewrite remove_entries_own, Hlock.
    rewrite bool_decide_eq_false_2 by done.
    eexists. split; [reflexivity|].
    cbn [dev remote calls set_remote log_call].
    split; [done|]. split.
    + rewrite set_tree_twice. f_equal. unfold remove_at.
      destruct (split_last (resolve (remote w) p)) as [[parent name]|] eqn:Hsp.
      * apply split_last_app in Hsp. rewrite Hsp.
        apply remove_at_update_dir.
      * by apply split_last_None in Hsp.
    + rewrite Hc2, removal_Dir. subst w1. cbn [calls set_remote log_call].
      by rewrite <- !app_assoc.
Qed.

(** ** When a removal fails *)


Lemma find_node_update_remove name q : forall parent t,
  is_Some (find_node q (update_dir parent (remove_entry name) t)) ->
  is_Some (find_node q t).
Proof.
  induction q as [|s q IH]; intros parent t; simpl; [done|].
  destruct t as [b|es]; [by destruct parent|].
  destruct parent as [|s' parent]; simpl.
  - rewrite lookup_remove_entry. by case_bool_decide.
  - rewrite lookup_alter_entry. case_bool_decide; [|done].
    destruct (lookup_entry s es) as [c|]; simpl; [apply IH|done].
Qed.

Lemma find_node_remove_at segs q t :
  is_Some (find_node q (remove_at segs t)) -> is_Some (find_node q t).
Proof.
  unfold remove_at. destruct (split_last segs) as [[parent name]|]; [|done].
  apply find_node_update_remove.
Qed.

Lemma nothing_restored_refl w : nothing_restored w w.
Proof. by intros segs. Qed.

Lemma nothing_restored_trans w1 w2 w3 :
  nothing_restored w1 w2 -> nothing_restored w2 w3 -> nothing_restored w1 w3.
Proof. intros H12 H23 segs H. by apply H12, H23. Qed.

Lemma request_nothing_restored {A} c (srv : Remote -> Reply A * Remote) :
  (forall r q, is_Some (find_node q (tree (srv r).2)) ->
               is_Some (find_node q (tree r))) ->
  respects nothing_restored (with_sftp (fun _ => request c srv)).
Proof.
  intros Hsrv w. unfold with_sftp. unfold_m.
  destruct (sftp (dev w)); [|apply nothing_restored_refl].
  unfold request. simpl. specialize (Hsrv (remote w)).
  by destruct (srv (remote w)) as [[a|e] r'].
Qed.

Lemma stat_nothing_restored p : respects nothing_restored (stat p).
Proof.
  apply request_nothing_restored. intros r q.
  by rewrite server_stat_remote.
Qed.

Lemma ls_nothing_restored p : respects nothing_restored (ls p).
Proof.
  apply request_nothing_restored. intros r q. unfold server_readdir.
  destruct (is_in _ _); [done|].
  by destruct (find_node (resolve r p) (tree r)) as [[]|].
Qed.

Lemma rm_nothing_restored p : respects nothing_restored (rm p).
Proof.
  apply request_nothing_restored. intros r q. unfold server_unlink.
  destruct (find_node (resolve r p) (tree r)) as [[]|]; try done.
  destruct (is_in _ _); [done|]. apply find_node_remove_at.
Qed.

Lemma rmdir_nothing_restored p : respects nothing_restored (rmdir p).
Proof.
  apply request_nothing_restored. intros r q. unfold server_rmdir.
  destruct (find_node (resolve r p) (tree r)) as [[|[]]|]; try done.
  destruct (is_in _ _); [done|]. case_bool_decide; [done|].
  apply find_node_remove_at.
Qed.

Lemma rm_rf_nothing_restored fuel p :
  respects nothing_restored (rm_rf fuel p).
Proof.
  apply rm_rf_respects.
  - apply nothing_restored_refl.
  - apply nothing_restored_trans.
  - apply stat_nothing_restored.
  - apply ls_nothing_restored.
  - apply rm_nothing_restored.
  - apply rmdir_nothing_restored.
Qed.

Lemma rm_rf_journal_grows fuel p : respects journal_grows (rm_rf fuel p).
Proof. apply respects_rm_rf; journal_side. Qed.

Lemma for_of_rejected {A} (body : A -> M unit) e w' : forall l w,
  for_of l body w = Reject e w' ->
  exists x w0, x ∈ l /\ body x w0 = Reject e w'.
Proof.
  induction l as [|x l IH]; intros w; simpl; [done|]. unfold_m.
  destruct (body x w) as [[] w1|e1 w1|] eqn:Hb; [| |done].
  - intros (y & w0 & Hy & Hr)%IH. exists y, w0.
    split; [apply elem_of_cons; by right|done].
  - intros [= -> ->]. exists x, w. split; [apply elem_of_cons; by left|done].
Qed.

(** A rejected [rm_rf] rejects with the error of the request that failed,
    in the world that request left. *)
Lemma rm_rf_rejected fuel : forall p w e w',
  rm_rf fuel p w = Reject e w' -> originates e w'.
Proof.
  induction fuel as [|fuel IH]; intros p w e w'; simpl; [done|]. unfold_m.
  destruct (stat p w) as [st w1|e1 w1|] eqn:Hst; [| |done].
  - destruct (isDirectory st).
    + destruct (ls p w1) as [fs w2|e2 w2|] eqn:Hls; [| |done].
      * destruct (for_of fs _ w2) as [[] w3|e3 w3|] eqn:Hfor; [| |done].
        -- intros Hr. by eapply from_rmdir.
        -- intros [= -> ->].
           apply for_of_rejected in Hfor as (f & w0 & _ & Hf). by eapply IH.
      * intros [= -> ->]. by eapply from_ls.
    + intros Hr. by eapply from_rm.
  - intros [= -> ->]. by eapply from_stat.
Qed.

(** The example: everything under [/p] goes, children first. *)
Lemma rm_rf_example :
  exists w',
    rm_rf 3 "/p" (online (quiet example_tree)) = Resolve tt w' /\
    filter is_mutation (calls w') =
      [sftp_unlink "/p/f1"; sftp_unlink "/p/f2"; sftp_unlink "/p/d/f3";
       sftp_rmdir "/p/d"; sftp_rmdir "/p"] /\
    tree (remote w') = Dir [].
Proof. eexists. split; [vm_compute; reflexivity|]. split; reflexivity. Qed.

(** With [/p/f2] locked the call stops there: [f1] stays removed and the
    rest stays in place. *)
Lemma rm_rf_example_locked :
  exists w',
    rm_rf 3 "/p" (online f2_locked) = Reject permission_denied w' /\
    calls w' = [sftp_stat "/p"; sftp_readdir "/p";
                sftp_stat "/p/f1"; sftp_unlink "/p/f1";
                sftp_stat "/p/f2"; sftp_unlink "/p/f2"] /\
    tree (remote w') =
      Dir [("p", Dir [("f2", File 2); ("d", Dir [("f3", File 3)])])].
Proof. eexists. split; [vm_compute; reflexivity|]. split; reflexivity. Qed.

(** ** What a rejected removal leaves behind *)

Lemma find_node_remove_at_self segs t n :
  find_node segs t = Some n -> segs <> [] ->
  find_node segs (remove_at segs t) = None.
Proof.
  intros Hf Hne.
  destruct (exists_last Hne) as (parent & name & ->).
  rewrite remove_at_snoc. rewrite find_node_app in *.
  destruct (find_node parent t) as [x|] eqn:Hp; [|done]. simpl in Hf.
  destruct x as [b|es]; [done|].
  rewrite (find_node_update_dir_same _ _ _ _ Hp). simpl.
  rewrite lookup_remove_entry. by rewrite bool_decide_eq_true_2.
Qed.

Lemma deletions_app l1 l2 : deletions (l1 ++ l2) = (deletions l1 ++ deletions l2)%list.
Proof. apply omap_app. Qed.

Lemma without_app r l1 l2 t :
  without r (l1 ++ l2) t = without r l2 (without r l1 t).
Proof. apply fold_left_app. Qed.

Lemma find_node_without r paths segs : forall t,
  find_node segs t = None -> find_node segs (without r paths t) = None.
Proof.
  induction paths as [|q paths IH]; intros t Hf; simpl; [done|].
  apply IH. destruct (find_node segs (remove_at (resolve r q) t)) eqn:Hq; [|done].
  assert (Hs : is_Some (find_node segs t)).
  { apply (find_node_remove_at (resolve r q)). by rewrite Hq. }
  rewrite Hf in Hs. by destruct Hs.
Qed.

Lemma is_dir_remove_at segs t : is_dir (remove_at segs t) = is_dir t.
Proof.
  unfold remove_at. destruct (split_last segs) as [[parent name]|]; [|done].
  apply is_dir_update_dir.
Qed.

Lemma is_dir_without r paths : forall t, is_dir (without r paths t) = is_dir t.
Proof.
  induction paths as [|q paths IH]; intros t; simpl; [done|].
  by rewrite IH, is_dir_remove_at.
Qed.

Lemma removed_upto_refl w : removed_upto w [] w.
Proof.
  unfold removed_upto. simpl. rewrite app_nil_r, set_tree_same.
  repeat split; done.
Qed.

Lemma removed_upto_trans w d1 w1 d2 w2 :
  removed_upto w d1 w1 -> removed_upto w1 d2 w2 -> removed_upto w (d1 ++ d2) w2.
Proof.
  intros (Hd1 & Hc1 & Hf1 & Hp1 & Hr1 & Ha1) (Hd2 & Hc2 & Hf2 & Hp2 & Hr2 & Ha2).
  assert (Hres : forall q, resolve (remote w1) q = resolve (remote w) q).
  { intros q. by rewrite Hr1, resolve_set_tree. }
  assert (Hwo : forall l t, without (remote w1) l t = without (remote w) l t).
  { intros l. induction l as [|q l IH]; intros t; simpl; [done|].
    by rewrite Hres, IH. }
  unfold removed_upto. rewrite deletions_app, without_app.
  split; [congruence|]. split; [by rewrite Hc2, Hc1, app_assoc|].
  split; [congruence|]. split; [congruence|]. split.
  - rewrite Hr2, Hwo. rewrite Hr1 at 1 2. by rewrite set_tree_twice.
  - apply Forall_app. split.
    + rewrite Hr2. cbn [tree set_tree].
      eapply Forall_impl; [exact Ha1|]. intros q Hq. simpl in Hq.
      by apply find_node_without.
    + eapply Forall_impl; [exact Ha2|]. intros q Hq. simpl in Hq.
      by rewrite <- Hres.
Qed.

Lemma removed_upto_ready w d w1 : removed_upto w d w1 -> ready w -> ready w1.
Proof.
  intros (Hd & _ & _ & _ & Hr & _) [Hs Hroot]. split; [by rewrite Hd|].
  rewrite Hr. cbn [tree set_tree]. by rewrite is_dir_without.
Qed.

Lemma removal_trace_after {A} w d w1 (o : Outcome A) :
  removed_upto w d w1 -> removal_trace w1 o -> removal_trace w o.
Proof.
  intros H1. destruct o as [a w2|e w2|]; simpl; [| |done].
  - intros [d2 H2]. exists (d ++ d2)%list. by eapply removed_upto_trans.
  - intros (d2 & c & w0 & H2 & Hp & Hw). exists (d ++ d2)%list, c, w0.
    split; [by eapply removed_upto_trans|done].
Qed.

Lemma removal_trace_bind {A B} (m : M A) (k : A -> M B) w :
  ready w ->
  removal_trace w (m w) ->
  (forall a w1, ready w1 -> removal_trace w1 (k a w1)) ->
  removal_trace w ((m ≫= k) w).
Proof.
  intros Hr Hm Hk. unfold mbind, M_bind.
  destruct (m w) as [a w1|e w1|]; simpl in *; [|done|done].
  destruct Hm as [d Hd]. eapply removal_trace_after; [exact Hd|].
  apply Hk. by eapply removed_upto_ready.
Qed.

(** A request that reads. *)
Lemma reading_trace {A} c (srv : Remote -> Reply A * Remote) w :
  (forall r, (srv r).2 = r) ->
  deletions [c] = [] ->
  perform c = discard (with_sftp (fun _ => request c srv)) ->
  ready w ->
  removal_trace w (with_sftp (fun _ => request c srv) w).
Proof.
  intros Hsrv Hdel Hperf [Hs _].
  destruct (sftp (dev w)) as [s|] eqn:Hsf; [|done].
  pose proof (request_connected c srv w s Hsf) as Hreq.
  specialize (Hsrv (remote w)).
  assert (Hlog : set_remote (remote w) (log_call c w) = log_call c w)
    by (by destruct w).
  destruct (srv (remote w)) as [[a|e] r'] eqn:Hsv; simpl in Hsrv; subst r';
    rewrite Hreq, Hlog; cbn [removal_trace].
  - exists [c]. unfold removed_upto. rewrite Hdel. simpl.
    by rewrite set_tree_same.
  - exists [], c, w. split; [apply removed_upto_refl|]. split; [|done].
    rewrite Hperf. unfold discard, mbind, M_bind. by rewrite Hreq, Hlog.
Qed.

Lemma stat_trace p w : ready w -> removal_trace w (stat p w).
Proof.
  apply reading_trace; [apply server_stat_remote|done|done].
Qed.

Lemma server_readdir_remote p r : (server_readdir p r).2 = r.
Proof.
  unfold server_readdir. destruct (is_in _ _); [done|].
  by destruct (find_node _ _) as [[]|].
Qed.

Lemma ls_trace p w : ready w -> removal_trace w (ls p w).
Proof.
  apply reading_trace; [apply server_readdir_remote|done|done].
Qed.

(** A request that deletes: on success the entry is out of the tree. *)
Lemma deleting_trace c p (srv : Remote -> Reply unit * Remote) w :
  (forall r,
     is_dir (tree r) = true ->
     match srv r with
     | (Success _, r') =>
         r' = set_tree (remove_at (resolve r p) (tree r)) r /\
         resolve r p <> [] /\ is_Some (find_node (resolve r p) (tree r))
     | (Failure _, r') => r' = r
     end) ->
  deletions [c] = [p] ->
  perform c = with_sftp (fun _ => request c srv) ->
  ready w ->
  removal_trace w (with_sftp (fun _ => request c srv) w).
Proof.
  intros Hsrv Hdel Hperf [Hs Hroot].
  destruct (sftp (dev w)) as [s|] eqn:Hsf; [|done].
  pose proof (request_connected c srv w s Hsf) as Hreq.
  specialize (Hsrv (remote w) Hroot).
  assert (Hlog : set_remote (remote w) (log_call c w) = log_call c w)
    by (by destruct w).
  destruct (srv (remote w)) as [[[]|e] r'] eqn:Hsv; rewrite Hreq;
    cbn [removal_trace].
  - destruct Hsrv as (-> & Hne & [n Hn]).
    exists [c]. unfold removed_upto. rewrite Hdel. simpl.
    repeat split; try done. constructor; [|done].
    by eapply find_node_remove_at_self.
  - subst r'. rewrite Hlog. exists [], c, w.
    split; [apply removed_upto_refl|]. split; [|done].
    by rewrite Hperf, Hreq, Hlog.
Qed.

Lemma rm_trace p w : ready w -> removal_trace w (rm p w).
Proof.
  apply (deleting_trace _ p); [|done|done].
  intros r Hroot. unfold server_unlink.
  destruct (find_node (resolve r p) (tree r)) as [[b|es]|] eqn:Hf; try done.
  destruct (is_in _ _); [done|]. split; [done|]. split; [|by eexists].
  intros Hnil. rewrite Hnil in Hf. simpl in Hf. injection Hf as Hf.
  by rewrite Hf in Hroot.
Qed.

Lemma rmdir_trace p w : ready w -> removal_trace w (rmdir p w).
Proof.
  apply (deleting_trace _ p); [|done|done].
  intros r Hroot. unfold server_rmdir.
  destruct (find_node (resolve r p) (tree r)) as [[b|[|x es]]|] eqn:Hf; try done.
  destruct (is_in _ _); [done|]. case_bool_decide; [done|].
  split; [done|]. split; [done|by eexists].
Qed.

Lemma for_of_trace {A} (body : A -> M unit) :
  (forall x w, ready w -> removal_trace w (body x w)) ->
  forall l w, ready w -> removal_trace w (for_of l body w).
Proof.
  intros Hb l. induction l as [|x l IH]; intros w Hr; simpl.
  - exists []. apply removed_upto_refl.
  - apply removal_trace_bind; [done|by apply Hb|]. intros _ w1 Hr1. by apply IH.
Qed.

Lemma rm_rf_trace fuel : forall p w,
  ready w -> removal_trace w (rm_rf fuel p w).
Proof.
  induction fuel as [|fuel IH]; intros p w Hr; simpl; [done|].
  apply removal_trace_bind; [done|by apply stat_trace|]. intros st w1 Hr1.
  destruct (isDirectory st); [|by apply rm_trace].
  apply removal_trace_bind; [done|by apply ls_trace|]. intros fs w2 Hr2.
  apply removal_trace_bind; [done| |intros _ w3 Hr3; by apply rmdir_trace].
  apply for_of_trace; [|done]. intros f w3 Hr3. by apply IH.
Qed.

(** C5. [rm_rf] stats its target; a directory has its listed children
    removed depth first, in listing order, and is then removed with
    [rmdir], anything else is unlinked.  On a cooperative remote the call
    resolves and the target is gone.  A rejected call rejects with the error
    of the request that failed, in the world that request left: nothing
    removed before is put back.  On a device with an open channel that
    request is the last call in the journal and has changed nothing; every
    entry whose unlink or rmdir was asked for before it is absent from the
    tree the call leaves, and that tree is the tree the call found less
    exactly those entries. *)
Theorem rm_rf_removes_depth_first :
  (forall fuel t p w,
     (height t < fuel)%nat -> removable p t w ->
     exists w',
       rm_rf fuel p w = Resolve tt w' /\
       remote w' =
         set_tree (remove_at (resolve (remote w) p) (tree (remote w)))
                  (remote w) /\
       calls w' = (calls w ++ removal p t)%list) /\
  (forall fuel p w e w',
     rm_rf fuel p w = Reject e w' ->
     originates e w' /\ nothing_restored w w' /\ journal_grows w w') /\
  (forall fuel p w e w',
     sftp (dev w) <> None -> is_dir (tree (remote w)) = true ->
     rm_rf fuel p w = Reject e w' ->
     exists done c w0,
       calls w0 = (calls w ++ done)%list /\
       perform c w0 = Reject e w' /\
       w' = log_call c w0 /\
       tree (remote w') =
         without (remote w) (deletions done) (tree (remote w)) /\
       Forall (fun q =>
                 find_node (resolve (remote w) q) (tree (remote w')) = None)
              (deletions done)) /\
  (exists w',
     rm_rf 3 "/p" (online (quiet example_tree)) = Resolve tt w' /\
     filter is_mutation (calls w') =
       [sftp_unlink "/p/f1"; sftp_unlink "/p/f2"; sftp_unlink "/p/d/f3";
        sftp_rmdir "/p/d"; sftp_rmdir "/p"] /\
     tree (remote w') = Dir []) /\
  (exists w',
     rm_rf 3 "/p" (online f2_locked) = Reject permission_denied w' /\
     filter is_mutation (calls w') =
       [sftp_unlink "/p/f1"; sftp_unlink "/p/f2"] /\
     tree (remote w') =
       Dir [("p", Dir [("f2", File 2); ("d", Dir [("f3", File 3)])])]).
Proof.
  split; [|split; [|split; [|split]]].
  - intros fuel t p w Hh Hr.
    destruct (rm_rf_removes fuel t p w Hh Hr) as (w' & Hrm & _ & Hrem & Hc).
    by exists w'.
  - intros fuel p w e w' Hr. split; [by eapply rm_rf_rejected|].
    pose proof (rm_rf_nothing_restored fuel p w) as Hn.
    pose proof (rm_rf_journal_grows fuel p w) as Hj.
    rewrite Hr in Hn, Hj. by split.
  - intros fuel p w e w' Hs Hroot Hr.
    pose proof (rm_rf_trace fuel p w (conj Hs Hroot)) as Ht.
    rewrite Hr in Ht. destruct Ht as (done & c & w0 & Hu & Hp & Hw).
    destruct Hu as (_ & Hc & _ & _ & Hrem & Ha).
    exists done, c, w0. split; [done|]. split; [done|]. split; [done|].
    subst w'. cbn [remote log_call]. split; [by rewrite Hrem|done].
  - exact rm_rf_example.
  - destruct rm_rf_example_locked as (w' & Hr & Hc & Ht).
    exists w'. split; [done|]. split; [by rewrite Hc|done].
Qed.

(** ** Progress reports *)

Lemma number_of_Z_percent_regular k :
  0 <= k <= 100 -> regular (number_of_Z k) = true.
Proof.
  intros Hk.
  assert (Hall : forallb (fun n => regular (number_of_Z (Z.of_nat n)))
                         (seq 0 101) = true) by (vm_compute; reflexivity).
  rewrite forallb_forall in Hall.
  specialize (Hall (Z.to_nat k)). rewrite Z2Nat.id in Hall by lia.
  apply Hall. apply in_seq. lia.
Qed.

Lemma is_percent_regular x : is_percent x -> regular x = true.
Proof. intros (k & Hk & ->). by apply number_of_Z_percent_regular. Qed.

Lemma percentage_zero_total t s : regular (percentage t (S754_zero s)) = false.
Proof. destruct t as [[]|[]| |[] m e]; destruct s; reflexivity. Qed.

Lemma for_of_report (l : list (number * number * number)) : forall w,
  for_of l (fun '(transferred, chunk, total) =>
              step (Some report) transferred chunk total) w
  = Resolve tt
      (mkWorld (dev w) (remote w) (calls w) (fired w)
         (reported w ++ map (fun '(t, _, tot) => percentage t tot) l)%list
         (platform w) (password w) (connectTimeout w)).
Proof.
  induction l as [|[[t c] tot] l IH]; intros w; simpl.
  - rewrite app_nil_r. by destruct w.
  - unfold_m. unfold step, log_report. simpl. rewrite IH. simpl.
    by rewrite <- app_assoc.
Qed.

(** What an observed transfer hands to its callback: one percentage per
    chunk the remote side reports, in order. *)
Lemma transfer_reports c p w :
  exists w',
    world_of (transfer c p (Some report) w) = Some w' /\
    reported w' =
      (reported w ++
       map (fun '(t, _, tot) => percentage t tot) (transfer_steps (remote w) p))%list.
Proof.
  unfold transfer. unfold_m. simpl. rewrite for_of_report. simpl.
  destruct (transfer_error (remote w) p); eexists; split; reflexivity.
Qed.

Lemma get_reports r l w s :
  sftp (dev w) = Some s ->
  exists w',
    world_of (get r l (Some report) w) = Some w' /\
    reported w' =
      (reported w ++
       map (fun '(t, _, tot) => percentage t tot) (transfer_steps (remote w) r))%list.
Proof.
  intros Hs. unfold get. rewrite (with_sftp_some _ _ _ Hs).
  apply transfer_reports.
Qed.

Lemma put_reports l r m w s :
  sftp (dev w) = Some s ->
  exists w',
    world_of (put l r m (Some report) w) = Some w' /\
    reported w' =
      (reported w ++
       map (fun '(t, _, tot) => percentage t tot) (transfer_steps (remote w) r))%list.
Proof.
  intros Hs. unfold put. rewrite (with_sftp_some _ _ _ Hs).
  apply transfer_reports.
Qed.

(** C10. With a total of zero bytes the value computed for the callback
    is never one of the integers 0..100: it is NaN for zero bytes
    transferred.  In [get] and in [put] the callback receives one such value
    per chunk reported, so it is spared only when no chunk is reported. *)
Theorem zero_total_percentage :
  (forall t s, ~ is_percent (percentage t (S754_zero s))) /\
  percentage (number_of_Z 0) (number_of_Z 0) = S754_nan /\
  (forall (transferring : string -> string -> option (number -> M unit) -> M unit)
          w a b s,
     transferring = get \/ (exists m, transferring = fun r l => put l r m) ->
     sftp (dev w) = Some s ->
     Forall (fun '(_, _, tot) => exists sg, tot = S754_zero sg)
            (transfer_steps (remote w) a) ->
     exists w' values,
       world_of (transferring a b (Some report) w) = Some w' /\
       reported w' = (reported w ++ values)%list /\
       length values = length (transfer_steps (remote w) a) /\
       Forall (fun x => ~ is_percent x) values).
Proof.
  assert (H0 : forall t s, ~ is_percent (percentage t (S754_zero s))).
  { intros t s Hp. apply is_percent_regular in Hp.
    by rewrite percentage_zero_total in Hp. }
  split; [exact H0|]. split; [reflexivity|].
  intros transferring w a b s Ht Hs Hz.
  assert (exists w',
    world_of (transferring a b (Some report) w) = Some w' /\
    reported w' =
      (reported w ++
       map (fun '(t, _, tot) => percentage t tot) (transfer_steps (remote w) a))%list)
    as (w' & Hw & Hr).
  { destruct Ht as [-> | [m ->]]; [by eapply get_reports|by eapply put_reports]. }
  exists w', (map (fun '(t, _, tot) => percentage t tot)
                  (transfer_steps (remote w) a)).
  split; [exact Hw|]. split; [exact Hr|]. split; [by rewrite length_map|].
  clear Hw Hr. induction Hz as [|[[t c] tot] l [sg ->] _ IH]; simpl;
    constructor; [apply H0|apply IH].
Qed.

(** ** Binary64 arithmetic on byte counts *)

Lemma digits2_pos_size p : digits2_pos p = Pos.size p.
Proof. induction p; simpl; congruence. Qed.

Lemma digits2_bounds p :
  2 ^ (Z.pos (digits2_pos p) - 1) <= Z.pos p < 2 ^ Z.pos (digits2_pos p).
Proof.
  rewrite digits2_pos_size. split.
  - pose proof (Pos.size_le p) as H.
    assert (H' : 2 ^ Z.pos (Pos.size p) <= 2 * Z.pos p).
    { change (2 * Z.pos p) with (Z.pos p~0). rewrite <- Pos2Z.inj_pow. lia. }
    replace (Z.pos (Pos.size p)) with (Z.pos (Pos.size p) - 1 + 1) in H' by lia.
    rewrite Z.pow_add_r in H' by lia. lia.
  - pose proof (Pos.size_gt p) as H. rewrite <- Pos2Z.inj_pow. lia.
Qed.

Lemma Zdigits2_eq m d :
  0 < d -> 2 ^ (d - 1) <= m < 2 ^ d -> Zdigits2 m = d.
Proof.
  intros Hd [Hlo Hhi].
  assert (0 < m) by (pose proof (Z.pow_pos_nonneg 2 (d - 1)); lia).
  destruct m as [|p|p]; try lia. simpl.
  pose proof (digits2_bounds p) as [Hl Hh].
  set (k := Z.pos (digits2_pos p)) in *.
  destruct (Z.lt_trichotomy k d) as [Hk|[Hk|Hk]]; [|done|].
  - assert (2 ^ k <= 2 ^ (d - 1)) by (apply Z.pow_le_mono_r; lia). lia.
  - assert (2 ^ d <= 2 ^ (k - 1)) by (apply Z.pow_le_mono_r; lia). lia.
Qed.

Lemma shr_1_nonneg m r s :
  0 <= m ->
  shr_1 (Build_shr_record m r s) = Build_shr_record (m / 2) (Z.odd m) (r || s).
Proof.
  intros Hm. destruct m as [|[p|p|]|]; try lia; simpl; try done.
  - f_equal. rewrite Pos2Z.inj_xI. apply (Z.div_unique _ _ _ 1); lia.
  - f_equal. rewrite Pos2Z.inj_xO. apply (Z.div_unique _ _ _ 0); lia.
Qed.

Lemma shr_1_represents mrs a b :
  0 <= a -> 0 < b -> represents mrs a b -> represents (shr_1 mrs) a (2 * b).
Proof.
  intros Ha Hb (Hm & Hr & Hs). destruct mrs as [m r s].
  cbn [shr_m shr_r shr_s] in *.
  assert (Hm0 : 0 <= m) by (rewrite Hm; apply Z.div_pos; lia).
  rewrite shr_1_nonneg by done.
  pose proof (Z.div_mod a b ltac:(lia)) as Hdm.
  pose proof (Z.mod_pos_bound a b Hb) as Hrb.
  set (q := a / b) in *. set (r0 := a mod b) in *.
  pose proof (Z.div_mod q 2 ltac:(lia)) as Hq2.
  pose proof (Z.mod_pos_bound q 2 ltac:(lia)) as Hq2b.
  assert (Hdiv : a / (2 * b) = q / 2).
  { symmetry. apply (Z.div_unique _ _ _ ((q mod 2) * b + r0)); nia. }
  assert (Hmod : a mod (2 * b) = (q mod 2) * b + r0).
  { symmetry. apply (Z.mod_unique _ _ (q / 2)); nia. }
  unfold represents. cbn [shr_m shr_r shr_s]. rewrite Hdiv, Hmod, Hm.
  split; [done|].
  rewrite Hr, Hs. rewrite Zodd_mod.
  assert (q mod 2 = 0 \/ q mod 2 = 1) as [H2|H2] by lia; rewrite H2.
  - split.
    + simpl. symmetry. apply Z.leb_gt. lia.
    + destruct (Z.leb_spec b (2 * r0)), (Z.eqb_spec r0 0),
        (Z.eqb_spec (2 * r0) b), (Z.eqb_spec (0 * b + r0) 0),
        (Z.eqb_spec (2 * (0 * b + r0)) (2 * b)); simpl; try done; lia.
  - split.
    + simpl. symmetry. apply Z.leb_le. lia.
    + destruct (Z.leb_spec b (2 * r0)), (Z.eqb_spec r0 0),
        (Z.eqb_spec (2 * r0) b), (Z.eqb_spec (1 * b + r0) 0),
        (Z.eqb_spec (2 * (1 * b + r0)) (2 * b)); simpl; try done; lia.
Qed.

Lemma iter_pos_nat {A} (f : A -> A) p x :
  SpecFloat.iter_pos f p x = Nat.iter (Pos.to_nat p) f x.
Proof.
  revert x. induction p as [p IH|p IH|]; intros x;
    cbn [SpecFloat.iter_pos]; [| |done].
  - rewrite !IH, Pos2Nat.inj_xI.
    rewrite <- Nat.iter_succ_r, <- Nat.iter_add. f_equal. lia.
  - rewrite !IH, Pos2Nat.inj_xO. rewrite <- Nat.iter_add. f_equal. lia.
Qed.

Lemma iter_shr_1_represents n mrs a b :
  0 <= a -> 0 < b -> represents mrs a b ->
  represents (Nat.iter n shr_1 mrs) a (b * 2 ^ Z.of_nat n).
Proof.
  intros Ha Hb Hr. induction n as [|n IH].
  - simpl. by rewrite Z.mul_1_r.
  - rewrite Nat2Z.inj_succ, Z.pow_succ_r by lia. simpl.
    replace (b * (2 * 2 ^ Z.of_nat n)) with (2 * (b * 2 ^ Z.of_nat n)) by lia.
    apply shr_1_represents; [done| |done].
    pose proof (Z.pow_pos_nonneg 2 (Z.of_nat n)). nia.
Qed.

Lemma shr_represents mrs e p a b :
  0 <= p -> 0 <= a -> 0 < b -> represents mrs a b ->
  represents (fst (shr mrs e p)) a (b * 2 ^ p) /\ snd (shr mrs e p) = e + p.
Proof.
  intros Hp Ha Hb Hr. destruct p as [|p|p]; try lia; simpl.
  - rewrite Z.mul_1_r. split; [done|lia].
  - split; [|done]. rewrite iter_pos_nat.
    rewrite <- (positive_nat_Z p). by apply iter_shr_1_represents.
Qed.

Lemma round_nearest_even_rne mrs a b :
  0 <= a -> 0 < b -> represents mrs a b ->
  round_nearest_even (shr_m mrs) (loc_of_shr_record mrs) = rne a b.
Proof.
  intros Ha Hb (Hm & Hr & Hs). destruct mrs as [m r s]. simpl in *.
  unfold rne. subst m.
  pose proof (Z.mod_pos_bound a b Hb) as Hrb.
  destruct (Z.ltb_spec (2 * (a mod b)) b), (Z.ltb_spec b (2 * (a mod b)));
    destruct (Z.leb_spec b (2 * (a mod b))), (Z.eqb_spec (a mod b) 0),
      (Z.eqb_spec (2 * (a mod b)) b);
    simpl in *; subst; simpl; try lia; try done.
Qed.

Lemma shr_record_of_loc_exact a :
  0 <= a -> represents (shr_record_of_loc a loc_Exact) a 1.
Proof.
  intros Ha. unfold represents. simpl.
  rewrite Z.div_1_r, Z.mod_1_r. done.
Qed.

Lemma shr_record_of_new_location a b :
  0 <= a -> 0 < b ->
  represents (shr_record_of_loc (a / b) (new_location b (a mod b))) a b.
Proof.
  intros Ha Hb. pose proof (Z.mod_pos_bound a b Hb) as Hrb.
  unfold new_location, new_location_even, new_location_odd, represents.
  destruct (Z.even b) eqn:He; destruct (Z.eqb_spec (a mod b) 0) as [H0|H0].
  - rewrite H0. simpl. repeat split. symmetry. apply Z.leb_gt. lia.
  - destruct (Z.compare_spec (2 * (a mod b)) b); simpl; repeat split;
      destruct (Z.leb_spec b (2 * (a mod b))), (Z.eqb_spec (2 * (a mod b)) b);
      try done; lia.
  - rewrite H0. simpl. repeat split. symmetry. apply Z.leb_gt. lia.
  - assert (Hodd : 2 * (a mod b) <> b).
    { intros Heq. rewrite <- Heq in He. by rewrite Z.even_mul in He. }
    destruct (Z.compare_spec (2 * (a mod b) + 1) b); simpl; repeat split;
      destruct (Z.leb_spec b (2 * (a mod b))), (Z.eqb_spec (2 * (a mod b)) b);
      try done; lia.
Qed.

Lemma rne_range a b :
  0 < b -> a / b <= rne a b <= a / b + 1.
Proof.
  intros Hb. unfold rne.
  repeat match goal with |- context [if ?c then _ else _] => destruct c end; lia.
Qed.

Lemma fexp_normal k : -1074 <= k -> fexp prec emax (53 + k) = k.
Proof. intros Hk. unfold fexp, SpecFloat.emin, prec, emax. lia. Qed.

Lemma div_div_pow a b p :
  0 < b -> 0 <= p -> a / (b * 2 ^ p) = a / b / 2 ^ p.
Proof.
  intros Hb Hp. rewrite Z.div_div; [done|lia|].
  apply Z.pow_pos_nonneg; lia.
Qed.

Lemma shr_two53 e0 :
  shr (shr_record_of_loc (2 ^ 53) loc_Exact) e0 1
  = (Build_shr_record (2 ^ 52) false false, e0 + 1).
Proof. unfold shr. f_equal. Qed.

(** Rounding a quotient whose integer part has [53 + p] bits: the mantissa
    is the quotient by [b * 2^p] rounded to nearest even, renormalised when
    the rounding reaches [2^53]. *)
Lemma binary_round_aux_normal a b e p loc :
  0 <= a -> 0 < b -> 0 <= p ->
  2 ^ (52 + p) <= a / b < 2 ^ (53 + p) ->
  -1074 <= e + p -> e + p + 1 <= 971 ->
  represents (shr_record_of_loc (a / b) loc) a b ->
  binary_round_aux prec emax false (a / b) e loc =
    if rne a (b * 2 ^ p) =? 2 ^ 53
    then S754_finite false (Z.to_pos (2 ^ 52)) (e + p + 1)
    else S754_finite false (Z.to_pos (rne a (b * 2 ^ p))) (e + p).
Proof.
  intros Ha Hb Hp Hq Hlo Hhi Hrep.
  unfold binary_round_aux, shr_fexp.
  assert (Hd0 : Zdigits2 (a / b) = 53 + p).
  { apply Zdigits2_eq; [lia|]. by replace (53 + p - 1) with (52 + p) by lia. }
  rewrite Hd0.
  replace (53 + p + e) with (53 + (e + p)) by lia.
  rewrite fexp_normal by lia. replace (e + p - e) with p by lia.
  destruct (shr_represents _ e p a b Hp Ha Hb Hrep) as [Hrep' He'].
  destruct (shr (shr_record_of_loc (a / b) loc) e p) as [mrs' e'].
  simpl in Hrep', He'. subst e'.
  assert (Hb' : 0 < b * 2 ^ p) by (pose proof (Z.pow_pos_nonneg 2 p); nia).
  rewrite (round_nearest_even_rne mrs' a (b * 2 ^ p)) by done.
  pose proof (rne_range a (b * 2 ^ p) Hb') as Hr.
  rewrite div_div_pow in Hr by done.
  assert (Hq' : 2 ^ 52 <= a / b / 2 ^ p < 2 ^ 53).
  { pose proof (Z.pow_pos_nonneg 2 p ltac:(lia) Hp) as Hpp.
    rewrite !Z.pow_add_r in Hq by lia. split.
    - apply Z.div_le_lower_bound; lia.
    - apply Z.div_lt_upper_bound; lia. }
  set (m1 := rne a (b * 2 ^ p)) in *.
  destruct (Z.eqb_spec m1 (2 ^ 53)) as [Heq|Hne].
  - rewrite Heq.
    assert (Hd1 : Zdigits2 (2 ^ 53) = 54) by reflexivity. rewrite Hd1.
    replace (54 + (e + p)) with (53 + (e + p + 1)) by lia.
    rewrite fexp_normal by lia. replace (e + p + 1 - (e + p)) with 1 by lia.
    rewrite shr_two53. cbn [shr_m].
    replace (e + p + 1 <=? emax - prec) with true; [done|].
    symmetry. apply Z.leb_le. unfold emax, prec. lia.
  - rewrite (Zdigits2_eq m1 53) by lia.
    rewrite fexp_normal by lia. rewrite Z.sub_diag. cbn [shr fst snd shr_m shr_record_of_loc].
    destruct m1 as [|m|m] eqn:Hm; try lia.
    replace (e + p <=? emax - prec) with true; [done|].
    symmetry. apply Z.leb_le. unfold emax, prec. lia.
Qed.

Lemma rne_mono a1 a2 b :
  0 < b -> 0 <= a1 <= a2 -> rne a1 b <= rne a2 b.
Proof.
  intros Hb [Ha1 Ha]. 
  assert (Hq : a1 / b <= a2 / b) by (apply Z.div_le_mono; lia).
  pose proof (rne_range a1 b Hb) as H1. pose proof (rne_range a2 b Hb) as H2.
  destruct (Z.eq_dec (a1 / b) (a2 / b)) as [Heq|Hne]; [|lia].
  pose proof (Z.div_mod a1 b ltac:(lia)) as Hd1.
  pose proof (Z.div_mod a2 b ltac:(lia)) as Hd2.
  assert (Hr : a1 mod b <= a2 mod b) by (rewrite Heq in Hd1; nia).
  unfold rne. rewrite Heq.
  repeat match goal with |- context [if ?c then _ else _] => destruct c eqn:? end;
    try lia.
Qed.

Lemma rne_scale a b : 0 < b -> rne (2 * a) (2 * b) = rne a b.
Proof.
  intros Hb. unfold rne.
  rewrite Z.div_mul_cancel_l, Z.mul_mod_distr_l by lia.
  repeat match goal with
  | |- context [?x <? ?y] => destruct (Z.ltb_spec x y)
  end; try lia; done.
Qed.

Lemma rne_exact a : rne a 1 = a.
Proof. unfold rne. rewrite Z.div_1_r, Z.mod_1_r. done. Qed.

Lemma rne_multiple q b : 0 < b -> rne (q * b) b = q.
Proof.
  intros Hb. unfold rne. rewrite Z.div_mul, Z.mod_mul by lia.
  by destruct (Z.ltb_spec (2 * 0) b); [|lia].
Qed.

Lemma renorm_normal m e :
  2 ^ 52 <= m <= 2 ^ 53 -> normal (renorm (m, e)).
Proof.
  unfold renorm, normal. simpl. intros Hm.
  destruct (Z.eqb_spec m (2 ^ 53)); simpl; lia.
Qed.

Lemma renorm_mono m1 e1 m2 e2 :
  2 ^ 52 <= m1 <= 2 ^ 53 -> 2 ^ 52 <= m2 <= 2 ^ 53 ->
  fle (m1, e1) (m2, e2) -> fle (renorm (m1, e1)) (renorm (m2, e2)).
Proof.
  unfold renorm, fle. simpl. intros H1 H2 Hle.
  destruct (Z.eqb_spec m1 (2 ^ 53)), (Z.eqb_spec m2 (2 ^ 53)); simpl; lia.
Qed.

(** [binary_round_aux], restated. *)
Lemma binary_round_aux_renorm a b e p loc :
  0 <= a -> 0 < b -> 0 <= p ->
  2 ^ (52 + p) <= a / b < 2 ^ (53 + p) ->
  -1074 <= e + p -> e + p + 1 <= 971 ->
  represents (shr_record_of_loc (a / b) loc) a b ->
  binary_round_aux prec emax false (a / b) e loc
  = float_of (renorm (rne a (b * 2 ^ p), e + p)) /\
  2 ^ 52 <= rne a (b * 2 ^ p) <= 2 ^ 53.
Proof.
  intros Ha Hb Hp Hq Hlo Hhi Hrep. split.
  - rewrite (binary_round_aux_normal a b e p loc) by done.
    unfold renorm, float_of. simpl.
    by destruct (rne a (b * 2 ^ p) =? 2 ^ 53).
  - assert (Hb' : 0 < b * 2 ^ p) by (pose proof (Z.pow_pos_nonneg 2 p); nia).
    pose proof (rne_range a (b * 2 ^ p) Hb') as Hr.
    rewrite div_div_pow in Hr by done.
    pose proof (Z.pow_pos_nonneg 2 p ltac:(lia) Hp) as Hpp.
    rewrite !Z.pow_add_r in Hq by lia.
    assert (2 ^ 52 <= a / b / 2 ^ p) by (apply Z.div_le_lower_bound; lia).
    assert (a / b / 2 ^ p < 2 ^ 53) by (apply Z.div_lt_upper_bound; lia).
    lia.
Qed.

(** ** Integers as floats *)

Lemma iter_xO p k : Z.pos (Pos.iter xO p k) = Z.pos p * 2 ^ Z.pos k.
Proof.
  induction k as [|k IH] using Pos.peano_ind.
  - simpl. lia.
  - rewrite Pos.iter_succ, Pos2Z.inj_xO, IH, Pos2Z.inj_succ.
    rewrite Z.pow_succ_r by lia. lia.
Qed.

Lemma Zdigits2_range t :
  1 <= t < 2 ^ 53 ->
  1 <= Zdigits2 t <= 53 /\ 2 ^ (Zdigits2 t - 1) <= t < 2 ^ Zdigits2 t.
Proof.
  intros Ht. destruct t as [|p|p]; try lia. simpl.
  pose proof (digits2_bounds p) as Hb. split; [|done]. split; [lia|].
  destruct (Z_le_gt_dec (Z.pos (digits2_pos p)) 53) as [|Hgt]; [done|].
  assert (2 ^ 53 <= 2 ^ (Z.pos (digits2_pos p) - 1))
    by (apply Z.pow_le_mono_r; lia). lia.
Qed.

Lemma normal_form_exact t :
  1 <= t < 2 ^ 53 ->
  normal_form t = (t * 2 ^ (53 - Zdigits2 t), Zdigits2 t - 53).
Proof.
  intros Ht. destruct (Zdigits2_range t Ht) as [Hd Hb].
  unfold normal_form. by rewrite (proj2 (Z.leb_le _ _)) by lia.
Qed.

Lemma normal_form_spec t :
  1 <= t < 2 ^ 53 ->
  normal (normal_form t) /\ -52 <= snd (normal_form t) <= 0 /\
  fst (normal_form t) = t * 2 ^ (- snd (normal_form t)).
Proof.
  intros Ht. destruct (Zdigits2_range t Ht) as [Hd Hb].
  rewrite (normal_form_exact t Ht).
  unfold normal. simpl. set (d := Zdigits2 t) in *.
  assert (Hp : 2 ^ 53 = 2 ^ d * 2 ^ (53 - d))
    by (rewrite <- Z.pow_add_r by lia; f_equal; lia).
  assert (Hp' : 2 ^ 52 = 2 ^ (d - 1) * 2 ^ (53 - d))
    by (rewrite <- Z.pow_add_r by lia; f_equal; lia).
  pose proof (Z.pow_pos_nonneg 2 (53 - d) ltac:(lia) ltac:(lia)) as Hpos.
  split; [nia|]. split; [lia|]. f_equal. f_equal. lia.
Qed.

Lemma number_of_Z_normal t :
  1 <= t < 2 ^ 53 -> number_of_Z t = float_of (normal_form t).
Proof.
  intros Ht. destruct (Zdigits2_range t Ht) as [Hd Hb].
  destruct (normal_form_spec t Ht) as (Hn & He & Hm).
  rewrite (normal_form_exact t Ht) in *.
  unfold normal in *. simpl in *.
  destruct t as [|p|p]; try lia.
  unfold number_of_Z, binary_normalize, binary_round, shl_align.
  set (d := Z.pos (digits2_pos p)) in *.
  change (Zdigits2 (Z.pos p)) with d in *.
  replace (fexp prec emax (d + 0)) with (d - 53)
    by (unfold fexp, SpecFloat.emin, prec, emax; lia).
  assert (Hbra : forall mz : positive,
            Z.pos mz = Z.pos p * 2 ^ (53 - d) ->
            binary_round_aux prec emax false (Z.pos mz) (d - 53) loc_Exact
            = float_of (Z.pos p * 2 ^ (53 - d), d - 53)).
  { intros mz Hmz.
    destruct (binary_round_aux_renorm (Z.pos mz) 1 (d - 53) 0 loc_Exact)
      as [Hr _]; try lia.
    - rewrite Z.div_1_r, Hmz. simpl. lia.
    - rewrite Z.div_1_r. by apply shr_record_of_loc_exact.
    - rewrite Z.div_1_r in Hr. rewrite Hr. change (1 * 2 ^ 0) with 1.
      rewrite rne_exact, Z.add_0_r. unfold renorm. cbn [fst snd].
      destruct (Z.eqb_spec (Z.pos mz) (2 ^ 53)) as [Heq|_]; [lia|].
      by rewrite Hmz. }
  destruct (d - 53 - 0) as [|k|k] eqn:Hk; try lia.
  - replace d with 53 in * by lia. apply Hbra. simpl. lia.
  - replace (d - 53) with (Z.neg k) by lia.
    replace (Z.neg k) with (d - 53) by lia. apply Hbra.
    rewrite iter_xO. f_equal. f_equal. lia.
Qed.

Lemma normal_form_mono t1 t2 :
  1 <= t1 <= t2 -> t2 < 2 ^ 53 -> fle (normal_form t1) (normal_form t2).
Proof.
  intros Ht1 Ht2.
  destruct (normal_form_spec t1 ltac:(lia)) as (Hn1 & He1 & Hm1).
  destruct (normal_form_spec t2 ltac:(lia)) as (Hn2 & He2 & Hm2).
  unfold fle, normal in *.
  destruct (normal_form t1) as [m1 e1], (normal_form t2) as [m2 e2]. simpl in *.
  destruct (Z.lt_trichotomy e1 e2) as [?|[->|Hgt]]; [by left| |].
  - right. split; [done|]. subst.
    pose proof (Z.pow_pos_nonneg 2 (- e2) ltac:(lia) ltac:(lia)). nia.
  - exfalso.
    assert (Hpow : 2 ^ (- e2) = 2 ^ (- e1) * 2 ^ (e1 - e2))
      by (rewrite <- Z.pow_add_r by lia; f_equal; lia).
    assert (2 <= 2 ^ (e1 - e2)).
    { change 2 with (2 ^ 1) at 1. apply Z.pow_le_mono_r; lia. }
    pose proof (Z.pow_pos_nonneg 2 (- e1) ltac:(lia) ltac:(lia)). nia.
Qed.

Lemma float_of_pos (m : positive) e : float_of (Z.pos m, e) = S754_finite false m e.
Proof. done. Qed.

Lemma div_eucl_div_mod a b : Z.div_eucl a b = (a / b, a mod b).
Proof. unfold Z.div, Z.modulo. by destruct (Z.div_eucl a b). Qed.

Lemma div_quotient_bounds mx my (p := if my <=? mx then 1 else 0) :
  2 ^ 52 <= mx < 2 ^ 53 -> 2 ^ 52 <= my < 2 ^ 53 ->
  0 <= p <= 1 /\ 2 ^ (52 + p) <= mx * 2 ^ 53 / my < 2 ^ (53 + p).
Proof.
  intros Hx Hy. subst p. destruct (Z.leb_spec my mx); (split; [lia|]).
  - change (2 ^ (52 + 1)) with (2 ^ 53). change (2 ^ (53 + 1)) with (2 ^ 54).
    split; [apply Z.div_le_lower_bound|apply Z.div_lt_upper_bound]; lia.
  - change (2 ^ (52 + 0)) with (2 ^ 52). change (2 ^ (53 + 0)) with (2 ^ 53).
    split; [apply Z.div_le_lower_bound|apply Z.div_lt_upper_bound]; lia.
Qed.

Lemma SFdiv_normal x y :
  normal x -> normal y -> -1000 <= snd x - snd y <= 1000 ->
  SFdiv prec emax (float_of x) (float_of y) = float_of (div_spec x y) /\
  normal (div_spec x y).
Proof.
  destruct x as [mx ex], y as [my ey]. unfold normal. cbn [fst snd].
  intros Hx Hy He.
  destruct mx as [|mx|mx]; try lia. destruct my as [|my|my]; try lia.
  destruct (div_quotient_bounds (Z.pos mx) (Z.pos my) Hx Hy) as [Hp Hq].
  unfold div_spec. cbn [fst snd]. set (p := if Z.pos my <=? Z.pos mx then 1 else 0) in *.
  rewrite !float_of_pos. unfold SFdiv, SFdiv_core_binary.
  rewrite (Zdigits2_eq (Z.pos mx) 53), (Zdigits2_eq (Z.pos my) 53) by lia.
  replace (fexp prec emax (53 + ex - (53 + ey))) with (ex - ey - 53)
    by (unfold fexp, SpecFloat.emin, prec, emax; lia).
  rewrite Z.min_l by lia. replace (ex - ey - (ex - ey - 53)) with 53 by lia.
  rewrite Z.shiftl_mul_pow2 by lia. rewrite div_eucl_div_mod. cbn [xorb].
  destruct (binary_round_aux_renorm (Z.pos mx * 2 ^ 53) (Z.pos my)
              (ex - ey - 53) p (new_location (Z.pos my) ((Z.pos mx * 2 ^ 53) mod Z.pos my)))
    as [Hr Hb]; try lia.
  { apply shr_record_of_new_location; lia. }
  rewrite Hr. split; [done|]. apply renorm_normal. lia.
Qed.

(** At most the divisor: at most one. *)
Lemma div_spec_same x : normal x -> div_spec x x = (2 ^ 52, -52).
Proof.
  destruct x as [m e]. unfold normal, div_spec. cbn [fst snd]. intros Hm.
  rewrite Z.leb_refl.
  replace (m * 2 ^ 53) with (2 ^ 52 * (m * 2 ^ 1)) by (change (2 ^ 53) with (2 ^ 52 * 2 ^ 1); lia).
  rewrite rne_multiple by lia. unfold renorm. cbn [fst snd].
  change (2 ^ 52 =? 2 ^ 53) with false. cbv iota. f_equal. lia.
Qed.

Lemma div_spec_mono x1 x2 y :
  normal x1 -> normal x2 -> normal y ->
  fle x1 x2 -> fle (div_spec x1 y) (div_spec x2 y).
Proof.
  destruct x1 as [m1 e1], x2 as [m2 e2], y as [my ey].
  unfold normal, div_spec. cbn [fst snd]. intros H1 H2 Hy Hle.
  destruct (div_quotient_bounds m1 my H1 Hy) as [Hp1 Hq1].
  destruct (div_quotient_bounds m2 my H2 Hy) as [Hp2 Hq2].
  set (p1 := if my <=? m1 then 1 else 0) in *.
  set (p2 := if my <=? m2 then 1 else 0) in *.
  assert (Hb1 : 0 < my * 2 ^ p1) by (pose proof (Z.pow_pos_nonneg 2 p1); nia).
  assert (Hb2 : 0 < my * 2 ^ p2) by (pose proof (Z.pow_pos_nonneg 2 p2); nia).
  assert (Hr1 : 2 ^ 52 <= rne (m1 * 2 ^ 53) (my * 2 ^ p1) <= 2 ^ 53).
  { pose proof (rne_range (m1 * 2 ^ 53) (my * 2 ^ p1) Hb1) as Hr.
    rewrite div_div_pow in Hr by lia.
    pose proof (Z.pow_pos_nonneg 2 p1 ltac:(lia) ltac:(lia)).
    rewrite !Z.pow_add_r in Hq1 by lia.
    assert (2 ^ 52 <= m1 * 2 ^ 53 / my / 2 ^ p1) by (apply Z.div_le_lower_bound; lia).
    assert (m1 * 2 ^ 53 / my / 2 ^ p1 < 2 ^ 53) by (apply Z.div_lt_upper_bound; lia).
    lia. }
  assert (Hr2 : 2 ^ 52 <= rne (m2 * 2 ^ 53) (my * 2 ^ p2) <= 2 ^ 53).
  { pose proof (rne_range (m2 * 2 ^ 53) (my * 2 ^ p2) Hb2) as Hr.
    rewrite div_div_pow in Hr by lia.
    pose proof (Z.pow_pos_nonneg 2 p2 ltac:(lia) ltac:(lia)).
    rewrite !Z.pow_add_r in Hq2 by lia.
    assert (2 ^ 52 <= m2 * 2 ^ 53 / my / 2 ^ p2) by (apply Z.div_le_lower_bound; lia).
    assert (m2 * 2 ^ 53 / my / 2 ^ p2 < 2 ^ 53) by (apply Z.div_lt_upper_bound; lia).
    lia. }
  apply renorm_mono; [done|done|]. unfold fle in *. cbn [fst snd] in *.
  destruct (Z.lt_trichotomy (e1 - ey - 53 + p1) (e2 - ey - 53 + p2))
    as [Hlt|[Heq|Hgt]]; [by left| |].
  - right. split; [done|].
    assert (Hcase : (p1 = p2 /\ m1 <= m2) \/ (p1 = 1 /\ p2 = 0)).
    { subst p1 p2. destruct (Z.leb_spec my m1), (Z.leb_spec my m2); lia. }
    destruct Hcase as [[Hp Hm]|[Hp1' Hp2']].
    + rewrite Hp. apply rne_mono; [lia|nia].
    + rewrite Hp1', Hp2'. change (2 ^ 0) with 1. change (2 ^ 1) with 2.
      rewrite Z.mul_1_r.
      rewrite <- (rne_scale (m2 * 2 ^ 53) my) by lia.
      rewrite (Z.mul_comm my 2). apply rne_mono; lia.
  - exfalso. subst p1 p2.
    destruct (Z.leb_spec my m1), (Z.leb_spec my m2); lia.
Qed.

Lemma number_of_Z_100 : number_of_Z 100 = float_of (m100, -46).
Proof. reflexivity. Qed.

Lemma renorm_snd me : snd me <= snd (renorm me) <= snd me + 1.
Proof. unfold renorm. destruct (fst me =? 2 ^ 53); simpl; lia. Qed.

Lemma mul100_bounds mx (M := mx * m100) (p := if M <? 2 ^ 105 then 52 else 53) :
  2 ^ 52 <= mx < 2 ^ 53 ->
  52 <= p <= 53 /\ 2 ^ (52 + p) <= M < 2 ^ (53 + p).
Proof.
  intros Hx. subst p M. unfold m100.
  destruct (Z.ltb_spec (mx * (100 * 2 ^ 46)) (2 ^ 105)); (split; [lia|]).
  - change (2 ^ (52 + 52)) with (2 ^ 104). change (2 ^ (53 + 52)) with (2 ^ 105). lia.
  - change (2 ^ (52 + 53)) with (2 ^ 105). change (2 ^ (53 + 53)) with (2 ^ 106). lia.
Qed.

Lemma mul100_rne_bounds mx (M := mx * m100) (p := if M <? 2 ^ 105 then 52 else 53) :
  2 ^ 52 <= mx < 2 ^ 53 -> 2 ^ 52 <= rne M (2 ^ p) <= 2 ^ 53.
Proof.
  intros Hx. destruct (mul100_bounds mx Hx) as [Hp Hq]. fold M p in Hp, Hq.
  pose proof (Z.pow_pos_nonneg 2 p ltac:(lia) ltac:(lia)) as Hpp.
  pose proof (rne_range M (2 ^ p) Hpp) as Hr.
  rewrite !Z.pow_add_r in Hq by lia.
  assert (2 ^ 52 <= M / 2 ^ p) by (apply Z.div_le_lower_bound; lia).
  assert (M / 2 ^ p < 2 ^ 53) by (apply Z.div_lt_upper_bound; lia).
  lia.
Qed.

Lemma SFmul_100_normal x :
  normal x -> -1000 <= snd x <= 900 ->
  SFmul prec emax (float_of x) (number_of_Z 100) = float_of (mul100_spec x) /\
  normal (mul100_spec x).
Proof.
  destruct x as [mx ex]. unfold normal. cbn [fst snd]. intros Hx He.
  destruct mx as [|mx|mx]; try lia.
  destruct (mul100_bounds (Z.pos mx) Hx) as [Hp Hq].
  pose proof (mul100_rne_bounds (Z.pos mx) Hx) as Hr.
  unfold mul100_spec. cbn [fst snd].
  set (M := Z.pos mx * m100) in *. set (p := if M <? 2 ^ 105 then 52 else 53) in *.
  rewrite number_of_Z_100, float_of_pos. unfold float_of at 1. cbn [fst snd].
  unfold SFmul. cbn [xorb].
  replace (Z.pos (mx * Z.to_pos m100)) with (M / 1)
    by (rewrite Z.div_1_r; subst M; by rewrite Pos2Z.inj_mul).
  destruct (binary_round_aux_renorm M 1 (ex + -46) p loc_Exact) as [Hbra _];
    try lia.
  { by rewrite Z.div_1_r. }
  { rewrite Z.div_1_r. apply shr_record_of_loc_exact. lia. }
  rewrite Hbra, Z.mul_1_l. split; [by replace (ex + -46 + p) with (ex - 46 + p) by lia|].
  by apply renorm_normal.
Qed.

Lemma mul100_spec_one : mul100_spec (2 ^ 52, -52) = (m100, -46).
Proof. reflexivity. Qed.

Lemma mul100_spec_mono x1 x2 :
  normal x1 -> normal x2 -> fle x1 x2 -> fle (mul100_spec x1) (mul100_spec x2).
Proof.
  destruct x1 as [m1 e1], x2 as [m2 e2].
  unfold normal, mul100_spec. cbn [fst snd]. intros H1 H2 Hle.
  destruct (mul100_bounds m1 H1) as [Hp1 Hq1].
  destruct (mul100_bounds m2 H2) as [Hp2 Hq2].
  pose proof (mul100_rne_bounds m1 H1) as Hr1.
  pose proof (mul100_rne_bounds m2 H2) as Hr2.
  set (M1 := m1 * m100) in *. set (M2 := m2 * m100) in *.
  set (p1 := if M1 <? 2 ^ 105 then 52 else 53) in *.
  set (p2 := if M2 <? 2 ^ 105 then 52 else 53) in *.
  apply renorm_mono; [done|done|]. unfold fle in *. cbn [fst snd] in *.
  assert (Hm100 : m100 = 100 * 2 ^ 46) by done.
  destruct (Z.lt_trichotomy (e1 - 46 + p1) (e2 - 46 + p2))
    as [Hlt|[Heq|Hgt]]; [by left| |].
  - right. split; [done|].
    assert (Hcase : (p1 = p2 /\ M1 <= M2) \/ (p1 = 53 /\ p2 = 52)).
    { subst p1 p2 M1 M2.
      destruct (Z.ltb_spec (m1 * m100) (2 ^ 105)),
        (Z.ltb_spec (m2 * m100) (2 ^ 105)); lia. }
    destruct Hcase as [[Hp HM]|[Hp1' Hp2']].
    + rewrite Hp. apply rne_mono; [|lia].
      apply Z.pow_pos_nonneg; lia.
    + rewrite Hp1', Hp2'.
      rewrite <- (rne_scale M2 (2 ^ 52)) by lia.
      change (2 * 2 ^ 52) with (2 ^ 53). apply rne_mono; lia.
  - exfalso. subst p1 p2 M1 M2.
    destruct (Z.ltb_spec (m1 * m100) (2 ^ 105)),
      (Z.ltb_spec (m2 * m100) (2 ^ 105)); lia.
Qed.

Lemma Math_round_normal x :
  0 < fst x -> snd x < 0 ->
  Math_round (float_of x) = number_of_Z (round_spec x).
Proof.
  destruct x as [m e]. cbn [fst snd]. intros Hm He.
  destruct m as [|m|m]; try lia. rewrite float_of_pos. unfold Math_round.
  destruct (Z.leb_spec 0 e); [lia|]. done.
Qed.

Lemma round_spec_100 : round_spec (m100, -46) = 100.
Proof. reflexivity. Qed.

Lemma round_spec_nonneg x : 0 <= fst x -> 0 <= round_spec x.
Proof.
  intros Hm. unfold round_spec. apply Z_div_nonneg_nonneg.
  - pose proof (Z.pow_nonneg 2 (- snd x)). lia.
  - apply Z.pow_nonneg. lia.
Qed.

Lemma round_spec_mono x1 x2 :
  normal x1 -> normal x2 -> snd x2 < 0 ->
  fle x1 x2 -> round_spec x1 <= round_spec x2.
Proof.
  destruct x1 as [m1 e1], x2 as [m2 e2].
  unfold normal, fle, round_spec. cbn [fst snd]. intros H1 H2 He [Hlt|[-> Hm]].
  - assert (Hpow : 2 ^ (- e1) = 2 ^ (- e2) * 2 ^ (e2 - e1))
      by (rewrite <- Z.pow_add_r by lia; f_equal; lia).
    assert (Hpow1 : 2 ^ (1 - e1) = 2 ^ (1 - e2) * 2 ^ (e2 - e1))
      by (rewrite <- Z.pow_add_r by lia; f_equal; lia).
    assert (Hk : 2 <= 2 ^ (e2 - e1)).
    { change 2 with (2 ^ 1) at 1. apply Z.pow_le_mono_r; lia. }
    pose proof (Z.pow_pos_nonneg 2 (1 - e2) ltac:(lia) ltac:(lia)).
    pose proof (Z.pow_pos_nonneg 2 (- e2) ltac:(lia) ltac:(lia)).
    rewrite <- (Z.div_mul_cancel_r (2 * m2 + 2 ^ (- e2)) (2 ^ (1 - e2))
                  (2 ^ (e2 - e1))) by lia.
    rewrite <- Hpow1. apply Z.div_le_mono; [nia|]. rewrite Hpow. nia.
  - apply Z.div_le_mono; [|lia]. apply Z.pow_pos_nonneg; lia.
Qed.

Lemma fle_refl x : fle x x.
Proof. right. split; [done|lia]. Qed.

Lemma div_spec_snd x y :
  snd x - snd y - 53 <= snd (div_spec x y) <= snd x - snd y - 51.
Proof.
  unfold div_spec.
  match goal with |- context [renorm ?me] => pose proof (renorm_snd me) as Hs end.
  cbn [snd] in Hs. destruct (fst y <=? fst x); lia.
Qed.

(** The stages of the computation for [1 <= t <= N]. *)
(** ** Byte counts beyond 53 bits *)

Lemma Zdigits2_wide t :
  1 <= t < 2 ^ 64 ->
  1 <= Zdigits2 t <= 64 /\ 2 ^ (Zdigits2 t - 1) <= t < 2 ^ Zdigits2 t.
Proof.
  intros Ht. destruct t as [|p|p]; try lia. simpl.
  pose proof (digits2_bounds p) as Hb. split; [|done]. split; [lia|].
  destruct (Z_le_gt_dec (Z.pos (digits2_pos p)) 64) as [|Hgt]; [done|].
  assert (2 ^ 64 <= 2 ^ (Z.pos (digits2_pos p) - 1))
    by (apply Z.pow_le_mono_r; lia). lia.
Qed.

Lemma Zdigits2_small t :
  1 <= t < 2 ^ 64 -> (Zdigits2 t <= 53 <-> t < 2 ^ 53).
Proof.
  intros Ht. destruct (Zdigits2_wide t Ht) as [Hd Hb]. split; intros H.
  - assert (2 ^ Zdigits2 t <= 2 ^ 53) by (apply Z.pow_le_mono_r; lia). lia.
  - destruct (Z_le_gt_dec (Zdigits2 t) 53) as [|Hgt]; [done|].
    assert (2 ^ 53 <= 2 ^ (Zdigits2 t - 1)) by (apply Z.pow_le_mono_r; lia).
    lia.
Qed.

Lemma Zdigits2_mono t1 t2 :
  1 <= t1 <= t2 -> t2 < 2 ^ 64 -> Zdigits2 t1 <= Zdigits2 t2.
Proof.
  intros Ht1 Ht2.
  destruct (Zdigits2_wide t1 ltac:(lia)) as [Hd1 Hb1].
  destruct (Zdigits2_wide t2 ltac:(lia)) as [Hd2 Hb2].
  destruct (Z_le_gt_dec (Zdigits2 t1) (Zdigits2 t2)) as [|Hgt]; [done|].
  assert (2 ^ Zdigits2 t2 <= 2 ^ (Zdigits2 t1 - 1))
    by (apply Z.pow_le_mono_r; lia). lia.
Qed.

(** The mantissa a count of more than 53 bits rounds to. *)
Lemma rounded_mantissa t (d := Zdigits2 t) :
  1 <= t < 2 ^ 64 -> 53 < d ->
  2 ^ 52 <= t / 2 ^ (d - 53) < 2 ^ 53 /\
  2 ^ 52 <= rne t (2 ^ (d - 53)) <= 2 ^ 53.
Proof.
  intros Ht Hd. destruct (Zdigits2_wide t Ht) as [Hd' Hb]. fold d in Hd', Hb.
  pose proof (Z.pow_pos_nonneg 2 (d - 53) ltac:(lia) ltac:(lia)) as Hpos.
  assert (H52 : 2 ^ (d - 1) = 2 ^ 52 * 2 ^ (d - 53))
    by (rewrite <- Z.pow_add_r by lia; f_equal; lia).
  assert (H53 : 2 ^ d = 2 ^ 53 * 2 ^ (d - 53))
    by (rewrite <- Z.pow_add_r by lia; f_equal; lia).
  assert (Hq : 2 ^ 52 <= t / 2 ^ (d - 53) < 2 ^ 53).
  { split.
    - apply Z.div_le_lower_bound; lia.
    - apply Z.div_lt_upper_bound; lia. }
  split; [done|].
  pose proof (rne_range t (2 ^ (d - 53)) Hpos). lia.
Qed.

Lemma normal_form_bits t :
  1 <= t < 2 ^ 64 ->
  normal (normal_form t) /\ -52 <= snd (normal_form t) <= 12.
Proof.
  intros Ht. destruct (Z_lt_ge_dec t (2 ^ 53)) as [Hs|Hs].
  - destruct (normal_form_spec t ltac:(lia)) as (Hn & He & _).
    split; [done|lia].
  - destruct (Zdigits2_wide t Ht) as [Hd Hb].
    assert (Hd53 : 53 < Zdigits2 t).
    { pose proof (Zdigits2_small t Ht). lia. }
    destruct (rounded_mantissa t Ht Hd53) as [_ Hr].
    unfold normal_form. rewrite (proj2 (Z.leb_gt _ _)) by lia.
    split; [by apply renorm_normal|].
    pose proof (renorm_snd (rne t (2 ^ (Zdigits2 t - 53)), Zdigits2 t - 53)) as Hsn.
    cbn [snd] in Hsn. lia.
Qed.

Lemma number_of_Z_normal_form t :
  1 <= t < 2 ^ 64 -> number_of_Z t = float_of (normal_form t).
Proof.
  intros Ht. destruct (Z_lt_ge_dec t (2 ^ 53)) as [Hs|Hs].
  { apply number_of_Z_normal. lia. }
  destruct (Zdigits2_wide t Ht) as [Hd Hb].
  assert (Hd53 : 53 < Zdigits2 t).
  { pose proof (Zdigits2_small t Ht). lia. }
  destruct (rounded_mantissa t Ht Hd53) as [Hq _].
  unfold normal_form. rewrite (proj2 (Z.leb_gt _ _)) by lia.
  destruct t as [|p|p]; try lia.
  unfold number_of_Z, binary_normalize, binary_round, shl_align.
  set (d := Z.pos (digits2_pos p)) in *.
  change (Zdigits2 (Z.pos p)) with d in *.
  replace (fexp prec emax (d + 0)) with (d - 53)
    by (unfold fexp, SpecFloat.emin, prec, emax; lia).
  destruct (d - 53 - 0) as [|k|k] eqn:Hk; try lia.
  destruct (binary_round_aux_renorm (Z.pos p) 1 0 (d - 53) loc_Exact)
    as [Hr _]; try lia.
  - rewrite Z.div_1_r.
    assert (H52 : 2 ^ (d - 1) = 2 ^ (52 + (d - 53))) by (f_equal; lia).
    assert (H53 : 2 ^ d = 2 ^ (53 + (d - 53))) by (f_equal; lia).
    lia.
  - rewrite Z.div_1_r. by apply shr_record_of_loc_exact.
  - rewrite Z.div_1_r in Hr. rewrite Hr.
    by rewrite Z.mul_1_l, Z.add_0_l.
Qed.

Lemma normal_form_wide_mono t1 t2 :
  1 <= t1 <= t2 -> t2 < 2 ^ 64 -> fle (normal_form t1) (normal_form t2).
Proof.
  intros Ht1 Ht2.
  destruct (Z_lt_ge_dec t2 (2 ^ 53)) as [Hs2|Hs2].
  { apply normal_form_mono; lia. }
  assert (Hd2 : 53 < Zdigits2 t2).
  { pose proof (Zdigits2_small t2 ltac:(lia)). lia. }
  destruct (rounded_mantissa t2 ltac:(lia) Hd2) as [_ Hr2].
  destruct (Z_lt_ge_dec t1 (2 ^ 53)) as [Hs1|Hs1].
  - destruct (normal_form_spec t1 ltac:(lia)) as (_ & He1 & _).
    left. unfold normal_form at 2. rewrite (proj2 (Z.leb_gt _ _)) by lia.
    pose proof (renorm_snd (rne t2 (2 ^ (Zdigits2 t2 - 53)), Zdigits2 t2 - 53))
      as Hsn. cbn [snd] in Hsn. lia.
  - assert (Hd1 : 53 < Zdigits2 t1).
    { pose proof (Zdigits2_small t1 ltac:(lia)). lia. }
    destruct (rounded_mantissa t1 ltac:(lia) Hd1) as [_ Hr1].
    pose proof (Zdigits2_mono t1 t2 Ht1 Ht2) as Hd.
    unfold normal_form. rewrite !(proj2 (Z.leb_gt _ _)) by lia.
    apply renorm_mono; [done|done|]. unfold fle. cbn [fst snd].
    destruct (Z.eq_dec (Zdigits2 t1) (Zdigits2 t2)) as [Heq|Hne]; [|left; lia].
    right. split; [lia|]. rewrite Heq. apply rne_mono; [|lia].
    apply Z.pow_pos_nonneg; lia.
Qed.

Lemma percentage_stages t N :
  1 <= N < 2 ^ 64 -> 1 <= t <= N ->
  let q := div_spec (normal_form t) (normal_form N) in
  let c := mul100_spec q in
  percentage (number_of_Z t) (number_of_Z N) = number_of_Z (round_spec c) /\
  normal q /\ fle q (2 ^ 52, -52) /\
  normal c /\ fle c (m100, -46).
Proof.
  intros HN Ht q c.
  destruct (normal_form_bits t ltac:(lia)) as (Hnt & Het).
  destruct (normal_form_bits N HN) as (HnN & HeN).
  destruct (SFdiv_normal (normal_form t) (normal_form N) Hnt HnN ltac:(lia))
    as [Hdiv Hnq]. fold q in Hdiv, Hnq.
  assert (Hq1 : fle q (2 ^ 52, -52)).
  { rewrite <- (div_spec_same (normal_form N) HnN).
    apply div_spec_mono; try done. apply normal_form_wide_mono; lia. }
  assert (Hqe : -1000 <= snd q <= 900).
  { pose proof (div_spec_snd (normal_form t) (normal_form N)) as Hs.
    fold q in Hs. lia. }
  destruct (SFmul_100_normal q Hnq Hqe) as [Hmul Hnc]. fold c in Hmul, Hnc.
  assert (Hc1 : fle c (m100, -46)).
  { rewrite <- mul100_spec_one. by apply mul100_spec_mono. }
  split; [|done].
  unfold percentage.
  rewrite (number_of_Z_normal_form t), (number_of_Z_normal_form N) by lia.
  rewrite Hdiv, Hmul.
  apply Math_round_normal.
  - unfold normal in Hnc. lia.
  - destruct Hc1 as [Hlt|[Heq _]]; simpl in *; lia.
Qed.

Lemma normal_100 : normal (m100, -46).
Proof. unfold normal. simpl. unfold m100. lia. Qed.

Lemma percent_of_range t N :
  1 <= N < 2 ^ 64 -> 0 <= t <= N -> 0 <= percent_of t N <= 100.
Proof.
  intros HN Ht. unfold percent_of. destruct (Z.eqb_spec t 0); [lia|].
  destruct (percentage_stages t N HN ltac:(lia)) as (_ & Hnq & Hq1 & Hnc & Hc1).
  split.
  - apply round_spec_nonneg. unfold normal in Hnc. lia.
  - rewrite <- round_spec_100.
    apply round_spec_mono; [done|apply normal_100|simpl; lia|done].
Qed.

Lemma percentage_percent_of t N :
  1 <= N < 2 ^ 64 -> 0 <= t <= N ->
  percentage (number_of_Z t) (number_of_Z N) = number_of_Z (percent_of t N).
Proof.
  intros HN Ht. unfold percent_of. destruct (Z.eqb_spec t 0) as [->|Hne].
  - unfold percentage. rewrite (number_of_Z_normal_form N) by done.
    destruct (normal_form_bits N HN) as (HnN & _). unfold normal in HnN.
    destruct (normal_form N) as [[|m|m] e]; simpl in HnN; try lia.
    reflexivity.
  - by destruct (percentage_stages t N HN ltac:(lia)) as (-> & _).
Qed.



Example percent_of_29_200 : percent_of 29 200 = 14.
Proof. reflexivity. Qed.






Example progress_of_200_bytes :
  exists w',
    get "/f" "f" (Some report) (online (reporting 200 [(29, 29); (200, 171)]))
      = Resolve tt w' /\
    reported w' = [number_of_Z 14; number_of_Z 100].
Proof. eexists. split; [vm_compute; reflexivity|reflexivity]. Qed.

(** ** The life cycle of a session *)

Lemma server_stat_found p r n :
  is_in (resolve r p) (unreadable r) = false ->
  find_node (resolve r p) (tree r) = Some n ->
  server_stat p r = (Success (stats_of n), r).
Proof. intros Hu Hf. unfold server_stat. by rewrite Hu, Hf. Qed.

Lemma connect_success_calls (w : World) (a : Stats) (r' : Remote) :
  handshake (remote w) = None ->
  subsystem (remote w) = None ->
  server_stat (homeDirectoryPath (dev w)) (remote w) = (Success a, r') ->
  exists w' cfg,
    connect w = Resolve tt w' /\
    remote w' = r' /\
    calls w' = (calls w ++ [client_connect cfg; client_sftp;
                            sftp_stat (homeDirectoryPath (dev w))])%list.
Proof.
  intros Hh Hs Hst.
  unfold connect, connectClient, getSftp, disconnect, stat, with_sftp, request.
  unfold_m. simpl. rewrite Hh. simpl. rewrite Hs. simpl.
  unfold homeDirectoryPath, username in *. simpl. rewrite Hst. simpl.
  eexists _, _. split; [reflexivity|]. simpl.
  rewrite <- ?app_assoc. split; reflexivity.
Qed.

(** X1. On a remote that accepts the handshake and the SFTP request and
    shows an entry at the home directory path, [connect] resolves: the device
    is connected and no longer connecting, the SFTP channel is open, the
    accessor returns the attributes of that entry (a directory or not), the
    events fired are will-connect then did-connect, and the calls made are
    [client.connect], [client.sftp] and one [stat] of the home directory. *)
Theorem connect_succeeds (w : World) (n : Node) :
  handshake (remote w) = None ->
  subsystem (remote w) = None ->
  is_in (resolve (remote w) (homeDirectoryPath (dev w)))
        (unreadable (remote w)) = false ->
  find_node (resolve (remote w) (homeDirectoryPath (dev w)))
            (tree (remote w)) = Some n ->
  exists w' cfg,
    connect w = Resolve tt w' /\
    isConnecting (dev w') = false /\ isConnected (dev w') = true /\
    sftp (dev w') <> None /\
    homeDirectoryAttr w' = Resolve (stats_of n) w' /\
    fired w' = (fired w ++ [WillConnect; DidConnect])%list /\
    calls w' = (calls w ++ [client_connect cfg; client_sftp;
                            sftp_stat (homeDirectoryPath (dev w))])%list /\
    remote w' = remote w.
Proof.
  intros Hh Hs Hu Hf.
  pose proof (server_stat_found _ _ _ Hu Hf) as Hst.
  destruct (connect_success w _ _ Hh Hs Hst)
    as (w' & Hc & Hing & Hed & Hsf & Ha & Hfi).
  destruct (connect_success_calls w _ _ Hh Hs Hst) as (w'' & cfg & Hc' & Hr & Hj).
  rewrite Hc in Hc'. injection Hc' as <-.
  exists w', cfg. repeat split; try done.
  - by rewrite Hsf.
  - unfold homeDirectoryAttr. unfold_m. by rewrite Ha.
Qed.

Lemma connect_succeeds_witness :
  exists w' cfg,
    connect (fresh "linux" (quiet home_tree)) = Resolve tt w' /\
    isConnecting (dev w') = false /\ isConnected (dev w') = true /\
    sftp (dev w') <> None /\
    homeDirectoryAttr w' = Resolve (stats_of (Dir [])) w' /\
    fired w' = [WillConnect; DidConnect] /\
    calls w' = [client_connect cfg; client_sftp; sftp_stat "/home/robot"] /\
    remote w' = quiet home_tree.
Proof.
  apply (connect_succeeds (fresh "linux" (quiet home_tree)) (Dir []));
    vm_compute; reflexivity.
Defined.

Lemma connect_failure_calls (w : World) (e : Error) :
  handshake (remote w) = None ->
  subsystem (remote w) = Some e \/
  (subsystem (remote w) = None /\
   (server_stat (homeDirectoryPath (dev w)) (remote w)).1 = Failure e) ->
  exists w' more,
    connect w = Reject e w' /\
    calls w' = (calls w ++ more ++ [client_end])%list /\
    _homeDirectoryAttr (dev w') = _homeDirectoryAttr (dev w).
Proof.
  intros Hh [Hs|[Hs Hst]];
    unfold connect, connectClient, getSftp, disconnect, stat, with_sftp, request;
    unfold_m; simpl; rewrite Hh; simpl; rewrite Hs; simpl.
  - destruct (sftp (dev w)) eqn:Hsf; simpl.
    + eexists _, [_; _; _]. split; [reflexivity|]. simpl.
      rewrite <- !app_assoc. split; reflexivity.
    + eexists _, [_; _]. split; [reflexivity|]. simpl.
      rewrite <- !app_assoc. split; reflexivity.
  - unfold homeDirectoryPath, username in *. simpl.
    destruct (server_stat _ _) as [[a|e'] r'] eqn:Hsv; simpl in Hst; [done|].
    injection Hst as ->. simpl.
    eexists _, [_; _; _; _]. split; [reflexivity|]. simpl.
    rewrite <- !app_assoc. split; reflexivity.
Qed.

(** X2. When the handshake succeeds but the SFTP request is turned down, or
    the stat of the home directory fails, [connect] rejects with that very
    error after cleaning up: the device is idle, the SFTP channel is closed,
    the last call made is [client.end], and the events fired are will-connect
    followed by one did-disconnect. *)
Theorem connect_fails_cleanly (w : World) (e : Error) :
  handshake (remote w) = None ->
  subsystem (remote w) = Some e \/
  (subsystem (remote w) = None /\
   (server_stat (homeDirectoryPath (dev w)) (remote w)).1 = Failure e) ->
  exists w' more,
    connect w = Reject e w' /\
    idle (dev w') /\ sftp (dev w') = None /\
    fired w' = (fired w ++ [WillConnect; DidDisconnect])%list /\
    calls w' = (calls w ++ more ++ [client_end])%list.
Proof.
  intros Hh Hl.
  destruct (connect_failure_calls w e Hh Hl) as (w' & more & Hc & Hj & _).
  exists w', more. split; [done|].
  destruct Hl as [Hs|[Hs Hst]].
  - destruct (connect_sftp_failure w e Hh Hs) as (w'' & Hc' & Hi & Hn & Hf).
    rewrite Hc in Hc'. injection Hc' as <-. done.
  - destruct (server_stat (homeDirectoryPath (dev w)) (remote w))
      as [rep r'] eqn:Hsv. simpl in Hst. subst rep.
    destruct (connect_stat_failure w e r' Hh Hs Hsv) as (w'' & Hc' & Hi & Hn & Hf).
    rewrite Hc in Hc'. injection Hc' as <-. done.
Qed.

Lemma connect_fails_cleanly_witness :
  exists w' more,
    connect (fresh "linux" (quiet empty_tree)) = Reject no_such_file w' /\
    idle (dev w') /\ sftp (dev w') = None /\
    fired w' = [WillConnect; DidDisconnect] /\
    calls w' = (more ++ [client_end])%list.
Proof.
  apply (connect_fails_cleanly (fresh "linux" (quiet empty_tree)) no_such_file).
  - reflexivity.
  - right. split; vm_compute; reflexivity.
Defined.

Lemma disconnect_closed (w : World) :
  sftp (dev w) = None ->
  disconnect w =
    Resolve tt (log_event DidDisconnect
                  (set_dev (set_client (mkClient false)
                                       (set_isConnected false (dev w)))
                           (log_call client_end w))).
Proof. intros Hs. unfold disconnect. unfold_m. simpl. by rewrite Hs. Qed.

(** X3. [disconnect] has no guard of its own: called on a device that is
    already disconnected it leaves the device as it is, but still calls
    [client.end] and fires another did-disconnect event. *)
Theorem disconnect_twice (w : World) :
  exists w1 w2,
    disconnect w = Resolve tt w1 /\
    disconnect w1 = Resolve tt w2 /\
    dev w2 = dev w1 /\ remote w2 = remote w1 /\
    calls w2 = (calls w1 ++ [client_end])%list /\
    fired w2 = (fired w ++ [DidDisconnect; DidDisconnect])%list.
Proof.
  destruct (disconnect_resolves w) as (w1 & Hd & Hc & _ & Hs & _ & _ & _ & Hf).
  exists w1. eexists. split; [done|].
  split; [by apply disconnect_closed|]. simpl.
  rewrite Hf, <- app_assoc. repeat split; try done.
  pose proof (disconnect_no_connection w) as Hn. rewrite Hd in Hn. simpl in Hn.
  unfold isConnected in Hc. destruct (dev w1) as [svc [c] s a b1 b2].
  simpl in *. by subst.
Qed.

(** X4. Right after [disconnect], whatever the state it was called in,
    every SFTP-backed operation is rejected with [Not connected] and makes
    no request. *)
Theorem operations_after_disconnect (w : World) :
  exists w1,
    disconnect w = Resolve tt w1 /\
    (forall p m, chmod p m w1 = Reject not_connected w1) /\
    (forall p, mkdir p w1 = Reject not_connected w1) /\
    (forall p, ls p w1 = Reject not_connected w1) /\
    (forall p, stat p w1 = Reject not_connected w1) /\
    (forall p, rm p w1 = Reject not_connected w1) /\
    (forall p, rmdir p w1 = Reject not_connected w1) /\
    (forall r l cb, get r l cb w1 = Reject not_connected w1) /\
    (forall l r m cb, put l r m cb w1 = Reject not_connected w1) /\
    (forall p, posix.isAbsolute p = true ->
               mkdir_p p w1 = Reject not_connected w1) /\
    (forall fuel p, rm_rf (S fuel) p w1 = Reject not_connected w1).
Proof.
  destruct (disconnect_resolves w) as (w1 & Hd & _ & _ & Hs & _).
  exists w1. split; [done|].
  repeat split; intros; try (by apply with_sftp_none).
  - by apply mkdir_p_not_connected.
  - by apply rm_rf_not_connected.
Qed.

(** ** Between operations *)

Lemma run_keeps_channel o w :
  connected_has_channel (dev w) ->
  after (fun w' => connected_has_channel (dev w')) (run o w).
Proof.
  intros Hi.
  assert (Hk : forall (m : M unit), respects same_dev m ->
             after (fun w' => connected_has_channel (dev w')) (m w)).
  { intros m Hm. specialize (Hm w).
    destruct (m w); simpl in *; unfold same_dev in *; rewrite ?Hm; done. }
  assert (Hdis : after (fun w' => connected_has_channel (dev w')) (disconnect w)).
  { destruct (disconnect_resolves w) as (w' & -> & Hn & _).
    simpl. intros Hc. by rewrite Hn in Hc. }
  destruct o; cbn [run]; unfold on_close; try done.
  - destruct (handshake (remote w)) as [e|] eqn:Hh.
    { destruct (connect_handshake_rejected w e Hh) as (w' & cfg & -> & Hd & _).
      simpl. unfold connected_has_channel in *. by rewrite Hd. }
    destruct (subsystem (remote w)) as [e|] eqn:Hs.
    { destruct (connect_sftp_failure w e Hh Hs) as (w' & -> & [_ Hn] & _).
      simpl. intros Hc. by rewrite Hn in Hc. }
    destruct (server_stat (homeDirectoryPath (dev w)) (remote w))
      as [[a|e] r'] eqn:Hst.
    + destruct (connect_success w a r' Hh Hs Hst)
        as (w' & -> & _ & _ & Hsf & Ha & _).
      simpl. intros _. by rewrite Hsf, Ha.
    + destruct (connect_stat_failure w e r' Hh Hs Hst) as (w' & -> & [_ Hn] & _).
      simpl. intros Hc. by rewrite Hn in Hc.
  - apply Hk, respects_chmod; same_dev_side.
  - apply Hk. apply respects_bind; try same_dev_side.
    apply respects_exec; same_dev_side.
  - apply Hk, respects_mkdir; same_dev_side.
  - apply Hk, respects_mkdir_p; same_dev_side.
  - apply Hk, respects_get; same_dev_side.
  - apply Hk, respects_put; same_dev_side.
  - apply Hk. apply respects_bind; try same_dev_side.
    apply respects_ls; same_dev_side.
  - apply Hk. apply respects_bind; try same_dev_side.
    apply respects_stat; same_dev_side.
  - apply Hk, respects_rm; same_dev_side.
  - apply Hk, respects_rm_rf; same_dev_side.
  - apply Hk, respects_rmdir; same_dev_side.
Qed.

Lemma reachable_has_channel w :
  reachable w -> connected_has_channel (dev w).
Proof.
  induction 1 as [|w o w' _ IH Hw]; [by intros Hc|].
  pose proof (run_keeps_channel o w IH) as Ha.
  destruct (run o w); simpl in *; by simplify_eq.
Qed.

(** X5. Between operations, in every world that a new device can be
    brought to, the device reports that it is connected exactly when its
    SFTP channel is open, and a connected device has the attributes of its
    home directory at hand. *)
Theorem session_invariant (w : World) :
  reachable w ->
  (isConnected (dev w) = true <-> sftp (dev w) <> None) /\
  (isConnected (dev w) = true ->
   exists a, homeDirectoryAttr w = Resolve a w).
Proof.
  intros Hr. pose proof (reachable_has_channel w Hr) as Hc.
  pose proof (reachable_invariant w Hr) as Hi.
  split; [split|].
  - intros H. by destruct (Hc H).
  - apply Hi.
  - intros H. destruct (Hc H) as [_ [a Ha]]. exists a.
    unfold homeDirectoryAttr. unfold_m. by rewrite Ha.
Qed.

Lemma session_invariant_witness :
  exists w,
    world_of (connect (fresh "linux" (quiet home_tree))) = Some w /\
    (isConnected (dev w) = true <-> sftp (dev w) <> None) /\
    (isConnected (dev w) = true -> exists a, homeDirectoryAttr w = Resolve a w).
Proof.
  eexists. split; [vm_compute; reflexivity|].
  apply session_invariant.
  apply (reach_step (fresh "linux" (quiet home_tree)) op_connect);
    [apply reach_new|vm_compute; reflexivity].
Defined.

(** ** What the file operations leave alone *)

Lemma session_untouched_refl w : session_untouched w w.
Proof. repeat split. exists []. by rewrite app_nil_r. Qed.

Lemma session_untouched_trans w1 w2 w3 :
  session_untouched w1 w2 -> session_untouched w2 w3 -> session_untouched w1 w3.
Proof.
  intros (Hd1 & Hf1 & Hj1) (Hd2 & Hf2 & Hj2). repeat split; try congruence.
  by eapply journal_grows_trans.
Qed.

Lemma file_operation_respects (o : Op) :
  file_operation o = true -> respects session_untouched (run o).
Proof.
  assert (Hc : forall c w, session_untouched w (log_call c w)).
  { intros c w. repeat split. by eexists. }
  assert (Hp : forall x w, session_untouched w (log_report x w)).
  { intros x w. repeat split. exists []. simpl. by rewrite app_nil_r. }
  assert (Hr : forall r w, session_untouched w (set_remote r w)).
  { intros r w. repeat split. exists []. simpl. by rewrite app_nil_r. }
  pose proof session_untouched_refl as Hrefl.
  pose proof session_untouched_trans as Htrans.
  intros Ho. destruct o; try discriminate Ho; cbn [run]; unfold discard.
  - apply respects_chmod; auto.
  - apply respects_bind; [auto|apply respects_exec; auto|].
    intros _. apply respects_ret; auto.
  - apply respects_mkdir; auto.
  - apply respects_mkdir_p; auto.
  - apply respects_get; auto.
  - apply respects_put; auto.
  - apply respects_bind; [auto|apply respects_ls; auto|].
    intros _. apply respects_ret; auto.
  - apply respects_bind; [auto|apply respects_stat; auto|].
    intros _. apply respects_ret; auto.
  - apply respects_rm; auto.
  - apply respects_rm_rf; auto.
  - apply respects_rmdir; auto.
Qed.

(** X6. No file operation, whether it resolves or rejects, changes the
    fields of the device or fires an event: a failed request never marks the
    device as disconnected, and the attributes cached for the home directory
    are never refreshed.  The journal of calls only grows. *)
Theorem file_operations_frame (o : Op) (w : World) :
  file_operation o = true ->
  after (fun w' =>
           dev w' = dev w /\ fired w' = fired w /\
           exists more, calls w' = (calls w ++ more)%list)
        (run o w).
Proof. intros Ho. apply (file_operation_respects o Ho w). Qed.

Lemma file_operations_frame_witness :
  after (fun w' =>
           dev w' = dev (online f2_locked) /\ fired w' = [] /\
           exists more, calls w' = more)
        (run (op_rm_rf 3 "/p") (online f2_locked)).
Proof.
  apply (file_operations_frame (op_rm_rf 3 "/p") (online f2_locked)).
  reflexivity.
Defined.

(** ** The paths [mkdir_p] goes through, for any absolute path *)

Lemma string_app_assoc (a b c : string) : (a +:+ b) +:+ c = a +:+ b +:+ c.
Proof.
  induction a as [|x a IH]; [done|].
  change (String x ((a +:+ b) +:+ c) = String x (a +:+ b +:+ c)). by f_equal.
Qed.

Lemma split_segments p :
  Forall (fun n => posix.split n = [n]) (posix.split p).
Proof.
  induction p as [|c r IH]; simpl; [by repeat constructor|].
  destruct (Ascii.eqb c "/") eqn:Hc; [by constructor|].
  pose proof (split_nonempty r).
  destruct (posix.split r) as [|h t]; [done|].
  apply Forall_cons in IH as [Hh Ht]. constructor; [|done].
  simpl. by rewrite Hc, Hh.
Qed.

Lemma split_absolute p :
  posix.isAbsolute p = true -> posix.split p = "" :: tail (posix.split p).
Proof. destruct p as [|c r]; simpl; [done|]. by intros ->. Qed.

Lemma normalizeString_cons stack n l :
  posix.normalizeString false stack (n :: l)
  = posix.normalizeString false (rev (posix.normalizeString false stack [n])) l.
Proof.
  destruct (decide (n = "")) as [->|H1]; [simpl; by rewrite rev_involutive|].
  destruct (decide (n = ".")) as [->|H2]; [simpl; by rewrite rev_involutive|].
  destruct (decide (n = "..")) as [->|H3].
  - destruct stack as [|t stack']; [done|].
    cbn [posix.normalizeString]. simpl.
    case_bool_decide; by rewrite ?rev_app_distr, rev_involutive.
  - cbn [posix.normalizeString].
    rewrite !bool_decide_eq_false_2 by done. simpl.
    by rewrite rev_app_distr, rev_involutive.
Qed.

Lemma normalizeString_one_plain stack n :
  Forall (fun f => plain_name f = true) stack ->
  posix.split n = [n] ->
  Forall (fun f => plain_name f = true) (posix.normalizeString false stack [n]).
Proof.
  intros Hs Hn.
  destruct (decide (n = "")) as [->|H1]; [simpl; by apply Forall_rev|].
  destruct (decide (n = ".")) as [->|H2]; [simpl; by apply Forall_rev|].
  destruct (decide (n = "..")) as [->|H3].
  - destruct stack as [|t stack']; [done|].
    apply Forall_cons in Hs as [Ht Hs].
    cbn [posix.normalizeString]. simpl.
    case_bool_decide; [subst; by vm_compute in Ht|by apply Forall_rev].
  - cbn [posix.normalizeString].
    rewrite !bool_decide_eq_false_2 by done. simpl.
    apply Forall_app. split; [by apply Forall_rev|].
    constructor; [|done]. unfold plain_name.
    rewrite (bool_decide_eq_true_2 _ Hn).
    by rewrite !bool_decide_eq_false_2 by done.
Qed.

Lemma normalizeString_plain_app allow l r : forall stack,
  Forall (fun f => plain_name f = true) l ->
  posix.normalizeString allow stack (l ++ r)
  = posix.normalizeString allow (rev l ++ stack) r.
Proof.
  induction l as [|f l IH]; intros stack Hl; [done|].
  apply Forall_cons in Hl as [Hf Hl].
  destruct (plain_name_neq f Hf) as (H1 & H2 & H3).
  simpl. rewrite !bool_decide_eq_false_2 by done. simpl.
  rewrite IH by done. by rewrite <- app_assoc.
Qed.

Lemma ends_with_slash_unsplit l : forall a,
  l <> [] -> Forall (fun f => plain_name f = true) l ->
  posix.ends_with_slash (a +:+ "/" +:+ posix.unsplit l) = false.
Proof.
  induction l as [|f l IH]; intros a Hne Hl; [done|].
  apply Forall_cons in Hl as [Hf Hl].
  destruct (plain_name_neq f Hf) as (H1 & _).
  destruct l as [|g l].
  - simpl. rewrite ends_with_slash_app by done.
    by apply no_slash_ends, plain_name_split.
  - change (posix.unsplit (f :: g :: l))
      with (f +:+ "/" +:+ posix.unsplit (g :: l)).
    replace (a +:+ "/" +:+ f +:+ "/" +:+ posix.unsplit (g :: l))
      with ((a +:+ "/" +:+ f) +:+ "/" +:+ posix.unsplit (g :: l))
      by (by rewrite !string_app_assoc).
    by apply IH.
Qed.

Lemma split_root_unsplit l :
  Forall (fun f => plain_name f = true) l ->
  posix.normalizeString false [] (posix.split ("/" +:+ posix.unsplit l)) = l.
Proof.
  intros Hl. destruct l as [|f l]; [done|].
  change ("/" +:+ posix.unsplit (f :: l))
    with ("" +:+ "/" +:+ posix.unsplit (f :: l)).
  rewrite split_app, split_unsplit by done.
  change (posix.split "" ++ f :: l)%list with ("" :: f :: l).
  rewrite normalizeString_skip. by rewrite normalizeString_plain.
Qed.

(** Joining a clean path and one more segment: the segment is dropped,
    cancels the last name or is appended. *)
Lemma join_segment cl n :
  Forall (fun f => plain_name f = true) cl ->
  posix.split n = [n] ->
  posix.join ("/" +:+ posix.unsplit cl) n
  = "/" +:+ posix.unsplit (posix.normalizeString false (rev cl) [n]).
Proof.
  intros Hcl Hn.
  set (part := "/" +:+ posix.unsplit cl).
  assert (Hpart : part <> "") by done.
  unfold posix.join. rewrite (bool_decide_eq_false_2 _ Hpart).
  assert (Hnorm : forall x body,
            x <> "" -> posix.isAbsolute x = true ->
            posix.normalizeString false [] (posix.split x) = body ->
            (posix.unsplit body <> "" -> posix.ends_with_slash x = false) ->
            posix.normalize x = "/" +:+ posix.unsplit body).
  { intros x body Hx Ha Hb Ht. unfold posix.normalize.
    rewrite (bool_decide_eq_false_2 _ Hx), Ha. cbn [negb]. rewrite Hb.
    case_bool_decide as Hbody; [by rewrite Hbody|].
    by rewrite (Ht Hbody). }
  destruct (decide (n = "")) as [->|Hne].
  - rewrite (bool_decide_eq_true_2 ("" = "")) by done.
    rewrite (bool_decide_eq_false_2 _ Hpart).
    rewrite (Hnorm part cl); try done.
    + simpl. by rewrite rev_involutive.
    + by apply split_root_unsplit.
    + intros Hb. apply (ends_with_slash_unsplit cl ""); [|done].
      by intros ->.
  - rewrite (bool_decide_eq_false_2 _ Hne).
    assert (Hj : part +:+ "/" +:+ n <> "") by done.
    rewrite (bool_decide_eq_false_2 _ Hj).
    apply Hnorm; try done.
    + rewrite split_app, Hn. subst part. destruct cl as [|f cl].
      * change (posix.split ("/" +:+ posix.unsplit [])) with [""; ""].
        change ([""; ""] ++ [n])%list with ("" :: "" :: [n]).
        by rewrite !normalizeString_skip.
      * change ("/" +:+ posix.unsplit (f :: cl))
          with ("" +:+ "/" +:+ posix.unsplit (f :: cl)).
        rewrite split_app, split_unsplit by done.
        change ((posix.split "" ++ f :: cl) ++ [n])%list
          with ("" :: (f :: cl) ++ [n])%list.
        rewrite normalizeString_skip.
        rewrite normalizeString_plain_app by done. by rewrite app_nil_r.
    + intros _. rewrite ends_with_slash_app by done. by apply no_slash_ends.
Qed.

Lemma accumulate_walked names : forall cl,
  Forall (fun f => plain_name f = true) cl ->
  Forall (fun n => posix.split n = [n]) names ->
  accumulate ("/" +:+ posix.unsplit cl) names
  = map (fun k => "/" +:+ posix.unsplit
                    (posix.normalizeString false (rev cl) (take k names)))
        (seq 1 (length names)).
Proof.
  induction names as [|n names IH]; intros cl Hcl Hnames; [done|].
  apply Forall_cons in Hnames as [Hn Hnames].
  cbn [accumulate length seq map].
  rewrite join_segment by done.
  pose proof (normalizeString_one_plain (rev cl) n (Forall_rev Hcl) Hn) as Hcl'.
  rewrite IH by done. f_equal.
  rewrite <- (seq_shift _ 1), map_map. apply map_ext. intros k.
  change (take (S k) (n :: names)) with (n :: take k names).
  by rewrite (normalizeString_cons (rev cl) n (take k names)).
Qed.

Lemma tail_split_segments p :
  Forall (fun n => posix.split n = [n]) (tail (posix.split p)).
Proof.
  pose proof (split_segments p) as Hs.
  destruct (posix.split p); [done|]. by apply Forall_cons in Hs as [_ Hs].
Qed.

Lemma prefixes_walked p : prefixes p = walked (tail (posix.split p)).
Proof.
  unfold prefixes, walked.
  change "/" with ("/" +:+ posix.unsplit []) at 1.
  apply (accumulate_walked _ []); [done|apply tail_split_segments].
Qed.

Lemma normalizeString_all_plain l : forall stack,
  Forall (fun f => plain_name f = true) stack ->
  Forall (fun n => posix.split n = [n]) l ->
  Forall (fun f => plain_name f = true) (posix.normalizeString false stack l).
Proof.
  induction l as [|n l IH]; intros stack Hs Hl; [by apply Forall_rev|].
  apply Forall_cons in Hl as [Hn Hl].
  rewrite normalizeString_cons. apply IH; [|done].
  apply Forall_rev. by apply normalizeString_one_plain.
Qed.

Lemma walked_clean names :
  Forall (fun n => posix.split n = [n]) names ->
  Forall clean_path (walked names).
Proof.
  intros Hn. unfold walked. apply Forall_forall. intros q Hq.
  apply list_elem_of_In, in_map_iff in Hq as (k & <- & _).
  eexists. split; [|done].
  apply normalizeString_all_plain; [done|by apply Forall_take].
Qed.

(** X8. For every absolute path, what [mkdir_p] does is the walk over one
    path per segment of its argument, the [k]-th of which is the root
    followed by the first [k] segments with empty and [.] segments dropped
    and every [..] cancelling the name before it.  Every path it sends to
    the remote side is therefore clean: the root followed by plain names
    separated by single slashes. *)
Theorem mkdir_p_normalised_walk (p : string) (w : World) :
  posix.isAbsolute p = true ->
  prefixes p = walked (tail (posix.split p)) /\
  walk (walked (tail (posix.split p))) w (mkdir_p p w) /\
  Forall clean_path (walked (tail (posix.split p))).
Proof.
  intros Ha. split; [apply prefixes_walked|]. split.
  - rewrite <- prefixes_walked. unfold mkdir_p, prefixes. rewrite Ha. simpl.
    apply mkdir_p_loop_walks.
  - apply walked_clean, tail_split_segments.
Qed.

Lemma mkdir_p_normalised_walk_witness :
  prefixes "/a/./b//../c/" = ["/a"; "/a"; "/a/b"; "/a/b"; "/a"; "/a/c"; "/a/c"] /\
  walk ["/a"; "/a"; "/a/b"; "/a/b"; "/a"; "/a/c"; "/a/c"]
       (online (quiet empty_tree))
       (mkdir_p "/a/./b//../c/" (online (quiet empty_tree))) /\
  Forall clean_path ["/a"; "/a"; "/a/b"; "/a/b"; "/a"; "/a/c"; "/a/c"].
Proof.
  apply (mkdir_p_normalised_walk "/a/./b//../c/" (online (quiet empty_tree))).
  reflexivity.
Defined.

(** ** What a successful [mkdir_p] has made *)

Lemma normalizeString_resolve_from l : forall stack,
  Forall (fun t => t <> "..") stack ->
  posix.normalizeString false stack l = resolve_from stack l.
Proof.
  induction l as [|n l IH]; intros stack Hs; [done|].
  destruct (decide (n = "")) as [->|H1]; [by apply IH|].
  destruct (decide (n = ".")) as [->|H2]; [by apply IH|].
  destruct (decide (n = "..")) as [->|H3].
  - destruct stack as [|t stack']; [by apply IH|].
    apply Forall_cons in Hs as [Ht Hs].
    cbn [posix.normalizeString resolve_from]. simpl.
    rewrite (bool_decide_eq_false_2 _ Ht). by apply IH.
  - cbn [posix.normalizeString resolve_from].
    rewrite !bool_decide_eq_false_2 by done. simpl.
    apply IH. by constructor.
Qed.

Lemma resolve_from_plain l : forall stack,
  Forall (fun f => plain_name f = true) l ->
  resolve_from stack l = (rev stack ++ l)%list.
Proof.
  induction l as [|f l IH]; intros stack Hl; simpl.
  - by rewrite app_nil_r.
  - apply Forall_cons in Hl as [Hf Hl].
    destruct (plain_name_neq f Hf) as (H1 & H2 & H3).
    rewrite !bool_decide_eq_false_2 by done. simpl.
    rewrite IH by done. simpl. by rewrite <- app_assoc.
Qed.

Lemma resolve_absolute r p :
  posix.isAbsolute p = true ->
  resolve r p = resolve_from [] (tail (posix.split p)).
Proof.
  intros Ha. unfold resolve. rewrite Ha, (split_absolute p Ha). done.
Qed.

Lemma resolve_clean r cl :
  Forall (fun f => plain_name f = true) cl ->
  resolve r ("/" +:+ posix.unsplit cl) = cl.
Proof.
  intros Hcl. rewrite resolve_absolute by done.
  destruct cl as [|f cl]; [done|].
  change ("/" +:+ posix.unsplit (f :: cl))
    with ("" +:+ "/" +:+ posix.unsplit (f :: cl)).
  rewrite split_app, split_unsplit by done.
  change (tail (posix.split "" ++ f :: cl)) with (f :: cl).
  by rewrite resolve_from_plain.
Qed.

(** The last path walked names the same entry as the path itself. *)
Lemma resolve_normalised r p :
  posix.isAbsolute p = true ->
  resolve r ("/" +:+ posix.unsplit
               (posix.normalizeString false [] (tail (posix.split p))))
  = resolve r p.
Proof.
  intros Ha. rewrite resolve_clean.
  - rewrite (resolve_absolute r p Ha). by apply normalizeString_resolve_from.
  - apply normalizeString_all_plain; [done|apply tail_split_segments].
Qed.

Lemma walked_last names :
  names <> [] ->
  "/" +:+ posix.unsplit (posix.normalizeString false [] names) ∈ walked names.
Proof.
  intros Hne. unfold walked. apply list_elem_of_In, in_map_iff.
  exists (length names). split; [by rewrite firstn_all|].
  apply in_seq. destruct names; [done|]. simpl. lia.
Qed.

Lemma mkdir_p_resolved_dir_at (p : string) (w w1 : World) :
  mkdir_p p w = Resolve tt w1 ->
  dir_at (remote w1) p /\
  (forall q, dir_at (remote w) q -> dir_at (remote w1) q) /\
  dev w1 = dev w.
Proof.
  intros Hm. destruct (mkdir_p_resolved_connected p w w1 Hm) as [s Hs].
  unfold mkdir_p in Hm. destruct (posix.isAbsolute p) eqn:Ha; [|done].
  simpl in Hm.
  destruct (mkdir_p_loop_resolved _ _ _ _ s Hs Hm) as (Hall & Hkeep & Hdev).
  split; [|done].
  destruct (absolute_has_names p Ha) as (n & names & Hn).
  change (accumulate "/" (tail (posix.split p))) with (prefixes p) in Hall.
  rewrite prefixes_walked in Hall.
  eapply Forall_forall in Hall; [|apply walked_last; by rewrite Hn].
  unfold dir_at in *. by rewrite (resolve_normalised _ p Ha) in Hall.
Qed.

(** X9. When [mkdir_p] resolves, the remote side shows a directory at the
    path it was given, whatever empty, [.] or [..] segments the path is
    written with; every directory that was there before is still there, and
    the device is as it was. *)
Theorem mkdir_p_makes_directory (p : string) (w w1 : World) :
  mkdir_p p w = Resolve tt w1 ->
  dir_at (remote w1) p /\
  (forall q, dir_at (remote w) q -> dir_at (remote w1) q) /\
  dev w1 = dev w.
Proof.
  intros Hm. destruct (mkdir_p_resolved_dir_at p w w1 Hm) as (Hd & Hk & Hdev).
  split; [exact Hd|]. split; [exact Hk|exact Hdev].
Qed.

Lemma mkdir_p_makes_directory_witness :
  exists w1,
    mkdir_p "/home/robot/../robot/src/" (online (quiet home_tree))
      = Resolve tt w1 /\
    dir_at (remote w1) "/home/robot/../robot/src/" /\
    (forall q, dir_at (quiet home_tree) q -> dir_at (remote w1) q) /\
    dev w1 = dev (online (quiet home_tree)).
Proof.
  eexists. split; [vm_compute; reflexivity|].
  apply (mkdir_p_makes_directory "/home/robot/../robot/src/"
           (online (quiet home_tree))).
  vm_compute. reflexivity.
Defined.

(** ** The requests the recursive operations are made of *)

Lemma journal_of_refl P w : journal_of P w w.
Proof. repeat split. exists []. by rewrite app_nil_r. Qed.

Lemma journal_of_trans P w1 w2 w3 :
  journal_of P w1 w2 -> journal_of P w2 w3 -> journal_of P w1 w3.
Proof.
  intros (Hf1 & Hr1 & m1 & Hc1 & Hp1) (Hf2 & Hr2 & m2 & Hc2 & Hp2).
  repeat split; try congruence.
  exists (m1 ++ m2)%list. rewrite Hc2, Hc1, app_assoc. split; [done|].
  rewrite forallb_app. by rewrite Hp1, Hp2.
Qed.

Lemma request_journal_of {A} P c (srv : Remote -> Reply A * Remote) :
  P c = true -> respects (journal_of P) (with_sftp (fun _ => request c srv)).
Proof.
  intros Hc.
  apply respects_with_sftp; [apply journal_of_refl|apply journal_of_trans|].
  intros _ w. unfold request. simpl.
  destruct (srv (remote w)) as [[a|e] r']; simpl;
    (repeat split; exists [c]; split; [done|]; simpl; by rewrite Hc).
Qed.

Lemma after_and {A} (P Q : World -> Prop) (o : Outcome A) :
  after P o -> after Q o -> after (fun w => P w /\ Q w) o.
Proof. by destruct o. Qed.

Lemma mkdir_p_journal_of p : respects (journal_of creation_call) (mkdir_p p).
Proof.
  apply mkdir_p_respects;
    [apply journal_of_refl|apply journal_of_trans
    |intros q; by apply request_journal_of
    |intros q; by apply request_journal_of].
Qed.

Lemma mkdir_p_keeps_dirs p : respects keeps_dirs (mkdir_p p).
Proof.
  apply mkdir_p_respects;
    [apply keeps_dirs_refl|apply keeps_dirs_trans
    |apply stat_keeps_dirs|apply mkdir_keeps_dirs].
Qed.

Lemma request_grows_by {A} c (srv : Remote -> Reply A * Remote) w :
  after (grows_by 1 w) (with_sftp (fun _ => request c srv) w).
Proof.
  unfold with_sftp. unfold_m. destruct (sftp (dev w)).
  - unfold request. simpl. destruct (srv (remote w)) as [[a|e] r']; simpl;
      exists [c]; by split.
  - simpl. exists []. rewrite app_nil_r. split; [done|simpl; lia].
Qed.

Lemma grows_by_after {A} n m k w w1 (o : Outcome A) :
  grows_by n w w1 -> after (grows_by m w1) o -> (n + m <= k)%nat ->
  after (grows_by k w) o.
Proof.
  intros (m1 & H1 & Hl1) Ha Hk.
  destruct o as [a w2|e w2|]; simpl in *; [| |done];
    destruct Ha as (m2 & H2 & Hl2); exists (m1 ++ m2)%list;
    rewrite H2, H1, app_assoc, length_app; (split; [done|lia]).
Qed.

Lemma grows_by_refl n w : grows_by n w w.
Proof. exists []. rewrite app_nil_r. split; [done|simpl; lia]. Qed.

Lemma grows_by_le n k w w' : grows_by n w w' -> (n <= k)%nat -> grows_by k w w'.
Proof. intros (m & H & Hl) Hk. exists m. split; [done|lia]. Qed.

Lemma mkdir_p_loop_grows_by names : forall part w,
  after (grows_by (2 * length names) w) (mkdir_p_loop part names w).
Proof.
  induction names as [|n names IH]; intros part w; [apply grows_by_refl|].
  cbn [mkdir_p_loop length]. unfold_m.
  pose proof (request_grows_by (sftp_stat (posix.join part n))
                (server_stat (posix.join part n)) w) as Hst.
  fold (stat (posix.join part n)) in Hst.
  destruct (stat (posix.join part n) w) as [st w1|e w1|]; [| |done];
    simpl in Hst.
  - destruct (isDirectory st); simpl.
    + eapply grows_by_after; [exact Hst|apply IH|lia].
    + eapply grows_by_le; [exact Hst|lia].
  - case_bool_decide; simpl; [eapply grows_by_le; [exact Hst|lia]|].
    pose proof (request_grows_by (sftp_mkdir (posix.join part n))
                  (server_mkdir (posix.join part n)) w1) as Hmk.
    fold (mkdir (posix.join part n)) in Hmk.
    destruct (mkdir (posix.join part n) w1) as [[] w2|e' w2|]; [| |done];
      simpl in Hmk.
    + eapply grows_by_after; [exact Hst| |reflexivity].
      eapply grows_by_after; [exact Hmk|apply IH|lia].
    + eapply (grows_by_after 1 1); [exact Hst|exact Hmk|lia].
Qed.

Lemma mkdir_p_grows_by p w :
  after (grows_by (2 * length (tail (posix.split p))) w) (mkdir_p p w).
Proof.
  unfold mkdir_p. destruct (posix.isAbsolute p); simpl;
    [apply mkdir_p_loop_grows_by|apply grows_by_refl].
Qed.

(** X10. Whether it resolves or rejects, [mkdir_p] issues nothing but
    [stat] and [mkdir] requests, at most two for each segment of its path;
    it fires and reports nothing, leaves the device as it was, and every
    directory that the remote side showed before is still shown
    afterwards. *)
Theorem mkdir_p_requests (p : string) (w : World) :
  after (fun w' =>
           dev w' = dev w /\
           (forall q, dir_at (remote w) q -> dir_at (remote w') q) /\
           fired w' = fired w /\ reported w' = reported w /\
           exists more,
             calls w' = (calls w ++ more)%list /\
             forallb creation_call more = true /\
             (length more <= 2 * length (tail (posix.split p)))%nat)
        (mkdir_p p w).
Proof.
  pose proof (mkdir_p_keeps_dirs p w) as Hk.
  pose proof (mkdir_p_journal_of p w) as Hj.
  pose proof (mkdir_p_grows_by p w) as Hg.
  destruct (mkdir_p p w) as [a w'|e w'|]; simpl in *; [| |done];
    destruct Hk as [Hd Hq]; destruct Hj as (Hf & Hr & more & Hc & Hm);
    destruct Hg as (more' & Hc' & Hl);
    (split; [done|]); (split; [done|]); (split; [done|]); (split; [done|]);
    exists more; (split; [done|]); (split; [done|]);
    rewrite Hc in Hc'; apply app_inv_head in Hc'; by subst.
Qed.

(** X11. Whether it resolves or rejects, [rm_rf] issues nothing but
    [stat], [readdir], [unlink] and [rmdir] requests, fires and reports
    nothing, leaves the device as it was, and creates nothing: every entry
    of the remote tree afterwards was an entry before. *)
Theorem rm_rf_requests (fuel : nat) (p : string) (w : World) :
  after (fun w' =>
           (dev w' = dev w /\ nothing_restored w w') /\
           fired w' = fired w /\ reported w' = reported w /\
           exists more, calls w' = (calls w ++ more)%list /\
                        forallb removal_call more = true)
        (rm_rf fuel p w).
Proof.
  apply (after_and (fun w' => dev w' = dev w /\ nothing_restored w w')
                   (journal_of removal_call w)).
  - apply (after_and (fun w' => dev w' = dev w) (nothing_restored w)).
    + apply (respects_rm_rf same_dev); same_dev_side.
    + apply rm_rf_nothing_restored.
  - apply rm_rf_respects;
      [apply journal_of_refl|apply journal_of_trans
      |intros q; by apply request_journal_of..].
Qed.

(** X12. A failure of [mkdir_p] is stable: called again in the world the
    failed call left, it is rejected with the same error, and leaves the
    remote side and the device as the first call left them. *)
Theorem mkdir_p_fails_again (p : string) (w w1 : World) (e : Error) :
  mkdir_p p w = Reject e w1 ->
  exists w2,
    mkdir_p p w1 = Reject e w2 /\
    remote w2 = remote w1 /\ dev w2 = dev w1 /\ fired w2 = fired w1.
Proof.
  intros Hm. destruct (mkdir_p_rejected_again p w e w1 Hm) as (w2 & H2 & Hr & Hd).
  exists w2. repeat split; try done.
  pose proof (mkdir_p_journal_of p w1) as Ha. rewrite H2 in Ha.
  by destruct Ha as (Hf & _).
Qed.

Lemma mkdir_p_fails_again_witness :
  exists w1,
    mkdir_p "/a/b/c" (online (guarded [["a"; "b"]] empty_tree))
      = Reject permission_denied w1 /\
    exists w2,
      mkdir_p "/a/b/c" w1 = Reject permission_denied w2 /\
      remote w2 = remote w1 /\ dev w2 = dev w1 /\ fired w2 = fired w1.
Proof.
  eexists. split; [vm_compute; reflexivity|].
  apply (mkdir_p_fails_again "/a/b/c"
           (online (guarded [["a"; "b"]] empty_tree))).
  vm_compute. reflexivity.
Defined.

(** ** Removing twice, and creating again what was removed *)

Lemma stat_missing p w s :
  sftp (dev w) = Some s ->
  is_in (resolve (remote w) p) (unreadable (remote w)) = false ->
  find_node (resolve (remote w) p) (tree (remote w)) = None ->
  stat p w = Reject no_such_file (log_call (sftp_stat p) w).
Proof.
  intros Hs Hu Hf. rewrite (stat_connected p w s Hs).
  unfold server_stat. by rewrite Hu, Hf.
Qed.

(** X13. Unlike [rm -rf], [rm_rf] is not idempotent: once it has removed
    an entry, calling it again on the same path is rejected with the
    [No such file] error of its first [stat], and nothing else is
    requested. *)
Theorem rm_rf_twice (fuel : nat) (t : Node) (p : string) (w : World) :
  (height t < fuel)%nat -> removable p t w ->
  exists w1 w2,
    rm_rf fuel p w = Resolve tt w1 /\
    rm_rf fuel p w1 = Reject no_such_file w2 /\
    remote w2 = remote w1 /\
    calls w2 = (calls w1 ++ [sftp_stat p])%list.
Proof.
  intros Hh Hr.
  destruct (rm_rf_removes fuel t p w Hh Hr) as (w1 & Hrm & Hdev & Hrem & Hc).
  destruct Hr as (_ & [s Hs] & Hco & _ & Hne & Hf).
  exists w1, (log_call (sftp_stat p) w1). split; [done|].
  split; [|done].
  destruct fuel as [|fuel]; [lia|]. simpl. unfold_m.
  rewrite (stat_missing p w1 s); try done.
  - by rewrite Hdev.
  - rewrite Hrem. apply cooperative_is_in. by destruct Hco.
  - rewrite Hrem, resolve_set_tree. simpl.
    by apply (find_node_remove_at_self _ _ t).
Qed.

Lemma rm_rf_twice_witness :
  exists w1 w2,
    rm_rf 3 "/p" (online (quiet example_tree)) = Resolve tt w1 /\
    rm_rf 3 "/p" w1 = Reject no_such_file w2 /\
    remote w2 = remote w1 /\
    calls w2 = (calls w1 ++ [sftp_stat "/p"])%list.
Proof.
  apply (rm_rf_twice 3
           (Dir [("f1", File 1); ("f2", File 2); ("d", Dir [("f3", File 3)])])
           "/p" (online (quiet example_tree))).
  - vm_compute. lia.
  - repeat split; try (vm_compute; reflexivity); try done.
    by eexists.
Defined.

Lemma find_node_update_dir_prefix f q : forall rest t es,
  find_node (q ++ rest) t = Some (Dir es) ->
  exists es', find_node q (update_dir (q ++ rest) f t) = Some (Dir es').
Proof.
  induction q as [|s q IH]; intros rest t es Hf.
  - simpl. destruct t as [b|es0].
    + by destruct rest.
    + destruct rest; simpl; by eexists.
  - simpl in *. destruct t as [b|es0]; [done|].
    destruct (lookup_entry s es0) as [c|] eqn:Hl; [|done]. simpl.
    rewrite lookup_alter_entry, bool_decide_eq_true_2 by done.
    rewrite Hl. simpl. by eapply IH.
Qed.

(** On a cooperative remote where the names of [mid], from [pre] on, lead
    through directories and the entry [name] below them is missing, the
    loop passes over the directories and creates the entry. *)
Lemma mkdir_p_loop_creates_last name mid : forall pre w s,
  sftp (dev w) = Some s ->
  cooperative (remote w) ->
  Forall (fun f => plain_name f = true) pre ->
  Forall (fun f => plain_name f = true) mid ->
  plain_name name = true ->
  (forall k, (k <= length mid)%nat ->
     exists es, find_node (pre ++ take k mid) (tree (remote w)) = Some (Dir es)) ->
  find_node (pre ++ mid ++ [name]) (tree (remote w)) = None ->
  exists w2,
    mkdir_p_loop ("/" +:+ posix.unsplit pre) (mid ++ [name]) w = Resolve tt w2 /\
    dev w2 = dev w /\
    remote w2 =
      set_tree (update_dir (pre ++ mid) (fun es => (es ++ [(name, Dir [])])%list)
                           (tree (remote w))) (remote w).
Proof.
  induction mid as [|m mid IH]; intros pre w s Hs Hco Hpre Hmid Hname Hdirs Hnone.
  - cbn [app] in *. rewrite app_nil_r.
    rewrite (mkdir_p_loop_step _ _ _ _ s Hs). cbn zeta.
    rewrite join_clean by done.
    destruct (cooperative_is_in (remote w) (pre ++ [name]) Hco) as [Hu Hl].
    assert (Hres : resolve (remote w) ("/" +:+ posix.unsplit (pre ++ [name]))
                   = (pre ++ [name])%list).
    { apply resolve_clean. apply Forall_app. split; [done|by constructor]. }
    unfold server_stat. rewrite Hres, Hu, Hnone. simpl.
    unfold server_mkdir. rewrite Hres, Hnone, split_last_snoc.
    destruct (Hdirs 0%nat) as [es Hes]; [simpl; lia|].
    simpl in Hes. rewrite app_nil_r in Hes. rewrite Hes, Hl.
    eexists. split; [reflexivity|]. split; reflexivity.
  - apply Forall_cons in Hmid as [Hm Hmid].
    cbn [app]. rewrite (mkdir_p_loop_step _ _ _ _ s Hs). cbn zeta.
    rewrite join_clean by done.
    destruct (cooperative_is_in (remote w) (pre ++ [m]) Hco) as [Hu Hl].
    assert (Hres : resolve (remote w) ("/" +:+ posix.unsplit (pre ++ [m]))
                   = (pre ++ [m])%list).
    { apply resolve_clean. apply Forall_app. split; [done|by constructor]. }
    destruct (Hdirs 1%nat) as [es Hes]; [simpl; lia|].
    change (take 1 (m :: mid)) with [m] in Hes.
    unfold server_stat. rewrite Hres, Hu, Hes. simpl.
    destruct (IH (pre ++ [m])%list
                 (log_call (sftp_stat ("/" +:+ posix.unsplit (pre ++ [m]))) w) s)
      as (w2 & Hloop & Hdev & Hrem); try done.
    + apply Forall_app. split; [done|by constructor].
    + intros k Hk. destruct (Hdirs (S k)) as [es' Hes']; [simpl; lia|].
      exists es'. simpl in *. by rewrite <- app_assoc.
    + simpl. by rewrite <- app_assoc.
    + exists w2. split; [done|]. split; [done|].
      rewrite Hrem. simpl. by rewrite <- app_assoc.
Qed.

(** X14. On a cooperative remote, removing an entry with [rm_rf] and then
    calling [mkdir_p] on the same clean path leaves an empty directory in
    its place: the parent's listing has lost the entry and gained, at its
    end, an empty directory of that name; the rest of the tree and the
    device are as they were. *)
Theorem rm_rf_then_mkdir_p (fuel : nat) (t : Node) (parent : list string)
    (name : string) (w : World) :
  Forall (fun f => plain_name f = true) (parent ++ [name]) ->
  (height t < fuel)%nat ->
  removable ("/" +:+ posix.unsplit (parent ++ [name])) t w ->
  exists w1 w2,
    rm_rf fuel ("/" +:+ posix.unsplit (parent ++ [name])) w = Resolve tt w1 /\
    mkdir_p ("/" +:+ posix.unsplit (parent ++ [name])) w1 = Resolve tt w2 /\
    dev w2 = dev w /\
    tree (remote w2) =
      update_dir parent
        (fun es => (remove_entry name es ++ [(name, Dir [])])%list)
        (tree (remote w)) /\
    find_node (parent ++ [name]) (tree (remote w2)) = Some (Dir []).
Proof.
  intros Hplain Hh Hr.
  set (p := "/" +:+ posix.unsplit (parent ++ [name])) in *.
  destruct (rm_rf_removes fuel t p w Hh Hr) as (w1 & Hrm & Hdev & Hrem & Hc).
  destruct Hr as (_ & [s Hs] & Hco & _ & Hne & Hf).
  assert (Hres : resolve (remote w) p = (parent ++ [name])%list)
    by by apply resolve_clean.
  rewrite Hres in *. rewrite remove_at_snoc in Hrem.
  apply Forall_app in Hplain as [Hparent Hname].
  apply Forall_cons in Hname as [Hname _].
  assert (Hpd : exists es, find_node parent (tree (remote w)) = Some (Dir es)).
  { rewrite find_node_app in Hf.
    destruct (find_node parent (tree (remote w))) as [[b|es]|]; try done.
    by exists es. }
  destruct Hpd as [es Hes].
  destruct (mkdir_p_loop_creates_last name parent [] w1 s) as (w2 & Hloop & Hdev2 & Hrem2).
  - by rewrite Hdev.
  - rewrite Hrem. by destruct Hco.
  - done.
  - done.
  - done.
  - intros k Hk. rewrite Hrem. simpl.
    destruct (find_node_update_dir_prefix (remove_entry name) (take k parent)
                (drop k parent) (tree (remote w)) es) as [es' Hes'];
      [by rewrite take_drop|].
    rewrite take_drop in Hes'. by exists es'.
  - rewrite Hrem. simpl. rewrite <- remove_at_snoc.
    by apply (find_node_remove_at_self _ _ t).
  - exists w1, w2. split; [done|].
    assert (Htree : tree (remote w2) =
              update_dir parent
                (fun es => (remove_entry name es ++ [(name, Dir [])])%list)
                (tree (remote w))).
    { rewrite Hrem2, Hrem. simpl. by rewrite update_dir_compose. }
    split; [|split; [congruence|split; [done|]]].
    + unfold mkdir_p.
      change (posix.isAbsolute p) with true. cbn [negb].
      subst p.
      change ("/" +:+ posix.unsplit (parent ++ [name]))
        with ("" +:+ "/" +:+ posix.unsplit (parent ++ [name])).
      rewrite split_app, split_unsplit;
        [|by destruct parent|apply Forall_app; split; [done|by constructor]].
      exact Hloop.
    + rewrite Htree.
      rewrite <- (update_dir_compose (remove_entry name)
                    (fun es => (es ++ [(name, Dir [])])%list)).
      eapply find_node_update_new.
      * by apply find_node_update_dir_same.
      * rewrite lookup_remove_entry. by rewrite bool_decide_eq_true_2.
Qed.

Lemma rm_rf_then_mkdir_p_witness :
  exists w1 w2,
    rm_rf 3 "/p/d" (online (quiet example_tree)) = Resolve tt w1 /\
    mkdir_p "/p/d" w1 = Resolve tt w2 /\
    dev w2 = dev (online (quiet example_tree)) /\
    tree (remote w2) =
      Dir [("p", Dir [("f1", File 1); ("f2", File 2); ("d", Dir [])])] /\
    find_node ["p"; "d"] (tree (remote w2)) = Some (Dir []).
Proof.
  apply (rm_rf_then_mkdir_p 3 (Dir [("f3", File 3)]) ["p"] "d"
           (online (quiet example_tree))).
  - repeat constructor.
  - vm_compute. lia.
  - repeat split; try (vm_compute; reflexivity); try done.
    by eexists.
Defined.

(** ** When [mkdir_p] succeeds *)

Lemma set_tree_cooperative t r : cooperative r -> cooperative (set_tree t r).
Proof. by intros [Hl Hu]. Qed.

(** From a directory at [pre], over names none of which leads to a file,
    the loop comes to its end. *)
Lemma mkdir_p_loop_makes names : forall pre w s,
  sftp (dev w) = Some s ->
  cooperative (remote w) ->
  Forall (fun f => plain_name f = true) pre ->
  Forall (fun f => plain_name f = true) names ->
  (exists es, find_node pre (tree (remote w)) = Some (Dir es)) ->
  (forall k b, (1 <= k <= length names)%nat ->
     find_node (pre ++ take k names) (tree (remote w)) <> Some (File b)) ->
  exists w', mkdir_p_loop ("/" +:+ posix.unsplit pre) names w = Resolve tt w'.
Proof.
  induction names as [|n names IH]; intros pre w s Hs Hco Hpre Hnames [es Hes] Hnf.
  { by eexists. }
  apply Forall_cons in Hnames as [Hn Hnames].
  rewrite (mkdir_p_loop_step _ _ _ _ s Hs). cbn zeta.
  rewrite join_clean by done.
  destruct (cooperative_is_in (remote w) (pre ++ [n]) Hco) as [Hu Hl].
  assert (Hpl : Forall (fun f => plain_name f = true) (pre ++ [n])).
  { apply Forall_app. split; [done|by constructor]. }
  assert (Hres : resolve (remote w) ("/" +:+ posix.unsplit (pre ++ [n]))
                 = (pre ++ [n])%list) by by apply resolve_clean.
  unfold server_stat. rewrite Hres, Hu.
  destruct (find_node (pre ++ [n]) (tree (remote w))) as [[b|es']|] eqn:Hq; simpl.
  - exfalso. apply (Hnf 1%nat b); [simpl; lia|done].
  - apply (IH (pre ++ [n])%list _ s); [done|done|done|done| |].
    + by exists es'.
    + intros k b Hk. rewrite <- app_assoc. apply (Hnf (S k) b). simpl. lia.
  - unfold server_mkdir. rewrite Hres, Hq, split_last_snoc, Hes, Hl.
    assert (Hlk : lookup_entry n es = None).
    { rewrite find_node_app, Hes in Hq. simpl in Hq.
      by destruct (lookup_entry n es). }
    apply (IH (pre ++ [n])%list _ s);
      [done|by apply set_tree_cooperative|done|done| |].
    + exists []. simpl. by apply (find_node_update_new n (Dir []) pre _ es).
    + intros k b Hk. simpl. rewrite find_node_app.
      rewrite (find_node_update_new n (Dir []) pre _ es Hes Hlk). simpl.
      destruct (take k names) eqn:Ht; [|done].
      destruct names; simpl in *; [lia|]. destruct k; [lia|done].
Qed.

(** The loop stops at the first name that leads to a file, having done
    nothing but stat the paths up to it. *)
Lemma mkdir_p_loop_stops names : forall pre w s k b,
  sftp (dev w) = Some s ->
  cooperative (remote w) ->
  Forall (fun f => plain_name f = true) pre ->
  Forall (fun f => plain_name f = true) names ->
  (1 <= k <= length names)%nat ->
  find_node (pre ++ take k names) (tree (remote w)) = Some (File b) ->
  exists w',
    mkdir_p_loop ("/" +:+ posix.unsplit pre) names w
      = Reject (not_a_directory ("/" +:+ posix.unsplit (pre ++ take k names))) w' /\
    remote w' = remote w /\ dev w' = dev w /\
    calls w' =
      (calls w ++
       map (fun i => sftp_stat ("/" +:+ posix.unsplit (pre ++ take i names)))
           (seq 1 k))%list.
Proof.
  induction names as [|n names IH]; intros pre w s k b Hs Hco Hpre Hnames Hk Hf.
  { simpl in Hk. lia. }
  apply Forall_cons in Hnames as [Hn Hnames].
  rewrite (mkdir_p_loop_step _ _ _ _ s Hs). cbn zeta.
  rewrite join_clean by done.
  destruct (cooperative_is_in (remote w) (pre ++ [n]) Hco) as [Hu Hl].
  assert (Hpl : Forall (fun f => plain_name f = true) (pre ++ [n])).
  { apply Forall_app. split; [done|by constructor]. }
  assert (Hres : resolve (remote w) ("/" +:+ posix.unsplit (pre ++ [n]))
                 = (pre ++ [n])%list) by by apply resolve_clean.
  unfold server_stat. rewrite Hres, Hu.
  destruct k as [|k]; [lia|].
  change (take (S k) (n :: names)) with (n :: take k names) in Hf.
  change (take (S k) (n :: names)) with (n :: take k names).
  replace (pre ++ n :: take k names)%list
    with ((pre ++ [n]) ++ take k names)%list in * by by rewrite <- app_assoc.
  assert (Hshift : map (fun i => sftp_stat ("/" +:+ posix.unsplit
                                   (pre ++ take i (n :: names))))
                       (seq 1 (S k))
                   = sftp_stat ("/" +:+ posix.unsplit (pre ++ [n])) ::
                     map (fun i => sftp_stat ("/" +:+ posix.unsplit
                                     ((pre ++ [n]) ++ take i names)))
                         (seq 1 k)).
  { cbn [seq map]. f_equal. rewrite <- (seq_shift _ 1), map_map.
    apply map_ext. intros i.
    change (take (S i) (n :: names)) with (n :: take i names).
    by rewrite <- app_assoc. }
  rewrite Hshift.
  rewrite find_node_app in Hf.
  destruct (find_node (pre ++ [n]) (tree (remote w))) as [[b'|es']|] eqn:Hq;
    simpl in Hf; [| |done].
  - destruct (take k names) eqn:Ht; [|done]. simpl.
    rewrite app_nil_r. eexists. split; [reflexivity|].
    repeat split. simpl. f_equal. f_equal.
    destruct k; [done|]. destruct names; [simpl in Hk; lia|done].
  - simpl. destruct k as [|k].
    { by rewrite take_0 in Hf. }
    destruct (IH (pre ++ [n])%list
                 (log_call (sftp_stat ("/" +:+ posix.unsplit (pre ++ [n]))) w)
                 s (S k) b) as (w' & Hr & Hrem & Hdev & Hc);
      [done|done|done|done|simpl in Hk |- *; lia| |].
    + simpl. by rewrite find_node_app, Hq.
    + exists w'. split; [done|]. split; [done|]. split; [done|].
      rewrite Hc. simpl. by rewrite <- app_assoc.
Qed.

(** X15. On a cooperative remote, [mkdir_p] of a clean absolute path fails
    for one reason only.  If none of the prefixes of the path is a regular
    file, it resolves and the path is a directory afterwards.  If a prefix is
    a regular file, it is rejected with the error whose message quotes that
    prefix, having stat-ed the prefixes up to it and changed nothing. *)
Theorem mkdir_p_succeeds_unless_file (names : list string) (w : World)
    (s : SFTPWrapper) :
  sftp (dev w) = Some s ->
  cooperative (remote w) ->
  names <> [] -> Forall (fun f => plain_name f = true) names ->
  ((forall k b, find_node (take k names) (tree (remote w)) <> Some (File b)) ->
   exists w',
     mkdir_p ("/" +:+ posix.unsplit names) w = Resolve tt w' /\
     dir_at (remote w') ("/" +:+ posix.unsplit names)) /\
  (forall k b,
     find_node (take k names) (tree (remote w)) = Some (File b) ->
     (1 <= k <= length names)%nat ->
     exists w',
       mkdir_p ("/" +:+ posix.unsplit names) w
         = Reject (mkError ("Cannot create directory: " +:+
                            String "034" ("/" +:+ posix.unsplit (take k names)) +:+
                            String "034" " exists but isn't a directory") None)
                  w' /\
       remote w' = remote w /\ dev w' = dev w /\
       calls w' =
         (calls w ++
          map (fun i => sftp_stat ("/" +:+ posix.unsplit (take i names)))
              (seq 1 k))%list).
Proof.
  intros Hs Hco Hne Hplain.
  assert (Hloop : mkdir_p ("/" +:+ posix.unsplit names) w
                  = mkdir_p_loop ("/" +:+ posix.unsplit []) names w).
  { unfold mkdir_p. change (posix.isAbsolute ("/" +:+ posix.unsplit names)) with true.
    cbn [negb].
    change ("/" +:+ posix.unsplit names) with ("" +:+ "/" +:+ posix.unsplit names).
    by rewrite split_app, split_unsplit. }
  split.
  - intros Hnf.
    assert (Hroot : exists es, find_node [] (tree (remote w)) = Some (Dir es)).
    { simpl. destruct (tree (remote w)) as [b|es] eqn:Ht; [|by exists es].
      exfalso. apply (Hnf 0%nat b). rewrite take_0. simpl. by f_equal. }
    destruct (mkdir_p_loop_makes names [] w s Hs Hco ltac:(done) Hplain Hroot)
      as [w' Hw'].
    { intros k b _. apply Hnf. }
    rewrite <- Hloop in Hw'. exists w'. split; [done|].
    by destruct (mkdir_p_resolved_dir_at _ _ _ Hw').
  - intros k b Hf Hk. rewrite Hloop.
    change (mkError _ None)
      with (not_a_directory ("/" +:+ posix.unsplit (take k names))).
    by apply (mkdir_p_loop_stops names [] w s k b).
Qed.

Lemma mkdir_p_succeeds_unless_file_witness :
  (exists w',
     mkdir_p "/p/d/new/dir" (online (quiet example_tree)) = Resolve tt w' /\
     dir_at (remote w') "/p/d/new/dir") /\
  (exists w',
     mkdir_p "/p/f1/new" (online (quiet example_tree))
       = Reject (mkError ("Cannot create directory: " +:+ String "034" "/p/f1" +:+
                          String "034" " exists but isn't a directory") None)
                w' /\
     remote w' = quiet example_tree /\
     dev w' = dev (online (quiet example_tree)) /\
     calls w' = [sftp_stat "/p"; sftp_stat "/p/f1"]).
Proof.
  split.
  - destruct (mkdir_p_succeeds_unless_file ["p"; "d"; "new"; "dir"]
                (online (quiet example_tree)) sftp_session) as [Hok _];
      [reflexivity|done|done|repeat constructor|].
    apply Hok. intros k b.
    destruct k as [|[|[|[|[|k]]]]]; vm_compute; discriminate.
  - destruct (mkdir_p_succeeds_unless_file ["p"; "f1"; "new"]
                (online (quiet example_tree)) sftp_session) as [_ Hfile];
      [reflexivity|done|done|repeat constructor|].
    apply (Hfile 2%nat 1); [reflexivity|simpl; lia].
Defined.

(** ** The outcome of a transfer *)

Lemma for_of_unobserved (l : list (number * number * number)) : forall w,
  for_of l (fun '(transferred, chunk, total) =>
              step None transferred chunk total) w
  = Resolve tt w.
Proof.
  induction l as [|[[t c] tot] l IH]; intros w; [done|].
  simpl. unfold_m. simpl. apply IH.
Qed.

Lemma transfer_outcome_of c p observed w :
  exists w',
    transfer c p (observer observed) w =
      match transfer_error (remote w) p with
      | Some e => Reject e w'
      | None => Resolve tt w'
      end /\
    calls w' = (calls w ++ [c])%list /\
    reported w' = (reported w ++ percentages_of (remote w) p observed)%list /\
    dev w' = dev w /\ fired w' = fired w.
Proof.
  unfold transfer. unfold_m. simpl. destruct observed; simpl.
  - rewrite for_of_report. simpl.
    destruct (transfer_error (remote w) p); eexists; (split; [reflexivity|]);
      by repeat split.
  - rewrite for_of_unobserved. simpl.
    destruct (transfer_error (remote w) p); eexists; (split; [reflexivity|]);
      simpl; rewrite ?app_nil_r; by repeat split.
Qed.

(** X16. On a device with an open SFTP channel, [get] and [put] make
    exactly one request, [fastGet] or [fastPut] with the paths (and, for
    [put], the mode) they were given.  With a progress callback one
    percentage is reported per chunk that the transport reports, in order;
    without one nothing is reported.  The promise settles after that: it is
    rejected with the error of the transport when there is one, so a failed
    transfer has still reported the chunks that came before, and resolves
    otherwise.  The device and the events fired are left alone. *)
Theorem transfer_outcome (w : World) (s : SFTPWrapper) (observed : bool) :
  sftp (dev w) = Some s ->
  (forall r l,
     exists w',
       get r l (observer observed) w =
         match transfer_error (remote w) r with
         | Some e => Reject e w'
         | None => Resolve tt w'
         end /\
       calls w' = (calls w ++ [sftp_fastGet r l])%list /\
       reported w' = (reported w ++ percentages_of (remote w) r observed)%list /\
       dev w' = dev w /\ fired w' = fired w) /\
  (forall l r m,
     exists w',
       put l r m (observer observed) w =
         match transfer_error (remote w) r with
         | Some e => Reject e w'
         | None => Resolve tt w'
         end /\
       calls w' = (calls w ++ [sftp_fastPut l r m])%list /\
       reported w' = (reported w ++ percentages_of (remote w) r observed)%list /\
       dev w' = dev w /\ fired w' = fired w).
Proof.
  intros Hs. split; intros; unfold get, put;
    rewrite (with_sftp_some _ _ _ Hs); apply transfer_outcome_of.
Qed.

Lemma transfer_outcome_witness :
  exists w',
    get "/home/robot/a.py" "a.py" (observer true)
        (online (interrupted 200 [(50, 50); (100, 50)] failure))
      = Reject failure w' /\
    calls w' = [sftp_fastGet "/home/robot/a.py" "a.py"] /\
    reported w' = [number_of_Z 25; number_of_Z 50] /\
    dev w' = dev (online (interrupted 200 [(50, 50); (100, 50)] failure)) /\
    fired w' = [].
Proof.
  destruct (transfer_outcome
              (online (interrupted 200 [(50, 50); (100, 50)] failure))
              sftp_session true eq_refl) as [Hget _].
  apply (Hget "/home/robot/a.py" "a.py").
Defined.

(** ** The order of the calls *)

Lemma channel_run_app l1 l2 st :
  channel_run st (l1 ++ l2) =
    match channel_run st l1 with
    | Some st' => channel_run st' l2
    | None => None
    end.
Proof.
  revert st. induction l1 as [|c l1 IH]; intros st; simpl; [done|].
  destruct (channel_step st c); [apply IH|done].
Qed.

Lemma channel_run_calls open st more :
  Forall (channel_call open) more -> (open = true -> st = true) ->
  channel_run st more = Some st.
Proof.
  intros Hall Hst. induction Hall as [|c more Hc _ IH]; [done|].
  simpl. destruct Hc as [[cmd ->]|[Ho Hr]]; [done|].
  rewrite (Hst Ho) in *. by destruct c.
Qed.

Lemma on_channel_refl w : on_channel w w.
Proof. split; [done|]. exists []. by rewrite app_nil_r. Qed.

Lemma on_channel_trans w1 w2 w3 :
  on_channel w1 w2 -> on_channel w2 w3 -> on_channel w1 w3.
Proof.
  intros (Hd1 & m1 & Hc1 & Hf1) (Hd2 & m2 & Hc2 & Hf2).
  split; [congruence|]. exists (m1 ++ m2)%list.
  rewrite Hc2, Hc1, app_assoc. split; [done|].
  apply Forall_app. split; [done|]. by rewrite <- Hd1.
Qed.

Lemma request_on_channel {A} c (srv : Remote -> Reply A * Remote) :
  sftp_request c = true ->
  respects on_channel (with_sftp (fun _ => request c srv)).
Proof.
  intros Hc w. unfold with_sftp. unfold_m.
  destruct (sftp (dev w)) as [s|] eqn:Hs; [|apply on_channel_refl].
  unfold request. simpl.
  destruct (srv (remote w)) as [[a|e] r']; simpl;
    (split; [done|]; exists [c]; split; [done|]; constructor; [|done];
     right; unfold has_channel; by rewrite Hs).
Qed.

Lemma exec_on_channel cmd : respects on_channel (exec cmd).
Proof.
  intros w. unfold exec, Client_exec.
  destruct (connected (client (dev w))); [|apply on_channel_refl]. simpl.
  destruct (exec_refusal (remote w)); simpl;
    (split; [done|]; exists [client_exec cmd]; split; [done|];
     constructor; [|done]; left; by exists cmd).
Qed.

Lemma transfer_on_channel c p b :
  sftp_request c = true ->
  respects on_channel (with_sftp (fun _ => transfer c p (observer b))).
Proof.
  intros Hc w. unfold with_sftp. unfold_m.
  destruct (sftp (dev w)) as [s|] eqn:Hs; [|apply on_channel_refl].
  destruct (transfer_outcome_of c p b w) as (w' & -> & Hcalls & _ & Hdev & _).
  assert (on_channel w w').
  { split; [done|]. exists [c]. split; [done|]. constructor; [|done].
    right. unfold has_channel. by rewrite Hs. }
  by destruct (transfer_error (remote w) p).
Qed.

Lemma file_operation_on_channel (o : Op) :
  file_operation o = true -> respects on_channel (run o).
Proof.
  pose proof on_channel_refl as Hrefl.
  pose proof on_channel_trans as Htrans.
  intros Ho. destruct o; try discriminate Ho; cbn [run]; unfold discard.
  - by apply request_on_channel.
  - apply respects_bind; [auto|apply exec_on_channel|].
    intros _. apply respects_ret; auto.
  - by apply request_on_channel.
  - apply mkdir_p_respects; auto; intros q; by apply request_on_channel.
  - by apply transfer_on_channel.
  - by apply transfer_on_channel.
  - apply respects_bind; [auto|by apply request_on_channel|].
    intros _. apply respects_ret; auto.
  - apply respects_bind; [auto|by apply request_on_channel|].
    intros _. apply respects_ret; auto.
  - by apply request_on_channel.
  - apply rm_rf_respects; auto; intros q; by apply request_on_channel.
  - by apply request_on_channel.
Qed.

Lemma disconnect_in_order w :
  calls_in_order w -> after calls_in_order (disconnect w).
Proof.
  intros (st & Hrun & Hst). unfold disconnect. unfold_m. simpl.
  unfold calls_in_order, has_channel in *.
  destruct (sftp (dev w)) as [s|] eqn:Hs; simpl.
  - rewrite (Hst eq_refl) in Hrun. exists false.
    rewrite <- app_assoc, channel_run_app, Hrun. by split.
  - exists st. rewrite Hs. rewrite channel_run_app, Hrun. by split.
Qed.

Lemma connect_in_order w :
  calls_in_order w -> after calls_in_order (connect w).
Proof.
  intros (st & Hrun & Hst).
  unfold connect, connectClient, getSftp, disconnect, stat, with_sftp, request.
  unfold_m. simpl. unfold calls_in_order, has_channel in *.
  destruct (handshake (remote w)) as [e|]; simpl.
  { exists st. rewrite channel_run_app, Hrun. by split. }
  destruct (subsystem (remote w)) as [e|]; simpl.
  { destruct (sftp (dev w)) as [s|] eqn:Hs; simpl.
    - exists false. rewrite <- !app_assoc, channel_run_app, Hrun. by split.
    - exists true. rewrite ?Hs. rewrite <- !app_assoc, channel_run_app, Hrun.
      by split. }
  destruct (server_stat _ _) as [[a|e] r']; simpl.
  - exists true. rewrite <- !app_assoc, channel_run_app, Hrun. by split.
  - exists false. rewrite <- !app_assoc, channel_run_app, Hrun. by split.
Qed.

Lemma run_in_order o w :
  calls_in_order w -> after calls_in_order (run o w).
Proof.
  intros Hin.
  destruct (file_operation o) eqn:Hfo.
  { pose proof (file_operation_on_channel o Hfo w) as Ha.
    destruct Hin as (st & Hrun & Hst).
    destruct (run o w); simpl in *; try done;
      destruct Ha as (Hd & more & Hc & Hall); exists st;
      rewrite Hc, channel_run_app, Hrun, Hd;
      (split; [by eapply channel_run_calls|done]). }
  destruct o; try discriminate Hfo; cbn [run]; unfold on_close.
  - by apply connect_in_order.
  - by apply disconnect_in_order.
  - by apply disconnect_in_order.
  - done.
Qed.

(** X17. In the calls made on the ssh2 objects of a device, from its
    creation on and whatever is done with it, every request on the SFTP
    channel, and every [sftp.end], comes after a [client.sftp] with no
    [sftp.end] in between: nothing is ever sent on a channel that was not
    asked for or has been ended. *)
Theorem calls_on_open_channel (w : World) :
  reachable w -> is_Some (channel_run false (calls w)).
Proof.
  intros Hr.
  assert (Hin : calls_in_order w).
  { induction Hr as [|w o w' _ IH Hw]; [by exists false|].
    pose proof (run_in_order o w IH) as Ha.
    destruct (run o w); simpl in *; by simplify_eq. }
  destruct Hin as (st & -> & _). by eexists.
Qed.

Lemma calls_on_open_channel_witness :
  exists w1 w2 w3,
    world_of (connect (fresh "linux" (quiet home_tree))) = Some w1 /\
    world_of (mkdir_p "/home/robot/src" w1) = Some w2 /\
    world_of (disconnect w2) = Some w3 /\
    is_Some (channel_run false (calls w3)).
Proof.
  eexists _, _, _. split; [vm_compute; reflexivity|].
  split; [vm_compute; reflexivity|]. split; [vm_compute; reflexivity|].
  apply calls_on_open_channel.
  eapply (reach_step _ op_disconnect);
    [eapply (reach_step _ (op_mkdir_p "/home/robot/src"));
       [eapply (reach_step (fresh "linux" (quiet home_tree)) op_connect);
          [apply reach_new|vm_compute; reflexivity]
       |vm_compute; reflexivity]
    |vm_compute; reflexivity].
Defined.

(** ** How far the reported percentage is from the exact one *)

Lemma rne_error a b : 0 < b -> - b <= 2 * (rne a b * b - a) <= b.
Proof.
  intros Hb. unfold rne.
  pose proof (Z.div_mod a b ltac:(lia)) as Hdm.
  pose proof (Z.mod_pos_bound a b Hb) as Hr.
  destruct (Z.ltb_spec (2 * (a mod b)) b); [nia|].
  destruct (Z.ltb_spec b (2 * (a mod b))); [nia|].
  destruct (Z.even (a / b)); nia.
Qed.

Lemma scaled_renorm me :
  0 <= scale + snd me -> scaled (renorm me) = scaled me.
Proof.
  intros He. unfold renorm, scaled. destruct (Z.eqb_spec (fst me) (2 ^ 53)) as [Hm|]; [|done].
  cbn [fst snd]. rewrite Hm.
  replace (scale + (snd me + 1)) with (scale + snd me + 1) by lia.
  rewrite Z.pow_add_r by lia. lia.
Qed.

Lemma scaled_normal_form t :
  1 <= t < 2 ^ 53 -> scaled (normal_form t) = t * 2 ^ scale.
Proof.
  intros Ht. destruct (normal_form_spec t Ht) as (_ & He & Hm).
  unfold scaled. rewrite Hm, <- Z.mul_assoc, <- Z.pow_add_r by (unfold scale; lia).
  f_equal. f_equal. lia.
Qed.

(** The quotient is within half a unit in the last place of [t / N]. *)
Lemma div_error t N (q := div_spec (normal_form t) (normal_form N)) :
  1 <= N < 2 ^ 53 -> 1 <= t <= N ->
  - (N * 2 ^ (scale - 52)) <= 2 * (scaled q * N - t * 2 ^ scale)
    <= N * 2 ^ (scale - 52).
Proof.
  intros HN Ht.
  destruct (percentage_stages t N ltac:(lia) Ht) as (_ & _ & Hq1 & _).
  fold q in Hq1.
  destruct (normal_form_spec t ltac:(lia)) as (Hnx & Hex & Hmx).
  destruct (normal_form_spec N HN) as (Hny & Hey & Hmy).
  subst q. unfold div_spec in *.
  set (x := normal_form t) in *. set (y := normal_form N) in *.
  set (p := if fst y <=? fst x then 1 else 0) in *.
  assert (Hp : 0 <= p <= 1) by (subst p; destruct (fst y <=? fst x); lia).
  set (mq0 := rne (fst x * 2 ^ 53) (fst y * 2 ^ p)) in *.
  set (eq0 := snd x - snd y - 53 + p) in *.
  pose proof (renorm_snd (mq0, eq0)) as Hrs. cbn [snd] in Hrs.
  assert (He0 : eq0 <= -52).
  { destruct Hq1 as [Hlt|[Heq _]]; cbn [snd] in *; lia. }
  rewrite scaled_renorm by (cbn [snd]; unfold scale; lia).
  unfold scaled. cbn [fst snd].
  assert (Hy : 0 < fst y * 2 ^ p) by (unfold normal in Hny; nia).
  pose proof (rne_error (fst x * 2 ^ 53) (fst y * 2 ^ p) Hy) as Herr.
  fold mq0 in Herr. rewrite Hmx, Hmy in Herr.
  set (c := 2 ^ (scale + snd x - 53)).
  assert (Hc : 0 < c) by (apply Z.pow_pos_nonneg; unfold scale; lia).
  assert (HE : 2 ^ (- snd y) * 2 ^ p * c = 2 ^ (scale + eq0)).
  { unfold c. rewrite <- !Z.pow_add_r by (unfold scale; lia).
    f_equal. unfold eq0. lia. }
  assert (HS : 2 ^ (- snd x) * 2 ^ 53 * c = 2 ^ scale).
  { unfold c. rewrite <- !Z.pow_add_r by (unfold scale; lia).
    f_equal. lia. }
  assert (Hle : 2 ^ (scale + eq0) <= 2 ^ (scale - 52))
    by (apply Z.pow_le_mono_r; lia).
  assert (H1 : (mq0 * (N * 2 ^ (- snd y) * 2 ^ p) - t * 2 ^ (- snd x) * 2 ^ 53) * c
               = mq0 * 2 ^ (scale + eq0) * N - t * 2 ^ scale).
  { rewrite <- HE, <- HS. ring. }
  assert (H2 : N * 2 ^ (- snd y) * 2 ^ p * c = N * 2 ^ (scale + eq0)).
  { rewrite <- HE. ring. }
  nia.
Qed.

(** The product is within half a unit in the last place of a hundred times
    the quotient. *)
Lemma mul100_error q (c := mul100_spec q) :
  normal q -> -150 <= snd q -> snd c <= -46 ->
  - 2 ^ (scale - 46) <= 2 * (scaled c - 100 * scaled q) <= 2 ^ (scale - 46).
Proof.
  intros Hnq Hq Hc. subst c. unfold mul100_spec in *.
  set (M := fst q * m100) in *.
  set (p := if M <? 2 ^ 105 then 52 else 53) in *.
  assert (Hp : 52 <= p <= 53) by (subst p; destruct (M <? 2 ^ 105); lia).
  set (mr0 := rne M (2 ^ p)) in *.
  set (er0 := snd q - 46 + p) in *.
  pose proof (renorm_snd (mr0, er0)) as Hrs. cbn [snd] in Hrs.
  rewrite scaled_renorm by (cbn [snd]; unfold scale; lia).
  unfold scaled. cbn [fst snd].
  assert (Hpp : 0 < 2 ^ p) by (apply Z.pow_pos_nonneg; lia).
  pose proof (rne_error M (2 ^ p) Hpp) as Herr. fold mr0 in Herr.
  set (c := 2 ^ (scale + snd q - 46)).
  assert (Hc0 : 0 < c) by (apply Z.pow_pos_nonneg; unfold scale; lia).
  assert (HE : 2 ^ p * c = 2 ^ (scale + er0)).
  { unfold c. rewrite <- Z.pow_add_r by (unfold scale; lia).
    f_equal. unfold er0. lia. }
  assert (HS : 2 ^ 46 * c = 2 ^ (scale + snd q)).
  { unfold c. rewrite <- Z.pow_add_r by (unfold scale; lia). f_equal. lia. }
  assert (Hle : 2 ^ (scale + er0) <= 2 ^ (scale - 46))
    by (apply Z.pow_le_mono_r; lia).
  assert (H1 : (mr0 * 2 ^ p - M) * c
               = mr0 * 2 ^ (scale + er0) - 100 * (fst q * 2 ^ (scale + snd q))).
  { rewrite <- HE, <- HS. unfold M, m100. ring. }
  nia.
Qed.

(** [round_spec] is the floor of the value plus one half. *)
Lemma round_spec_scaled c (k := round_spec c) :
  snd c < 0 -> 1 <= scale + snd c ->
  2 ^ scale * k <= scaled c + 2 ^ (scale - 1) < 2 ^ scale * (k + 1).
Proof.
  intros Hc Hs. subst k. unfold round_spec, scaled.
  set (m := fst c) in *. set (e := snd c) in *.
  assert (Hd : 0 < 2 ^ (1 - e)) by (apply Z.pow_pos_nonneg; lia).
  pose proof (Z.mul_div_le (2 * m + 2 ^ (- e)) (2 ^ (1 - e)) Hd) as Hlo.
  pose proof (Z.mul_succ_div_gt (2 * m + 2 ^ (- e)) (2 ^ (1 - e)) Hd) as Hhi.
  set (k := (2 * m + 2 ^ (- e)) / 2 ^ (1 - e)) in *.
  set (g := 2 ^ (scale + e - 1)).
  assert (Hg : 0 < g) by (apply Z.pow_pos_nonneg; lia).
  assert (H1 : 2 ^ (1 - e) * g = 2 ^ scale).
  { unfold g. rewrite <- Z.pow_add_r by lia. f_equal. lia. }
  assert (H2 : 2 * g = 2 ^ (scale + e)).
  { unfold g. replace (scale + e) with (1 + (scale + e - 1)) at 2 by lia.
    by rewrite Z.pow_add_r by lia. }
  assert (H3 : 2 ^ (- e) * g = 2 ^ (scale - 1)).
  { unfold g. rewrite <- Z.pow_add_r by lia. f_equal. lia. }
  rewrite <- H1, <- H2, <- H3. unfold Z.succ in Hhi. nia.
Qed.

(** The scaled product is within [82 * N * 2^(scale - 52)] of the exact
    percentage, scaled and multiplied by [N]. *)
Lemma percent_error t N
    (c := mul100_spec (div_spec (normal_form t) (normal_form N))) :
  1 <= N < 2 ^ 53 -> 1 <= t <= N ->
  (- (164 * (N * 2 ^ (scale - 52)))
     <= 2 * (scaled c * N - 100 * (t * 2 ^ scale))
     <= 164 * (N * 2 ^ (scale - 52))) /\
  snd c < 0 /\ 1 <= scale + snd c.
Proof.
  intros HN Ht.
  destruct (percentage_stages t N ltac:(lia) Ht) as (_ & Hnq & Hq1 & Hnc & Hc1).
  pose proof (div_error t N HN Ht) as Hd.
  pose proof (div_spec_snd (normal_form t) (normal_form N)) as Hqs.
  destruct (normal_form_spec t ltac:(lia)) as (_ & Hex & _).
  destruct (normal_form_spec N HN) as (_ & Hey & _).
  set (q := div_spec (normal_form t) (normal_form N)) in *.
  assert (Hce : snd c <= -46).
  { unfold c. destruct Hc1 as [Hlt|[Heq _]]; cbn [snd] in *; lia. }
  pose proof (mul100_error q Hnq ltac:(lia) Hce) as Hm. fold c in Hm.
  assert (Hcs : snd q - 46 + 52 <= snd c).
  { subst c. unfold mul100_spec.
    match goal with |- context [renorm ?me] => pose proof (renorm_snd me) as Hs end.
    cbn [snd] in Hs. destruct (fst q * m100 <? 2 ^ 105); lia. }
  split; [|unfold scale; lia].
  assert (H46 : 2 ^ (scale - 46) = 64 * 2 ^ (scale - 52)).
  { replace (scale - 46) with (6 + (scale - 52)) by lia.
    rewrite Z.pow_add_r by (unfold scale; lia). done. }
  assert (HG : 0 < 2 ^ (scale - 52)) by (apply Z.pow_pos_nonneg; unfold scale; lia).
  rewrite H46 in Hm. nia.
Qed.

Lemma rounded_percent_spec t N (k := rounded_percent t N) :
  1 <= N -> 0 <= t ->
  2 * N * k <= 200 * t + N < 2 * N * (k + 1) /\
  (halfway t N <-> 200 * t + N = 2 * N * k).
Proof.
  intros HN Ht. subst k. unfold rounded_percent, halfway.
  pose proof (Z.div_mod (200 * t + N) (2 * N) ltac:(lia)) as Hdm.
  pose proof (Z.mod_pos_bound (200 * t + N) (2 * N) ltac:(lia)) as Hr.
  split; [nia|]. split; intros H; lia.
Qed.

(** The percentage computed in binary64 is the exact percentage rounded to
    the nearest integer, except that an exact half may be rounded down. *)
Lemma percent_of_rounded t N :
  1 <= N <= 2 ^ 44 -> 0 <= t <= N ->
  percent_of t N = rounded_percent t N \/
  (halfway t N /\ percent_of t N = rounded_percent t N - 1).
Proof.
  intros HN Ht. unfold percent_of. destruct (Z.eqb_spec t 0) as [->|Hne].
  { left. unfold rounded_percent. symmetry. apply Z.div_small. lia. }
  destruct (percent_error t N ltac:(lia) ltac:(lia)) as (Herr & Hneg & Hsc).
  set (c := mul100_spec (div_spec (normal_form t) (normal_form N))) in *.
  pose proof (round_spec_scaled c Hneg Hsc) as Hfl.
  destruct (rounded_percent_spec t N ltac:(lia) ltac:(lia)) as (Hk & Hhalf).
  set (k := rounded_percent t N) in *. set (k' := round_spec c) in *.
  set (V := scaled c) in *.
  set (G := 2 ^ (scale - 52)) in *.
  assert (HG : 0 < G) by (apply Z.pow_pos_nonneg; unfold scale; lia).
  assert (HS : 2 ^ scale = 2 ^ 52 * G).
  { unfold G. rewrite <- Z.pow_add_r by (unfold scale; lia). f_equal. }
  assert (HH : 2 ^ (scale - 1) = 2 ^ 51 * G).
  { unfold G. rewrite <- Z.pow_add_r by (unfold scale; lia). f_equal. }
  rewrite HS in *. rewrite HH in *.
  assert (Hup : k' <= k).
  { destruct (Z_le_gt_dec k' k) as [|Hgt]; [done|]. exfalso.
    assert (2 ^ 52 * G * (k + 1) <= 2 ^ 52 * G * k') by nia.
    assert (2 ^ 52 * G * (k + 1) * N <= (V + 2 ^ 51 * G) * N) by nia.
    nia. }
  destruct (Z.eq_dec (200 * t + N) (2 * N * k)) as [Heq|Hneq].
  - assert (Hlo : k - 1 <= k').
    { destruct (Z_le_gt_dec (k - 1) k') as [|Hgt]; [done|]. exfalso.
      assert (2 ^ 52 * G * (k' + 1) <= 2 ^ 52 * G * (k - 1)) by nia.
      assert ((V + 2 ^ 51 * G) * N < 2 ^ 52 * G * (k - 1) * N) by nia.
      nia. }
    destruct (Z.eq_dec k' k); [by left|]. right.
    split; [by apply Hhalf|lia].
  - left.
    destruct (Z_le_gt_dec k k') as [|Hgt]; [lia|]. exfalso.
    assert (2 ^ 52 * G * (k' + 1) <= 2 ^ 52 * G * k) by nia.
    assert ((V + 2 ^ 51 * G) * N < 2 ^ 52 * G * k * N) by nia.
    nia.
Qed.

(** X18. For a transfer of at most [2^44] bytes, the percentage handed to
    the callback, [Math.round(transferred / total * 100)] computed in
    binary64, is the exact percentage rounded to the nearest integer, halves
    upwards -- except that when the exact percentage lies halfway between
    two integers the result may be the lower of the two. *)
Theorem percentage_correctly_rounded (t N : Z) :
  1 <= N <= 2 ^ 44 -> 0 <= t <= N ->
  percentage (number_of_Z t) (number_of_Z N)
    = number_of_Z (rounded_percent t N) \/
  (halfway t N /\
   percentage (number_of_Z t) (number_of_Z N)
     = number_of_Z (rounded_percent t N - 1)).
Proof.
  intros HN Ht. rewrite percentage_percent_of by lia.
  destruct (percent_of_rounded t N HN Ht) as [->|[Hh ->]]; [by left|by right].
Qed.

Lemma percentage_correctly_rounded_witness :
  percentage (number_of_Z 1) (number_of_Z 3) = number_of_Z 33 \/
  (halfway 1 3 /\
   percentage (number_of_Z 1) (number_of_Z 3) = number_of_Z (33 - 1)).
Proof. apply (percentage_correctly_rounded 1 3); lia. Defined.

(** Both outcomes occur at a half: [14.5] comes out as [14], [0.5] as
    [1]. *)
Example percentage_at_a_half :
  halfway 29 200 /\ rounded_percent 29 200 = 15 /\
  percentage (number_of_Z 29) (number_of_Z 200) = number_of_Z 14 /\
  halfway 1 200 /\ rounded_percent 1 200 = 1 /\
  percentage (number_of_Z 1) (number_of_Z 200) = number_of_Z 1.
Proof. repeat split; reflexivity. Qed.

(** ** The first and the last percent *)

Lemma number_of_Z_0 : number_of_Z 0 = S754_zero false.
Proof. reflexivity. Qed.

Lemma number_of_Z_inj a b :
  0 <= a < 2 ^ 53 -> 0 <= b < 2 ^ 53 ->
  number_of_Z a = number_of_Z b -> a = b.
Proof.
  assert (Hpos : forall t, 1 <= t < 2 ^ 53 ->
            exists m e, number_of_Z t = S754_finite false m e /\
                        Z.pos m = t * 2 ^ (- e) /\ -52 <= e <= 0).
  { intros t Ht. rewrite (number_of_Z_normal t Ht).
    destruct (normal_form_spec t Ht) as (Hn & He & Hm). unfold normal in Hn.
    destruct (normal_form t) as [m e]. cbn [fst snd] in *.
    destruct m as [|m|m]; try lia.
    exists m, e. by rewrite float_of_pos. }
  intros Ha Hb Heq.
  destruct (Z.eq_dec a 0) as [->|Hane], (Z.eq_dec b 0) as [->|Hbne]; [done| | |].
  - destruct (Hpos b ltac:(lia)) as (m & e & Hf & _).
    rewrite Hf, number_of_Z_0 in Heq. discriminate.
  - destruct (Hpos a ltac:(lia)) as (m & e & Hf & _).
    rewrite Hf, number_of_Z_0 in Heq. discriminate.
  - destruct (Hpos a ltac:(lia)) as (ma & ea & Hfa & Hma & Hea).
    destruct (Hpos b ltac:(lia)) as (mb & eb & Hfb & Hmb & Heb).
    rewrite Hfa, Hfb in Heq. injection Heq as -> ->.
    assert (0 < 2 ^ (- eb)) by (apply Z.pow_pos_nonneg; lia). nia.
Qed.

Lemma percent_of_ends t N :
  1 <= N <= 2 ^ 44 -> 0 <= t <= N ->
  (percent_of t N = 100 -> 199 * N <= 200 * t) /\
  (199 * N < 200 * t -> percent_of t N = 100) /\
  (percent_of t N = 0 -> 200 * t <= N) /\
  (200 * t < N -> percent_of t N = 0).
Proof.
  intros HN Ht.
  destruct (rounded_percent_spec t N ltac:(lia) ltac:(lia)) as (Hk & Hhalf).
  pose proof (percent_of_rounded t N HN Ht) as Hr.
  set (k := rounded_percent t N) in *.
  repeat split; intros H.
  - destruct Hr as [Hr|[_ Hr]]; nia.
  - assert (k = 100) by nia.
    destruct Hr as [Hr|[Hh Hr]]; [lia|]. apply Hhalf in Hh. nia.
  - destruct Hr as [Hr|[Hh Hr]]; [nia|]. apply Hhalf in Hh. nia.
  - assert (k = 0) by nia.
    destruct Hr as [Hr|[Hh Hr]]; [lia|]. apply Hhalf in Hh. nia.
Qed.

(** X19. For a transfer of at most [2^44] bytes, a report of 100 means
    that at least 99.5 percent of the bytes have been transferred, and more
    than 99.5 percent is always reported as 100; a report of 0 means that at
    most 0.5 percent has been transferred, and less than 0.5 percent is
    always reported as 0. *)
Theorem first_and_last_percent (t N : Z) :
  1 <= N <= 2 ^ 44 -> 0 <= t <= N ->
  (percentage (number_of_Z t) (number_of_Z N) = number_of_Z 100 ->
   199 * N <= 200 * t) /\
  (199 * N < 200 * t ->
   percentage (number_of_Z t) (number_of_Z N) = number_of_Z 100) /\
  (percentage (number_of_Z t) (number_of_Z N) = number_of_Z 0 ->
   200 * t <= N) /\
  (200 * t < N ->
   percentage (number_of_Z t) (number_of_Z N) = number_of_Z 0).
Proof.
  intros HN Ht. rewrite percentage_percent_of by lia.
  pose proof (percent_of_range t N ltac:(lia) Ht) as Hrange.
  destruct (percent_of_ends t N HN Ht) as (H1 & H2 & H3 & H4).
  repeat split; intros H.
  - apply H1. apply number_of_Z_inj in H; lia.
  - by rewrite H2.
  - apply H3. apply number_of_Z_inj in H; lia.
  - by rewrite H4.
Qed.

Lemma first_and_last_percent_witness :
  percentage (number_of_Z 996) (number_of_Z 1000) = number_of_Z 100 /\
  percentage (number_of_Z 4) (number_of_Z 1000) = number_of_Z 0.
Proof.
  split.
  - destruct (first_and_last_percent 996 1000) as (_ & H & _); [lia|lia|].
    apply H. lia.
  - destruct (first_and_last_percent 4 1000) as (_ & _ & _ & H); [lia|lia|].
    apply H. lia.
Defined.

(** ** The matcher and the language of a regular expression *)

Lemma string_app_nil_r (s : string) : s +:+ "" = s.
Proof.
  induction s as [|c s IH]; [done|].
  change (String c (s +:+ "") = String c s). by rewrite IH.
Qed.

Lemma times_loop_correct r1 lo k :
  (forall s k', matches r1 s k' = true <->
                exists s1 s2, s = s1 +:+ s2 /\ lang r1 s1 /\ k' s2 = true) ->
  forall budget count s,
    times_loop (matches r1) lo k budget count s = true <->
    exists n s1 s2, (n <= budget)%nat /\ (lo <= count + n)%nat /\
                    s = s1 +:+ s2 /\ power (lang r1) n s1 /\ k s2 = true.
Proof.
  intros Hr. induction budget as [|budget IH]; intros count s.
  - simpl. rewrite andb_true_iff, Nat.leb_le. split.
    + intros [Hlo Hk]. exists O, "", s. repeat split; try done; lia.
    + intros (n & s1 & s2 & Hn & Hlo & -> & Hp & Hk).
      assert (n = O) as -> by lia. simpl in Hp. subst s1.
      split; [lia|done].
  - cbn [times_loop].
    rewrite orb_true_iff, andb_true_iff, Nat.leb_le, Hr. split.
    + intros [(s1 & s2 & -> & Hl & Hloop)|[Hlo Hk]].
      * apply IH in Hloop as (n & t1 & t2 & Hn & Hlo & -> & Hp & Hk).
        exists (S n), (s1 +:+ t1), t2.
        repeat split; try done; try lia.
        -- by rewrite string_app_assoc.
        -- by exists s1, t1.
      * exists O, "", s. repeat split; try done; lia.
    + intros (n & s1 & s2 & Hn & Hlo & -> & Hp & Hk).
      destruct n as [|n].
      * right. simpl in Hp. subst s1. split; [lia|done].
      * left. destruct Hp as (t1 & t2 & -> & Hl & Hp).
        exists t1, (t2 +:+ s2). split; [by rewrite string_app_assoc|].
        split; [done|]. apply IH.
        exists n, t2, s2. repeat split; try done; lia.
Qed.

Lemma matches_correct r : forall s k,
  matches r s k = true <->
  exists s1 s2, s = s1 +:+ s2 /\ lang r s1 /\ k s2 = true.
Proof.
  induction r as [|a|lo hi r1 IH|r1 IH1 r2 IH2]; intros s k.
  - simpl. destruct s as [|c s'].
    + split; [done|]. intros (s1 & s2 & Hs & (c & -> & _) & _). done.
    + rewrite andb_true_iff. split.
      * intros [Hd Hk]. exists (String c ""), s'. repeat split; try done.
        by exists c.
      * intros (s1 & s2 & Hs & (c' & -> & Hd) & Hk).
        injection Hs as -> ->. done.
  - simpl. destruct s as [|c s'].
    + split; [done|]. intros (s1 & s2 & Hs & -> & _). done.
    + rewrite andb_true_iff, Ascii.eqb_eq. split.
      * intros [-> Hk]. by exists (String a ""), s'.
      * intros (s1 & s2 & Hs & -> & Hk). injection Hs as -> ->. done.
  - change (matches (times lo hi r1) s k)
      with (times_loop (matches r1) lo k hi O s).
    rewrite (times_loop_correct r1 lo k IH). split.
    + intros (n & s1 & s2 & Hn & Hlo & -> & Hp & Hk).
      exists s1, s2. repeat split; try done. exists n. split; [lia|done].
    + intros (s1 & s2 & -> & (n & Hn & Hp) & Hk).
      exists n, s1, s2. repeat split; try done; lia.
  - simpl. rewrite IH1. split.
    + intros (s1 & s2 & -> & Hl1 & Hm). apply IH2 in Hm as (t1 & t2 & -> & Hl2 & Hk).
      exists (s1 +:+ t1), t2. split; [by rewrite string_app_assoc|].
      split; [|done]. by exists s1, t1.
    + intros (s1 & s2 & -> & (t1 & t2 & -> & Hl1 & Hl2) & Hk).
      exists t1, (t2 +:+ s2). split; [by rewrite string_app_assoc|].
      split; [done|]. apply IH2. by exists t2, s2.
Qed.

Lemma test_anchored_correct r v : test_anchored r v = true <-> lang r v.
Proof.
  unfold test_anchored. rewrite matches_correct. split.
  - intros (s1 & s2 & -> & Hl & Hk). apply bool_decide_eq_true in Hk.
    subst s2. by rewrite string_app_nil_r.
  - intros Hl. exists v, "". rewrite string_app_nil_r. by repeat split.
Qed.

Lemma power_digit n : forall s,
  power (lang digit) n s <->
  String.length s = n /\ forallb is_digit (list_ascii_of_string s) = true.
Proof.
  induction n as [|n IH]; intros s; simpl.
  - split; [by intros ->|]. intros [Hl _]. by destruct s.
  - split.
    + intros (s1 & s2 & -> & (c & -> & Hc) & Hp). apply IH in Hp as [Hl Hf].
      change (String c "" +:+ s2) with (String c s2).
      simpl. rewrite Hc, Hf, Hl. done.
    + intros [Hl Hf]. destruct s as [|c s]; [done|]. simpl in *.
      apply andb_prop in Hf as [Hc Hf].
      exists (String c ""), s. split; [done|]. split; [by exists c|].
      apply IH. split; [lia|done].
Qed.

Lemma lang_digits_1_3 s : lang (times 1 3 digit) s <-> digits_1_3 s = true.
Proof.
  unfold digits_1_3. rewrite !andb_true_iff, !Nat.leb_le. simpl. split.
  - intros (n & Hn & Hp). apply power_digit in Hp as [Hl Hf].
    repeat split; try done; lia.
  - intros [[H1 H3] Hf]. exists (String.length s). split; [lia|].
    by apply power_digit.
Qed.

(** X20. The input box of [pickDevice] accepts exactly the strings made
    of four groups of one to three decimal digits separated by single dots,
    with nothing before or after.  The value of a group is not looked at:
    [999.999.999.999] is accepted. *)
Theorem validateInput_accepts (v : string) :
  (validateInput v = None <->
   exists a b c d,
     v = a +:+ "." +:+ b +:+ "." +:+ c +:+ "." +:+ d /\
     digits_1_3 a = true /\ digits_1_3 b = true /\
     digits_1_3 c = true /\ digits_1_3 d = true) /\
  validateInput "999.999.999.999" = None.
Proof.
  split; [|reflexivity].
  unfold validateInput.
  destruct (test_anchored ip_pattern v) eqn:Ht; simpl.
  - apply test_anchored_correct in Ht. split; [intros _|done].
    destruct Ht as (a & r1 & -> & Ha & d1 & r2 & -> & -> &
                    b & r3 & -> & Hb & d2 & r4 & -> & -> &
                    c & r5 & -> & Hc & d3 & d & -> & -> & Hd).
    exists a, b, c, d. rewrite <- !lang_digits_1_3. done.
  - split; [done|]. intros (a & b & c & d & -> & Ha & Hb & Hc & Hd).
    apply lang_digits_1_3 in Ha, Hb, Hc, Hd.
    assert (Hl : lang ip_pattern (a +:+ "." +:+ b +:+ "." +:+ c +:+ "." +:+ d)).
    { exists a, ("." +:+ b +:+ "." +:+ c +:+ "." +:+ d). repeat split; [done|].
      exists ".", (b +:+ "." +:+ c +:+ "." +:+ d). repeat split.
      exists b, ("." +:+ c +:+ "." +:+ d). repeat split; [done|].
      exists ".", (c +:+ "." +:+ d). repeat split.
      exists c, ("." +:+ d). repeat split; [done|].
      exists ".", d. by repeat split. }
    apply test_anchored_correct in Hl. congruence.
Qed.

Example validateInput_examples :
  validateInput "192.168.137.3" = None /\
  validateInput "" = Some "Not a valid IP address" /\
  validateInput "1.2.3" = Some "Not a valid IP address" /\
  validateInput "1.2.3.4 " = Some "Not a valid IP address" /\
  validateInput "1234.1.1.1" = Some "Not a valid IP address" /\
  validateInput "ev3dev.local" = Some "Not a valid IP address" /\
  validateInput "fe80::1" = Some "Not a valid IP address".
Proof. repeat split; reflexivity. Qed.

(** ** Devices given by hand *)

Lemma or_else_nonempty a b : b <> "" -> or_else a b <> "".
Proof. intros Hb. destruct a as [s|]; simpl; [by case_bool_decide|done]. Qed.

Lemma username_additional device :
  username (new_Device (additionalDeviceToDnssdService device))
  = Some (or_else (AdditionalDevice.username device) "robot").
Proof.
  unfold username. simpl.
  rewrite lookup_insert_ne by done. by rewrite lookup_insert.
Qed.

Lemma homeDirectoryPath_additional device :
  homeDirectoryPath (new_Device (additionalDeviceToDnssdService device))
  = or_else (AdditionalDevice.homeDirectory device)
            ("/home/" +:+ or_else (AdditionalDevice.username device) "robot").
Proof.
  unfold homeDirectoryPath. simpl. rewrite !lookup_insert. simpl.
  rewrite bool_decide_eq_false_2; [done|]. by apply or_else_nonempty.
Qed.

(** X21. A device made from an entry of the settings has the entry's user
    name, or [robot] when that is left out or empty, and the entry's home
    directory, or [/home/] followed by that user name when it is left out or
    empty.  Neither is ever empty or the word [undefined], so the fallback of
    [homeDirectoryPath] itself is never taken for such a device.  The device
    is new: idle, with no SFTP channel. *)
Theorem configured_device (device : AdditionalDevice.t) :
  let d := new_Device (additionalDeviceToDnssdService device) in
  let user := or_else (AdditionalDevice.username device) "robot" in
  username d = Some user /\ user <> "" /\
  homeDirectoryPath d =
    or_else (AdditionalDevice.homeDirectory device) ("/home/" +:+ user) /\
  homeDirectoryPath d <> "" /\
  txt (service d) !! "ev3dev.robot.home" = Some (homeDirectoryPath d) /\
  name (service d) = AdditionalDevice.name device /\
  idle d /\ sftp d = None.
Proof.
  cbv zeta. rewrite username_additional, homeDirectoryPath_additional.
  split; [done|]. split; [by apply or_else_nonempty|]. split; [done|].
  split; [by apply or_else_nonempty|]. split; [|done].
  simpl. by rewrite lookup_insert.
Qed.

Lemma fold_left_snoc {A B} (f : A -> B) (l : list A) : forall acc,
  fold_left (fun acc x => (acc ++ [f x])%list) l acc = (acc ++ map f l)%list.
Proof.
  induction l as [|x l IH]; intros acc; simpl; [by rewrite app_nil_r|].
  by rewrite IH, <- app_assoc.
Qed.

(** X22. [getServicesFromConfig] gives one quick-pick item per configured
    device, in the order of the setting: labelled with the device's name,
    without description, and carrying the service made for that device -- an
    IPv4 service on port 22.  Although the items are written as object
    literals, each is what [new ServiceItem] makes of its service.  An unset
    setting gives no items. *)
Theorem services_from_config (devices : list AdditionalDevice.t) :
  getServicesFromConfig None = [] /\
  getServicesFromConfig (Some devices)
    = map (fun device => new_ServiceItem (additionalDeviceToDnssdService device))
          devices /\
  map ServiceItem.label (getServicesFromConfig (Some devices))
    = map AdditionalDevice.name devices /\
  Forall (fun item =>
            ServiceItem.description item = None /\
            ipv (ServiceItem.service item) = IPv4 /\
            port (ServiceItem.service item) = 22)
         (getServicesFromConfig (Some devices)).
Proof.
  split; [done|]. unfold getServicesFromConfig. simpl.
  rewrite (fold_left_snoc
             (fun device => ServiceItem.mk (AdditionalDevice.name device) None
                              (additionalDeviceToDnssdService device))).
  cbn [app]. split; [done|]. rewrite !map_map. split; [done|].
  apply Forall_forall. intros item Hi.
  apply list_elem_of_In, in_map_iff in Hi as (device & <- & _). done.
Qed.

Lemma connect_new_device (svc : DnssdService) (r : Remote) (plat : string)
    (pw : option string) (ct : option Z) :
  exists cfg w' more,
    world_of (connect (mkWorld (new_Device svc) r [] [] [] plat pw ct)) = Some w' /\
    calls w' = client_connect cfg :: more /\
    host cfg = connect_address plat svc /\
    cfg_username cfg = txt svc !! "ev3dev.robot.user".
Proof.
  destruct (connect_first_call (mkWorld (new_Device svc) r [] [] [] plat pw ct))
    as (w' & more & Hw & Hc).
  eexists _, w', more. split; [exact Hw|]. split; [exact Hc|]. done.
Qed.

Lemma connect_address_no_interface plat i n svc :
  ~ link_local svc ->
  connect_address plat (with_interface i n svc) = address svc.
Proof. intros Hn. by rewrite connect_address_other. Qed.

(** X23. A connection to a service that the class makes itself -- for a
    configured or picked device, or for the USB device -- is made to the
    address as it stands, on every platform: no interface is appended,
    whatever interface index or name is found on the service and even when
    the address of a configured device is a link-local IPv6 one, because such
    a service is marked IPv4; the USB service is marked IPv6 but its
    address is a host name. *)
Theorem built_services_target (i : Z) (n : option string) (r : Remote)
    (plat : string) (pw : option string) (ct : option Z) :
  (forall device,
     exists cfg w' more,
       world_of (connect (mkWorld
                   (new_Device (with_interface i n
                                  (additionalDeviceToDnssdService device)))
                   r [] [] [] plat pw ct)) = Some w' /\
       calls w' = client_connect cfg :: more /\
       host cfg = AdditionalDevice.ipAddress device /\
       cfg_username cfg =
         Some (or_else (AdditionalDevice.username device) "robot")) /\
  (exists cfg w' more,
     world_of (connect (mkWorld
                 (new_Device (with_interface i n getLocalDnssdService))
                 r [] [] [] plat pw ct)) = Some w' /\
     calls w' = client_connect cfg :: more /\
     host cfg = "ev3dev.local" /\
     cfg_username cfg = Some "robot").
Proof.
  split.
  - intros device.
    destruct (connect_new_device
                (with_interface i n (additionalDeviceToDnssdService device))
                r plat pw ct) as (cfg & w' & more & Hw & Hc & Hh & Hu).
    exists cfg, w', more. split; [done|]. split; [done|].
    rewrite Hh, Hu. split.
    + apply connect_address_no_interface. by intros [Hv _].
    + simpl. rewrite lookup_insert_ne by done. by rewrite lookup_insert.
  - destruct (connect_new_device (with_interface i n getLocalDnssdService)
                r plat pw ct) as (cfg & w' & more & Hw & Hc & Hh & Hu).
    exists cfg, w', more. split; [done|]. split; [done|].
    rewrite Hh, Hu. split.
    + apply connect_address_no_interface. by intros [_ Hp].
    + done.
Qed.

(** ** Picking a device by address *)

(** X24. [pickDevice] shows one input box.  A dismissed box, or an empty
    submission, gives no device.  Any other submission gives a new, idle
    device named after the address, with user [robot] and home directory
    [/home/robot], and a connection of that device is made to the submitted
    address as it stands, as user [robot].  The empty string is not among the
    inputs the box accepts. *)
Theorem pickDevice_outcome (choice : option string)
    (rest : list (option string)) (sh : list InputBoxOptions.t) :
  (exists result,
     pickDevice (mkWindow (choice :: rest) sh)
       = (result, mkWindow rest (sh ++ [address_box])%list) /\
     match result with
     | None => choice = None \/ choice = Some ""
     | Some d =>
         exists ip,
           choice = Some ip /\ ip <> "" /\
           name (service d) = "ev3dev device (" +:+ ip +:+ ")" /\
           username d = Some "robot" /\
           homeDirectoryPath d = "/home/robot" /\
           idle d /\ sftp d = None /\
           forall r plat pw ct,
             exists cfg w' more,
               world_of (connect (mkWorld d r [] [] [] plat pw ct)) = Some w' /\
               calls w' = client_connect cfg :: more /\
               host cfg = ip /\ cfg_username cfg = Some "robot"
     end) /\
  validateInput "" <> None.
Proof.
  split; [|done].
  unfold pickDevice, showInputBox. simpl.
  destruct choice as [ip|]; [|eexists; split; [reflexivity|by left]].
  case_bool_decide as Hip.
  { subst ip. eexists. split; [reflexivity|by right]. }
  eexists. split; [reflexivity|]. exists ip.
  set (device := AdditionalDevice.mk ("ev3dev device (" +:+ ip +:+ ")") ip None None).
  split; [done|]. split; [done|]. split; [done|].
  split; [apply (username_additional device)|].
  split; [apply (homeDirectoryPath_additional device)|].
  split; [done|]. split; [done|].
  intros r plat pw ct.
  destruct (connect_new_device (additionalDeviceToDnssdService device)
              r plat pw ct) as (cfg & w' & more & Hw & Hc & Hh & Hu).
  exists cfg, w', more. split; [done|]. split; [done|].
  rewrite Hh, Hu. split.
  - apply connect_address_other. by intros [Hv _].
  - simpl. rewrite lookup_insert_ne by done. by rewrite lookup_insert.
Qed.

(** ** Keyboard-interactive authentication *)

Lemma collect_answers_spec prompts : forall answers ui,
  collect_answers prompts answers ui =
    ((answers ++ map (fun k => or_else (submission ui k) "")
                     (seq 0 (length prompts)))%list,
     mkWindow (drop (length prompts) (pending ui))
              (shown ui ++ map prompt_box prompts)%list).
Proof.
  induction prompts as [|p prompts IH]; intros answers ui.
  - simpl. rewrite !app_nil_r, drop_0. by destruct ui.
  - cbn [collect_answers]. unfold showInputBox.
    destruct (pending ui) as [|choice rest] eqn:Hp.
    + rewrite IH. cbn [pending shown length seq map].
      rewrite <- !app_assoc. cbn [app]. rewrite drop_nil.
      f_equal. f_equal. f_equal.
      * unfold submission. by rewrite Hp.
      * rewrite <- (seq_shift _ 0), map_map. apply map_ext. intros k.
        unfold submission. cbn [pending]. rewrite Hp. by rewrite !lookup_nil.
    + rewrite IH. cbn [pending shown length seq map].
      rewrite <- !app_assoc. cbn [app drop].
      f_equal. f_equal. f_equal.
      * unfold submission. by rewrite Hp.
      * rewrite <- (seq_shift _ 0), map_map. apply map_ext. intros k.
        unfold submission. cbn [pending]. by rewrite Hp.
Qed.

(** X25. The handler of the client's [keyboard-interactive] event shows
    one input box per prompt, in the order of the prompts, masked exactly
    when the prompt is not to be echoed, and calls [finish] with one answer
    per prompt: what the user submitted in the corresponding box, or the
    empty string when that box was dismissed.  A dismissed box does not stop
    the remaining prompts from being shown. *)
Theorem keyboard_interactive_answers (prompts : list Prompt.t) (ui : Window) :
  exists answers ui',
    on_keyboard_interactive prompts ui = (answers, ui') /\
    answers = map (fun k => or_else (submission ui k) "")
                  (seq 0 (length prompts)) /\
    length answers = length prompts /\
    shown ui' = (shown ui ++ map prompt_box prompts)%list /\
    pending ui' = drop (length prompts) (pending ui).
Proof.
  unfold on_keyboard_interactive. rewrite collect_answers_spec.
  eexists _, _. split; [reflexivity|]. simpl.
  repeat split. by rewrite length_map, length_seq.
Qed.

Example keyboard_interactive_example :
  on_keyboard_interactive
    [Prompt.mk "Password: " false; Prompt.mk "Code: " true]
    (mkWindow [None; Some "123456"] [])
  = (["" ; "123456"],
     mkWindow []
       [InputBoxOptions.mk true (Some true) "Password: " None None;
        InputBoxOptions.mk true (Some false) "Code: " None None]).
Proof. reflexivity. Qed.
